(** * Cube grid: a shallow embedding of the two entry points of the program

    The repository holds two near-identical browser programs.  Variant A
    (the unnamed source file) textures the clicked cube in place and can
    reset the whole grid; variant B (main.js) spawns a new cube per click,
    highlights the hovered column and has its reset disabled.

    JavaScript numbers are IEEE-754 binary64 values: they are modelled by
    Rocq's primitive floats, whose operations round exactly as the
    JavaScript operators do.  Objects that the program shares by reference
    (the meshes) are identified by their index in the [cubes] array, which
    is also their creation order; nothing ever leaves that array.

    The rendering library and the ray caster are external: a ray cast is
    an input of the event (the index of the nearest cube hit, if any).

    The tweening engine (gsap 3) is external too, but what it writes into
    [cube.position] is read back by the program, so it is modelled
    ([Tween.write], [Engine]): on each of its frames a running tween
    writes [Math.round((s + c * ratio) * 1e6) / 1e6] into every property
    it animates, where [s] is the start value, [c] the end value minus [s]
    and [ratio] the eased progress; the last write is made with ratio 1
    and the tween is then dropped; tweens on one target do not cancel each
    other and render in creation order.  The eased progress between start
    and end is an input of the frame, as the easing curves are the
    engine's.

    Variant A is modelled with the engine running: its state holds the
    tweens in flight, and frames are events.  Variant B starts exactly one
    tween per spawned cube, at its creation, on z only, and no handler of
    variant B reads a z coordinate or animates x or y; its states show
    every spawned cube where its own tween leaves it ([Tween.settle]). *)

From Stdlib Require Import Floats String Lia.
From Stdlib Require ZArith Uint63.
From stdpp Require Import base list.

Set Warnings "-inexact-float".
#[local] Open Scope float_scope.

(** ** JavaScript primitives used by the program *)

Module Js.

(** [for (let i = 0; i < n; i++)]: the values taken by [i], each obtained
    from the previous one by the float addition [i + 1]. *)
Fixpoint natToFloat (n : nat) : float :=
  match n with
  | O => 0
  | S k => natToFloat k + 1
  end.

(** ToNumber applied to the result of a lookup that may be [undefined]. *)
Definition toNumber (v : option float) : float :=
  match v with
  | Some f => f
  | None => nan
  end.

(** ToBoolean on a number: [0], [-0] and [NaN] are falsy. *)
Definition truthy (f : float) : bool := negb (is_zero f || is_nan f).

(** [v || 0] where [v] is a number or [undefined]. *)
Definition orZero (v : option float) : float :=
  match v with
  | Some f => if truthy f then f else 0
  | None => 0
  end.

(** [Math.max(a, b)]: NaN if either is NaN, and [+0] is larger than [-0]. *)
Definition Math_max (a b : float) : float :=
  if is_nan a || is_nan b then nan
  else if a <? b then b
  else if b <? a then a
  else if get_sign a then b else a.

(** [Math.min(a, b)]: NaN if either is NaN, and [-0] is smaller than [+0]. *)
Definition Math_min (a b : float) : float :=
  if is_nan a || is_nan b then nan
  else if a <? b then a
  else if b <? a then b
  else if get_sign a then a else b.

Definition Math_abs (a : float) : float := abs a.

(** An integer of magnitude below 2^53, as a number. *)
Definition ofZ (n : Z) : float :=
  match n with
  | Z0 => 0
  | Zpos p => of_uint63 (Uint63.of_Z (Zpos p))
  | Zneg p => - of_uint63 (Uint63.of_Z (Zpos p))
  end.

(** [Math.round(x)]: the integer nearest to [x], the larger one of two
    that are equally near; [-0] for [x] in [-0.5, -0]; [x] itself when it
    is an integer, an infinity or NaN.  A number [m * 2^e] with [e < 0]
    is below 2^53 in magnitude, and [floor(x + 1/2)] is computed exactly
    on integers. *)
Definition Math_round (x : float) : float :=
  match Prim2SF x with
  | S754_finite sg m e =>
      if (0 <=? e)%Z then x
      else
        let sm := if sg then Zneg m else Zpos m in
        let n := Z.shiftr (2 * sm + 2 ^ (- e)) (- e + 1) in
        if (n =? 0)%Z then (if sg then -0 else 0) else ofZ n
  | _ => x
  end.

(** The whole milliseconds in [x] seconds, for [x >= 0]. *)
Definition millisOf (x : float) : N :=
  match Prim2SF (x * 1000) with
  | S754_finite false m e => Z.to_N (Z.shiftl (Zpos m) e)
  | _ => 0%N
  end.

(** A [Map]: entries in insertion order, at most one per key.  [same]
    is the key equality (SameValueZero on the key type). *)
Section Map.
Context {K V : Type} (same : K -> K -> bool).

Fixpoint Map_get (m : list (K * V)) (k : K) : option V :=
  match m with
  | [] => None
  | (k', v) :: m' => if same k' k then Some v else Map_get m' k
  end.

Definition Map_has (m : list (K * V)) (k : K) : bool :=
  match Map_get m k with Some _ => true | None => false end.

(** [set] overwrites the value of an existing entry in place and
    appends a new entry otherwise. *)
Fixpoint Map_set (m : list (K * V)) (k : K) (v : V) : list (K * V) :=
  match m with
  | [] => [(k, v)]
  | (k', v') :: m' =>
      if same k' k then (k', v) :: m' else (k', v') :: Map_set m' k v
  end.
End Map.

(** Outcome of a function body: it returns, or an exception escapes it
    (the state at that point is kept, as mutations are not rolled back). *)
Inductive Completion (S : Type) : Type :=
| Normal (s : S)
| Throw (s : S).
Arguments Normal {S} s.
Arguments Throw {S} s.

Definition stateOf {S : Type} (c : Completion S) : S :=
  match c with Normal s => s | Throw s => s end.

End Js.

(** ** Scene objects *)

Module Vector3.
Record t := mk { x : float; y : float; z : float }.
End Vector3.

(** The one texture of the program, loaded from 'cube_texture.jpg'. *)
Inductive Texture := cube_texture.

Module Material.
Record t := mk {
  color : N;
  opacity : float;
  transparent : bool;
  map : option Texture;
  emissive : N;
  needsUpdate : bool
}.

Definition set_map (v : option Texture) (m : t) : t :=
  mk (color m) (opacity m) (transparent m) v (emissive m) (needsUpdate m).
Definition set_opacity (v : float) (m : t) : t :=
  mk (color m) v (transparent m) (map m) (emissive m) (needsUpdate m).
Definition set_needsUpdate (v : bool) (m : t) : t :=
  mk (color m) (opacity m) (transparent m) (map m) (emissive m) v.
Definition set_emissive (v : N) (m : t) : t :=
  mk (color m) (opacity m) (transparent m) (map m) v (needsUpdate m).
End Material.

Module Mesh.
(** [geometry] is the identity of the BoxGeometry object (the number of
    the grid cube it was created for); meshes may share one. *)
Record t := mk {
  geometry : nat;
  material : Material.t;
  position : Vector3.t;
  castShadow : bool;
  receiveShadow : bool;
  textured : bool
}.

Definition set_material (v : Material.t) (c : t) : t :=
  mk (geometry c) v (position c) (castShadow c) (receiveShadow c) (textured c).
Definition set_position (v : Vector3.t) (c : t) : t :=
  mk (geometry c) (material c) v (castShadow c) (receiveShadow c) (textured c).
Definition set_textured (v : bool) (c : t) : t :=
  mk (geometry c) (material c) (position c) (castShadow c) (receiveShadow c) v.
End Mesh.

(** ** The tweening engine, as the program drives it *)

Module Tween.
(** [gsap.fromTo(cube.position, {z}, {z, duration, ease})] and
    [gsap.to(cube.position, {x, y, z, duration, ease})]: [target] is the
    index of the cube whose position is animated. *)
Record t := mk {
  target : nat;
  from_z : option float;
  to_x : option float;
  to_y : option float;
  to_z : option float;
  duration : float;
  ease : string
}.

(** Length of the tween in milliseconds. *)
Definition millis (tw : t) : N := Js.millisOf (duration tw).

Definition round6 (v : float) : float := Js.Math_round (v * 1000000) / 1000000.
Definition round4 (v : float) : float := Js.Math_round (v * 10000) / 10000.

(** What the engine writes into a property animated from [s] to [e] when
    the eased progress is [ratio].  Numbers are interpolated as
    [s + c * ratio] with [c = e - s] and written rounded to six decimals
    (a start value of 0 or -0 is taken as 0).  When [s * e] is NaN the
    engine interpolates the two values as strings instead: the property
    then holds the start value at ratio 0, NaN if the end value is NaN,
    the end value itself at ratio 1, and otherwise the part of the end
    value reached from 0, rounded to four decimals. *)
Definition write (s e ratio : float) : float :=
  if is_nan (s * e) then
    if is_zero ratio then s
    else if is_nan e then nan
    else if ratio =? 1 then e
    else round4 (0 + (e - 0) * ratio)
  else
    let s0 := if Js.truthy s then s else 0 in
    round6 (s0 + (e - s0) * ratio).

(** Value of one coordinate at the end of the tween: [cur] if the tween
    does not animate it, and else the last write, from the start value
    given by [fromTo] or read from the target. *)
Definition last (from to : option float) (cur : float) : float :=
  match to with
  | None => cur
  | Some e => write (default cur from) e 1
  end.

Definition endPosition (tw : t) (p : Vector3.t) : Vector3.t :=
  Vector3.mk (last None (to_x tw) (Vector3.x p))
             (last None (to_y tw) (Vector3.y p))
             (last (from_z tw) (to_z tw) (Vector3.z p)).

(** The target once the tween has run to its end, when no other tween
    animates the same target. *)
Definition settle (tw : t) (c : Mesh.t) : Mesh.t :=
  Mesh.set_position (endPosition tw (Mesh.position c)) c.
End Tween.

(** ** The engine's frames *)

Module Engine.

(** A tween in flight: [age] is the time since it was started, in
    milliseconds, and [start] the start values, which a tween started by
    [gsap.to] reads from its target when it first renders. *)
Record Run := mkRun {
  tween : Tween.t;
  age : N;
  start : option Vector3.t
}.

(** The start values of a tween whose target is at [p]. *)
Definition startValues (tw : Tween.t) (p : Vector3.t) : Vector3.t :=
  Vector3.mk (Vector3.x p) (Vector3.y p) (default (Vector3.z p) (Tween.from_z tw)).

(** One render of a tween: the animated coordinates are written, the
    others are left as they are. *)
Definition render (tw : Tween.t) (st : Vector3.t) (ratio : float) (p : Vector3.t)
    : Vector3.t :=
  Vector3.mk
    (match Tween.to_x tw with
     | Some e => Tween.write (Vector3.x st) e ratio
     | None => Vector3.x p
     end)
    (match Tween.to_y tw with
     | Some e => Tween.write (Vector3.y st) e ratio
     | None => Vector3.y p
     end)
    (match Tween.to_z tw with
     | Some e => Tween.write (Vector3.z st) e ratio
     | None => Vector3.z p
     end).

(** [gsap.fromTo] renders once when it is called, at ratio 0. *)
Definition launch (tw : Tween.t) (c : Mesh.t) : Mesh.t * Run :=
  let st := startValues tw (Mesh.position c) in
  (Mesh.set_position (render tw st 0 (Mesh.position c)) c, mkRun tw 0 (Some st)).

(** [gsap.to] renders for the first time on the next frame. *)
Definition schedule (tw : Tween.t) : Run := mkRun tw 0 None.

(** One frame, [dt] milliseconds after the previous one: the tweens in
    flight render in creation order; [k] is the rank of the first tween
    of [runs] among those in flight and [ratio k] its eased progress,
    used unless the tween has reached its end.  Returns the cubes and the
    tweens still in flight. *)
Fixpoint frameLoop (dt : N) (ratio : nat -> float) (k : nat)
    (runs : list Run) (cs : list Mesh.t) : list Mesh.t * list Run :=
  match runs with
  | [] => (cs, [])
  | r :: rest =>
      let tw := tween r in
      match cs !! Tween.target tw with
      | None => frameLoop dt ratio (S k) rest cs
      | Some c =>
          let st := default (startValues tw (Mesh.position c)) (start r) in
          let age' := (age r + dt)%N in
          if (Tween.millis tw <=? age')%N then
            frameLoop dt ratio (S k) rest
              (<[Tween.target tw := Mesh.set_position (render tw st 1 (Mesh.position c)) c]> cs)
          else
            let '(cs', runs') :=
              frameLoop dt ratio (S k) rest
                (<[Tween.target tw :=
                     Mesh.set_position (render tw st (ratio k) (Mesh.position c)) c]> cs) in
            (cs', mkRun tw age' (Some st) :: runs')
      end
  end.

End Engine.

(** ** What the two entry points share *)

Module Cube.
Import Js.

Definition cubeSize : float := 0.5.
Definition gridSize : float := 10.
Definition spacing : float := 0.05.

Definition boundaryMin : float := - (gridSize / 2) * (cubeSize + spacing).
Definition boundaryMax : float := (gridSize / 2 - 1) * (cubeSize + spacing).

(** Number of iterations of [for (let i = 0; i < gridSize; i++)]; see
    [gridCount_loop] below. *)
Definition gridCount : nat := 10.

(** [positionKey(x, y)] is the string [`${x}_${y}`].  Number-to-string
    conversion is injective on numbers except that [0] and [-0] both
    print as "0" and every NaN as "NaN", and no printed number contains
    '_'; so the string is represented by the pair it was built from, and
    equality of strings by [sameKey]. *)
Definition Key : Type := float * float.

Definition positionKey (x y : float) : Key := (x, y).

Definition sameNumberString (a b : float) : bool :=
  (a =? b) || (is_nan a && is_nan b).

Definition sameKey (k1 k2 : Key) : bool :=
  sameNumberString (fst k1) (fst k2) && sameNumberString (snd k1) (snd k2).

Inductive SceneChild :=
| CubeChild (i : nat)
| DirectionalLight
| AmbientLight.

(** The module-level state both files declare, with the tweens started
    so far (oldest first). *)
Record World := mkWorld {
  cubes : list Mesh.t;
  originalPositions : list (nat * Vector3.t);
  cubePositions : list (Key * float);
  scene : list SceneChild;
  tweens : list Tween.t
}.

Definition emptyWorld : World := mkWorld [] [] [] [] [].

Definition withCubes (cs : list Mesh.t) (w : World) : World :=
  mkWorld cs (originalPositions w) (cubePositions w) (scene w) (tweens w).

Definition keyOf (c : Mesh.t) : Key :=
  positionKey (Vector3.x (Mesh.position c)) (Vector3.y (Mesh.position c)).

(** Body of the innermost loop of the grid construction; [opacityAt z]
    is the opacity the material ends up with for layer [z]. *)
Definition createCube (opacityAt : float -> float) (x y z : float) (w : World) : World :=
  let id := length (cubes w) in
  let material := Material.mk 16777215%N (opacityAt z) true None 0%N false in
  let pos := Vector3.mk ((x - gridSize / 2) * (cubeSize + spacing))
                        ((y - gridSize / 2) * (cubeSize + spacing))
                        ((z - gridSize / 2) * (cubeSize + spacing)) in
  let smallCube := Mesh.mk id material pos true true false in
  let key := positionKey (Vector3.x pos) (Vector3.y pos) in
  mkWorld (cubes w ++ [smallCube])
          (Map_set Nat.eqb (originalPositions w) id pos)
          (if Map_has sameKey (cubePositions w) key
           then cubePositions w
           else Map_set sameKey (cubePositions w) key 0)
          (scene w ++ [CubeChild id])
          (tweens w).

Definition forRange {S : Type} (n : nat) (body : float -> S -> S) (s : S) : S :=
  fold_left (fun acc i => body i acc) (List.map natToFloat (seq 0 n)) s.

Definition buildGrid (opacityAt : float -> float) : World :=
  forRange gridCount (fun x =>
    forRange gridCount (fun y =>
      forRange gridCount (fun z => createCube opacityAt x y z))) emptyWorld.

(** The lights are added to the scene after the grid. *)
Definition startup (opacityAt : float -> float) : World :=
  let w := buildGrid opacityAt in
  mkWorld (cubes w) (originalPositions w) (cubePositions w)
          (scene w ++ [DirectionalLight; AmbientLight]) (tweens w).

(** Drop target for stack level [level], before and after clamping. *)
Definition newZPosition (level : float) : float :=
  (level * (cubeSize + spacing)) - (gridSize / 2) * (cubeSize + spacing).

Definition constrain (zpos : float) : float :=
  Math_min boundaryMax (Math_max boundaryMin zpos).

Definition topOfGrid : float := (gridSize / 2) * (cubeSize + spacing).

Definition dropTween (i : nat) (zTarget : float) : Tween.t :=
  Tween.mk i (Some topOfGrid) None None (Some zTarget) 1.5 "bounce.out".

(** [undoAllCubes]: the same text in both files. *)
Definition resetTween (i : nat) (o : Vector3.t) : Tween.t :=
  Tween.mk i None (Some (Vector3.x o)) (Some (Vector3.y o)) (Some (Vector3.z o))
           1 "power2.out".

Definition resetCube (c : Mesh.t) : Mesh.t :=
  Mesh.set_textured false
    (Mesh.set_material
       (Material.set_needsUpdate true
          (Material.set_opacity 0.1 (Material.set_map None (Mesh.material c)))) c).

(** [cubes.forEach(cube => ...)] of [undoAllCubes]: [i] is the index of
    the first cube of [rest], [done] the cubes already handled, [tws] the
    tweens started so far.  Reading [originalPosition.x] of an
    unregistered cube throws. *)
Fixpoint undoLoop (origs : list (nat * Vector3.t)) (i : nat)
    (done : list Mesh.t) (tws : list Tween.t) (rest : list Mesh.t)
    : Completion (list Mesh.t * list Tween.t) :=
  match rest with
  | [] => Normal (done, tws)
  | c :: rest' =>
      match Map_get Nat.eqb origs i with
      | None => Throw (done ++ rest, tws)
      | Some o =>
          undoLoop origs (S i) (done ++ [resetCube c])
                   (tws ++ [resetTween i o]) rest'
      end
  end.

(** [cubePositions.forEach((_, key) => cubePositions.set(key, 0))]. *)
Definition resetHeights (m : list (Key * float)) : list (Key * float) :=
  fold_left (fun acc e => Map_set sameKey acc (fst e) 0) m m.

Definition undoAllCubes (w : World) : Completion World :=
  match undoLoop (originalPositions w) 0 [] (tweens w) (cubes w) with
  | Normal (cs, tws) =>
      Normal (mkWorld cs (originalPositions w) (resetHeights (cubePositions w))
                      (scene w) tws)
  | Throw (cs, tws) =>
      Throw (mkWorld cs (originalPositions w) (cubePositions w) (scene w) tws)
  end.

(** The columns of the grid, in the order the construction meets them. *)
Definition gridKeys : list Key :=
  List.map fst (cubePositions (buildGrid (fun _ => 0))).

End Cube.

(** ** Variant A: reveal in place, with reset *)

Module VariantA.
Import Js Cube.

(** The module-level state and the tweens in flight, oldest first. *)
Record State := mkState {
  world : World;
  running : list Engine.Run
}.

Definition init : State := mkState (startup (fun _ => 0.1)) [].

(** [cubePositions.get(positionKey(x, y))]: [None] is [undefined]. *)
Definition currentHeight (s : State) (k : Key) : option float :=
  Map_get sameKey (cubePositions (world s)) k.

(** The clicked cube with its texture applied and its flag set. *)
Definition reveal (cube : Mesh.t) : Mesh.t :=
  Mesh.set_textured true
    (Mesh.set_material
       (Material.set_needsUpdate true
          (Material.set_opacity 1
             (Material.set_map (Some cube_texture) (Mesh.material cube)))) cube).

(** [onCubeClick]; [hit] is [intersects[0].object] when the ray cast
    over [cubes] is not empty. *)
Definition onCubeClick (s : State) (hit : option nat) : State :=
  match hit with
  | None => s
  | Some i =>
      match cubes (world s) !! i with
      | None => s
      | Some cube =>
          if Mesh.textured cube then s
          else
            let w := world s in
            let clickedX := Vector3.x (Mesh.position cube) in
            let clickedY := Vector3.y (Mesh.position cube) in
            let currentZ := currentHeight s (positionKey clickedX clickedY) in
            let constrainedZPosition := constrain (newZPosition (toNumber currentZ)) in
            let '(cube', run) :=
              Engine.launch (dropTween i constrainedZPosition) (reveal cube) in
            mkState
              (mkWorld (<[i := cube']> (cubes w))
                       (originalPositions w)
                       (Map_set sameKey (cubePositions w) (positionKey clickedX clickedY)
                                (toNumber currentZ + 1))
                       (scene w)
                       (tweens w ++ [dropTween i constrainedZPosition]))
              (running s ++ [run])
      end
  end.

(** The secondary button: [undoAllCubes], whose tweens join those in
    flight. *)
Definition onUndo (s : State) : State :=
  let w' := stateOf (undoAllCubes (world s)) in
  mkState w'
          (running s
           ++ List.map Engine.schedule (drop (length (tweens (world s))) (tweens w'))).

(** The [mousedown] listener: [button] is [event.button]. *)
Definition mousedown (s : State) (button : nat) (hit : option nat) : State :=
  match button with
  | 0 => onCubeClick s hit
  | 2 => onUndo s
  | _ => s
  end.

(** A frame of the engine, [dt] milliseconds after the previous one. *)
Definition onFrame (s : State) (dt : N) (ratio : nat -> float) : State :=
  let '(cs, runs) := Engine.frameLoop dt ratio 0 (running s) (cubes (world s)) in
  mkState (withCubes cs (world s)) runs.

Inductive Event :=
| MouseDown (button : nat) (hit : option nat)
| Frame (dt : N) (ratio : nat -> float).

Definition step (s : State) (e : Event) : State :=
  match e with
  | MouseDown button hit => mousedown s button hit
  | Frame dt ratio => onFrame s dt ratio
  end.

Definition run (s : State) (es : list Event) : State := fold_left step es s.

Inductive reachable : State -> Prop :=
| reach_init : reachable init
| reach_step s e : reachable s -> reachable (step s e).

End VariantA.

(** ** Variant B: spawn and stack, with column highlight *)

Module VariantB.
Import Js Cube.

Record State := mkState {
  world : World;
  highlightedCubes : list nat;
  console : list string
}.

Definition opacityAt (z : float) : float := if z =? 0 then 0.8 else 0.01.

Definition init : State := mkState (startup opacityAt) [] [].

Definition maxStackHeight : float := gridSize.

Definition stackFullNotice : string :=
  "Stack is full, cannot place any more cubes here.".

(** [cubePositions.get(positionKey(x, y)) || 0]. *)
Definition currentHeight (w : World) (k : Key) : float :=
  orZero (Map_get sameKey (cubePositions w) k).

(** The cube created by a placement on [clicked], before its drop. *)
Definition spawnedCube (clicked : Mesh.t) : Mesh.t :=
  let material :=
    Material.set_emissive 0%N
      (Material.set_needsUpdate true
         (Material.set_opacity 1
            (Material.set_map (Some cube_texture) (Mesh.material clicked)))) in
  Mesh.mk (Mesh.geometry clicked) material
          (Vector3.mk (Vector3.x (Mesh.position clicked))
                      (Vector3.y (Mesh.position clicked))
                      (Vector3.z (Mesh.position clicked)))
          false false true.

Definition onCubeClick (s : State) (hit : option nat) : State :=
  match hit with
  | None => s
  | Some i =>
      match cubes (world s) !! i with
      | None => s
      | Some clicked =>
          let w := world s in
          let clickedX := Vector3.x (Mesh.position clicked) in
          let clickedY := Vector3.y (Mesh.position clicked) in
          let currentZ := currentHeight w (positionKey clickedX clickedY) in
          if currentZ <? maxStackHeight then
            let id := length (cubes w) in
            let constrainedZPosition := constrain (newZPosition (currentZ + 1)) in
            mkState
              (mkWorld (cubes w ++ [Tween.settle (dropTween id constrainedZPosition)
                                                    (spawnedCube clicked)])
                       (originalPositions w)
                       (Map_set sameKey (cubePositions w)
                                (positionKey clickedX clickedY) (currentZ + 1))
                       (scene w ++ [CubeChild id])
                       (tweens w ++ [dropTween id constrainedZPosition]))
              (highlightedCubes s)
              (console s)
          else
            mkState w (highlightedCubes s) (console s ++ [stackFullNotice])
      end
  end.

(** 0xff0000, the highlight colour. *)
Definition highlightHex : N := 16711680%N.

Definition setEmissive (hex : N) (c : Mesh.t) : Mesh.t :=
  Mesh.set_material (Material.set_emissive hex (Mesh.material c)) c.

(** [highlightedCubes.forEach(cube => cube.material.emissive.setHex(0))]. *)
Definition clearHighlight (hs : list nat) (cs : list Mesh.t) : list Mesh.t :=
  fold_left (fun acc i => alter (setEmissive 0%N) i acc) hs cs.

Definition inColumn (targetX targetY : float) (cube : Mesh.t) : bool :=
  (Math_abs (Vector3.x (Mesh.position cube) - targetX) <? 0.001)
  && (Math_abs (Vector3.y (Mesh.position cube) - targetY) <? 0.001).

(** [cubes.forEach] of [onMouseMove]: [i] is the index of the first cube
    of [rest]; returns the cubes after tinting and the indices pushed. *)
Fixpoint highlightLoop (targetX targetY : float) (i : nat) (rest : list Mesh.t)
    : list Mesh.t * list nat :=
  match rest with
  | [] => ([], [])
  | cube :: rest' =>
      let '(cs, hs) := highlightLoop targetX targetY (S i) rest' in
      if inColumn targetX targetY cube
      then (setEmissive highlightHex cube :: cs, i :: hs)
      else (cube :: cs, hs)
  end.

Definition setCubes (cs : list Mesh.t) (w : World) : World :=
  mkWorld cs (originalPositions w) (cubePositions w) (scene w) (tweens w).

Definition onMouseMove (s : State) (hit : option nat) : State :=
  let w := world s in
  (* the hit object is taken before any tint changes; tints do not move cubes *)
  let cleared :=
    match highlightedCubes s with
    | [] => cubes w
    | _ :: _ => clearHighlight (highlightedCubes s) (cubes w)
    end in
  match hit with
  | None => mkState (setCubes cleared w) [] (console s)
  | Some i =>
      match cleared !! i with
      | None => mkState (setCubes cleared w) [] (console s)
      | Some intersectedCube =>
          let targetX := Vector3.x (Mesh.position intersectedCube) in
          let targetY := Vector3.y (Mesh.position intersectedCube) in
          let '(cs, hs) := highlightLoop targetX targetY 0 cleared in
          mkState (setCubes cs w) hs (console s)
      end
  end.

Definition mousedown (s : State) (button : nat) (hit : option nat) : State :=
  match button with
  | 0 => onCubeClick s hit
  | 2 => s
  | _ => s
  end.

Inductive Event :=
| MouseDown (button : nat) (hit : option nat)
| MouseMove (hit : option nat).

Definition step (s : State) (e : Event) : State :=
  match e with
  | MouseDown button hit => mousedown s button hit
  | MouseMove hit => onMouseMove s hit
  end.

Definition run (s : State) (es : list Event) : State := fold_left step es s.

Inductive reachable : State -> Prop :=
| reach_init : reachable init
| reach_step s e : reachable s -> reachable (step s e).

End VariantB.

(** ** Measures and invariants used in the proofs *)

Module Inv.
Import Js Cube.
#[local] Open Scope float_scope.

(** Reading a stored height back as a count. *)
Definition heightNat (v : float) : nat :=
  length (List.filter (fun j => natToFloat j <=? v) (seq 1 gridCount)).

Definition sumHeights (m : list (Key * float)) : nat :=
  list_sum (List.map (fun e => heightNat (snd e)) m).

(** [same] is equality on the keys of [ks], which are pairwise distinct. *)
Fixpoint keysOk (ks : list Key) : bool :=
  match ks with
  | [] => true
  | k :: r =>
      sameKey k k
      && forallb (fun k' => negb (sameKey k k') && negb (sameKey k' k)) r
      && keysOk r
  end.

(** Number of textured cubes of column [k]. *)
Definition texturedIn (k : Key) (cs : list Mesh.t) : nat :=
  length (List.filter (fun c => Mesh.textured c && sameKey (keyOf c) k) cs).

(** Number of cubes of column [k], from the list of the cubes' keys. *)
Definition cubesIn (k : Key) (keys : list Key) : nat :=
  length (List.filter (fun kc => sameKey kc k) keys).

(** Coordinate of grid index [i] along any axis. *)
Definition coord (i : nat) : float :=
  (natToFloat i - gridSize / 2) * (cubeSize + spacing).

(** What the grid construction leaves, whatever the initial opacity. *)
Definition gridBuilt (w : World) : Prop :=
  List.map keyOf (cubes w) = flat_map (fun g => repeat g gridCount) gridKeys
  /\ List.map fst (cubePositions w) = gridKeys
  /\ List.map (Map_get sameKey (cubePositions w)) gridKeys
     = repeat (Some 0) (length gridKeys)
  /\ List.map snd (cubePositions w) = repeat 0 (length gridKeys)
  /\ forallb (fun c => negb (Mesh.textured c)) (cubes w) = true
  /\ length (cubes w) = (gridCount * gridCount * gridCount)%nat
  /\ tweens w = [].

(** Every cube is registered in the original-position table with the
    position it was created at. *)
Definition registered (w : World) : Prop :=
  forall i c, cubes w !! i = Some c ->
    Map_get Nat.eqb (originalPositions w) i = Some (Mesh.position c).

(** Every cube sits in a column of the grid and every column has its
    counter. *)
Definition columnsOk (w : World) : Prop :=
  List.map keyOf (cubes w) = flat_map (fun g => repeat g gridCount) gridKeys
  /\ List.map fst (cubePositions w) = gridKeys.

(** Variant A, as long as no reset has been performed: a column's counter
    is the number of its textured cubes, every cube is registered with a
    spawn coordinate of its column, and the tweens in flight are drops. *)
Record InvA (s : VariantA.State) : Prop := mkInvA {
  invA_columns : columnsOk (VariantA.world s);
  invA_counts : forall k, In k gridKeys ->
    Map_get sameKey (cubePositions (VariantA.world s)) k
    = Some (natToFloat (texturedIn k (cubes (VariantA.world s))));
  invA_originals : forall i c, cubes (VariantA.world s) !! i = Some c ->
    exists o, Map_get Nat.eqb (originalPositions (VariantA.world s)) i = Some o
              /\ positionKey (Vector3.x o) (Vector3.y o) = keyOf c;
  invA_table :
    originalPositions (VariantA.world s) = originalPositions (VariantA.world VariantA.init);
  invA_drops :
    Forall (fun r => Tween.to_x (Engine.tween r) = None
                     /\ Tween.to_y (Engine.tween r) = None) (VariantA.running s)
}.

(** The events that run [undoAllCubes]. *)
Definition pressesUndo (e : VariantA.Event) : bool :=
  match e with
  | VariantA.MouseDown 2 _ => true
  | _ => false
  end.

(** [c'] is [c] at another position, with the same x and y when [keep]
    is set. *)
Definition movedFrom (keep : bool) (c c' : Mesh.t) : Prop :=
  c' = Mesh.set_position (Mesh.position c') c
  /\ (keep = true ->
      Vector3.x (Mesh.position c') = Vector3.x (Mesh.position c)
      /\ Vector3.y (Mesh.position c') = Vector3.y (Mesh.position c)).

(** The keys of a map, each met once: a later key is none of the
    earlier ones. *)
Fixpoint keysDistinct (ks : list Key) : Prop :=
  match ks with
  | [] => True
  | k :: r => Forall (fun k' => sameKey k k' = false) r /\ keysDistinct r
  end.

(** Variant A, in every reachable state: the cubes are those of startup,
    registered as at startup; the counter map holds each key once and
    still holds the columns of the grid. *)
Record InvAll (s : VariantA.State) : Prop := mkInvAll {
  all_length : length (cubes (VariantA.world s)) = length (cubes (VariantA.world VariantA.init));
  all_table :
    originalPositions (VariantA.world s) = originalPositions (VariantA.world VariantA.init);
  all_scene : scene (VariantA.world s) = scene (VariantA.world VariantA.init);
  all_distinct : keysDistinct (List.map fst (cubePositions (VariantA.world s)));
  all_columns : forall k, In k gridKeys ->
    Map_has sameKey (cubePositions (VariantA.world s)) k = true
}.









(** Variant B: the counters count the spawned cubes. *)
Record InvB (s : VariantB.State) : Prop := mkInvB {
  invB_cube_keys : Forall (fun c => In (keyOf c) gridKeys) (cubes (VariantB.world s));
  invB_keys : List.map fst (cubePositions (VariantB.world s)) = gridKeys;
  invB_heights :
    Forall (fun e => exists n, (n <= gridCount)%nat /\ snd e = natToFloat n)
           (cubePositions (VariantB.world s));
  invB_count :
    length (cubes (VariantB.world s))
    = (gridCount * gridCount * gridCount + sumHeights (cubePositions (VariantB.world s)))%nat
}.



End Inv.

(** ** Further measures, for the properties beyond the claims *)

Module Cover.
Import Js Cube Inv.
#[local] Open Scope float_scope.

(** Number of cubes the grid construction creates. *)
Definition gridCubes : nat := gridCount * gridCount * gridCount.

(** Where the construction puts the cube of grid indices [a], [b], [c]. *)
Definition gridPosition (a b c : nat) : Vector3.t :=
  Vector3.mk (coord a) (coord b) (coord c).

(** The indices of the cubes among the children of the scene, in order. *)
Fixpoint cubeChildren (sc : list SceneChild) : list nat :=
  match sc with
  | [] => []
  | CubeChild i :: r => i :: cubeChildren r
  | _ :: r => cubeChildren r
  end.

(** The children of the scene that are not cubes, in order. *)
Fixpoint otherChildren (sc : list SceneChild) : list SceneChild :=
  match sc with
  | [] => []
  | CubeChild _ :: r => otherChildren r
  | o :: r => o :: otherChildren r
  end.

(** Variant A: the [textured] flag of a cube and its material agree. *)
Definition flagAgrees (c : Mesh.t) : Prop :=
  if Mesh.textured c
  then Material.map (Mesh.material c) = Some cube_texture
       /\ Material.opacity (Mesh.material c) = 1
  else Material.map (Mesh.material c) = None
       /\ Material.opacity (Mesh.material c) = 0.1.

(** What neither a handler of variant A nor a tween ever writes:
    everything but the position, the texture map, the opacity,
    [needsUpdate] and the flag. *)
Definition sameShell (c0 c : Mesh.t) : Prop :=
  Mesh.geometry c = Mesh.geometry c0
  /\ Material.color (Mesh.material c) = Material.color (Mesh.material c0)
  /\ Material.transparent (Mesh.material c) = Material.transparent (Mesh.material c0)
  /\ Material.emissive (Mesh.material c) = Material.emissive (Mesh.material c0)
  /\ Mesh.castShadow c = Mesh.castShadow c0
  /\ Mesh.receiveShadow c = Mesh.receiveShadow c0.

(** The cubes that have a tween in flight, in the order of the tweens. *)
Definition targets (runs : list Engine.Run) : list nat :=
  List.map (fun r => Tween.target (Engine.tween r)) runs.

(** Where a drop from the top of the grid to stack level [m] ends. *)
Definition dropRest (m : nat) : float :=
  Tween.write topOfGrid (constrain (newZPosition (natToFloat m))) 1.

(** A drop in flight: a tween on z alone, from the top of the grid to one
    of the [gridSize] stack levels, that has rendered already. *)
Definition dropRun (r : Engine.Run) : Prop :=
  exists m st,
    (m < gridCount)%nat
    /\ Engine.tween r
       = dropTween (Tween.target (Engine.tween r))
                   (constrain (newZPosition (natToFloat m)))
    /\ Engine.start r = Some st
    /\ Vector3.z st = topOfGrid.

(** Variant A, as long as no reset has been performed: no cube has two
    tweens in flight, every tween in flight is a drop, and every cube has
    the x and y of startup; a cube that is not textured is where it was
    created and has no tween; a textured cube has its drop in flight or
    rests where a drop ends. *)
Definition restOk (s : VariantA.State) : Prop :=
  NoDup (targets (VariantA.running s))
  /\ Forall dropRun (VariantA.running s)
  /\ forall i c c0,
       cubes (VariantA.world s) !! i = Some c ->
       cubes (VariantA.world VariantA.init) !! i = Some c0 ->
       Vector3.x (Mesh.position c) = Vector3.x (Mesh.position c0)
       /\ Vector3.y (Mesh.position c) = Vector3.y (Mesh.position c0)
       /\ (Mesh.textured c = false ->
           Mesh.position c = Mesh.position c0
           /\ ~ In i (targets (VariantA.running s)))
       /\ (Mesh.textured c = true ->
           In i (targets (VariantA.running s))
           \/ exists m, (m < gridCount)%nat
                        /\ Vector3.z (Mesh.position c) = dropRest m).

(** Variant B: a cube is tinted exactly when it is in the highlighted
    set, and the highlighted set holds tracked cubes only. *)
Definition tintsOk (s : VariantB.State) : Prop :=
  (forall j c, cubes (VariantB.world s) !! j = Some c ->
     (In j (VariantB.highlightedCubes s) ->
        Material.emissive (Mesh.material c) = VariantB.highlightHex)
     /\ (~ In j (VariantB.highlightedCubes s) ->
         Material.emissive (Mesh.material c) = 0%N))
  /\ (forall j, In j (VariantB.highlightedCubes s) ->
        (j < length (cubes (VariantB.world s)))%nat).

(** Variant B: the counter of every column counts the cubes spawned in
    it, on top of the gridSize cubes the column starts with. *)
Definition columnCount (s : VariantB.State) : Prop :=
  forall k, In k gridKeys ->
    exists n, (n <= gridCount)%nat
      /\ Map_get sameKey (cubePositions (VariantB.world s)) k = Some (natToFloat n)
      /\ cubesIn k (List.map keyOf (cubes (VariantB.world s))) = (gridCount + n)%nat.

(** Variant B: what every spawned cube looks like. *)
Definition spawnedOk (c : Mesh.t) : Prop :=
  Mesh.textured c = true
  /\ Material.map (Mesh.material c) = Some cube_texture
  /\ Material.opacity (Mesh.material c) = 1
  /\ Mesh.castShadow c = false /\ Mesh.receiveShadow c = false
  /\ (boundaryMin + (cubeSize + spacing) <=? Vector3.z (Mesh.position c)) = true
  /\ (Vector3.z (Mesh.position c) <=? boundaryMax) = true.

End Cover.

(** * Facts *)

#[local] Close Scope float_scope.

(** ** Maps as insertion-ordered association lists *)

Section MapFacts.
Import Js.
Context {K V : Type} (same : K -> K -> bool).
Implicit Types (m : list (K * V)) (k : K) (v : V).

Lemma Map_set_keys m k v :
  Map_has same m k = true ->
  List.map fst (Map_set same m k v) = List.map fst m.
Proof.
  unfold Map_has. induction m as [|[k' v'] m IH]; simpl; [discriminate|].
  destruct (same k' k); simpl; [reflexivity|].
  intros H. f_equal. apply IH, H.
Qed.

Lemma Map_get_set_found m k v :
  Map_has same m k = true -> Map_get same (Map_set same m k v) k = Some v.
Proof.
  unfold Map_has. induction m as [|[k' v'] m IH]; simpl; [discriminate|].
  destruct (same k' k) eqn:E; simpl; rewrite E; [reflexivity|exact IH].
Qed.

Lemma Map_get_In m k v : Map_get same m k = Some v -> exists k', In (k', v) m.
Proof.
  induction m as [|[k0 v0] m IH]; simpl; [discriminate|].
  destruct (same k0 k).
  - intros [= ->]. exists k0. now left.
  - intros H. destruct (IH H) as [k' Hk']. exists k'. now right.
Qed.

Lemma Map_set_Forall (Q : V -> Prop) m k v :
  Forall (fun e => Q (snd e)) m -> Q v ->
  Forall (fun e => Q (snd e)) (Map_set same m k v).
Proof.
  intros Hm Hv. induction Hm as [|[k0 v0] m H0 Hm IH]; simpl.
  - repeat constructor. exact Hv.
  - destruct (same k0 k); constructor; auto.
Qed.

(** Overwriting an entry moves the sum of any measure of the values by
    the difference between the new and the old value. *)
Lemma Map_set_sum (f : V -> nat) m k v v0 :
  Map_get same m k = Some v0 ->
  list_sum (List.map (fun e => f (snd e)) (Map_set same m k v)) + f v0
  = list_sum (List.map (fun e => f (snd e)) m) + f v.
Proof.
  induction m as [|[k0 v1] m IH]; simpl; [discriminate|].
  destruct (same k0 k); simpl.
  - intros [= ->]. lia.
  - intros H. specialize (IH H). lia.
Qed.

Lemma Map_has_set_mono m k k' v :
  Map_has same m k = true -> Map_has same (Map_set same m k' v) k = true.
Proof.
  unfold Map_has. induction m as [|[k0 v0] m IH]; simpl; [discriminate|].
  destruct (same k0 k') eqn:E'; simpl; destruct (same k0 k); auto.
Qed.

Lemma Map_has_false m k :
  Map_has same m k = false -> Forall (fun k0 => same k0 k = false) (List.map fst m).
Proof.
  unfold Map_has. induction m as [|[k0 v0] m IH]; simpl; [constructor|].
  destruct (same k0 k) eqn:E; [discriminate|]. intros H. constructor; auto.
Qed.

Lemma Map_set_new m k v :
  Map_has same m k = false -> Map_set same m k v = m ++ [(k, v)].
Proof.
  unfold Map_has. induction m as [|[k0 v0] m IH]; simpl; [reflexivity|].
  destruct (same k0 k); [discriminate|]. intros H. now rewrite IH.
Qed.

Lemma Map_get_fmap (f : V -> V) m k :
  Map_get same (List.map (fun e => (fst e, f (snd e))) m) k
  = option_map f (Map_get same m k).
Proof.
  induction m as [|[k0 v0] m IH]; simpl; [reflexivity|].
  destruct (same k0 k); [reflexivity|exact IH].
Qed.

(** On a set [P] of keys where [same] is equality, the map behaves as a
    finite map. *)
Section Distinct.
Variable P : K -> Prop.
Hypothesis same_P : forall a b, P a -> P b -> (same a b = true <-> a = b).

Lemma Map_has_keys m k :
  P k -> In k (List.map fst m) -> Map_has same m k = true.
Proof.
  intros Pk. unfold Map_has.
  induction m as [|[k0 v0] m IH]; simpl; [tauto|].
  intros [-> | Hin].
  - rewrite (proj2 (same_P k k Pk Pk) eq_refl). reflexivity.
  - destruct (same k0 k); [reflexivity|auto].
Qed.

Lemma Map_get_set_same m k v :
  P k -> Map_get same (Map_set same m k v) k = Some v.
Proof.
  intros Pk. pose proof (proj2 (same_P k k Pk Pk) eq_refl) as Hkk.
  induction m as [|[k0 v0] m IH]; simpl.
  - now rewrite Hkk.
  - destruct (same k0 k) eqn:E; simpl; rewrite E; [reflexivity|exact IH].
Qed.

Lemma Map_get_set_other m k v k2 :
  Forall P (List.map fst m) -> P k -> P k2 -> k <> k2 ->
  Map_get same (Map_set same m k v) k2 = Map_get same m k2.
Proof.
  intros Hm Pk Pk2 Hne.
  assert (Hkk2 : same k k2 = false).
  { destruct (same k k2) eqn:E; [|reflexivity].
    exfalso. apply Hne. now apply same_P. }
  induction m as [|[k0 v0] m IH]; simpl in *.
  - now rewrite Hkk2.
  - inversion Hm as [|? ? P0 Hm']; subst.
    destruct (same k0 k) eqn:E; simpl.
    + apply same_P in E; [subst k0|assumption..]. now rewrite Hkk2.
    + destruct (same k0 k2); [reflexivity|auto].
Qed.
End Distinct.
End MapFacts.

(** ** Numbers: the stack heights 0..10 *)

Section Heights.
Import Js Cube Inv.
#[local] Open Scope float_scope.

Ltac upto_ten n :=
  do 11 (destruct n as [|n]; [vm_compute; auto; try lia|]); try lia.

Lemma gridCount_loop :
  forallb (fun i => i <? gridSize) (List.map natToFloat (seq 0 gridCount)) = true
  /\ (natToFloat gridCount <? gridSize) = false.
Proof. split; vm_compute; reflexivity. Qed.

Lemma natToFloat_nonneg n :
  (n <= gridCount)%nat -> (0 <=? natToFloat n) = true.
Proof. unfold gridCount. intros H. upto_ten n. Qed.

Lemma natToFloat_lt_gridSize n :
  (n <= gridCount)%nat -> (natToFloat n <? gridSize) = true -> (n < gridCount)%nat.
Proof.
  unfold gridCount. intros H.
  do 10 (destruct n as [|n]; [lia|]).
  destruct n; [vm_compute; discriminate|lia].
Qed.

Lemma orZero_natToFloat n :
  (n <= gridCount)%nat -> orZero (Some (natToFloat n)) = natToFloat n.
Proof. unfold gridCount. intros H. upto_ten n. Qed.

Lemma heightNat_natToFloat n :
  (n <= gridCount)%nat -> heightNat (natToFloat n) = n.
Proof. unfold gridCount. intros H. upto_ten n. Qed.

Lemma drop_level_above_base n :
  (n <= gridCount)%nat ->
  (boundaryMin + (cubeSize + spacing) <=? constrain (newZPosition (natToFloat n + 1))) = true.
Proof. unfold gridCount. intros H. upto_ten n. Qed.
(** Where the drop of a placement at height [n] ends. *)
Lemma drop_rest_bounds n :
  (n < gridCount)%nat ->
  let z := Tween.write topOfGrid (constrain (newZPosition (natToFloat n + 1))) 1 in
  (boundaryMin + (cubeSize + spacing) <=? z) = true
  /\ (boundaryMin <? z) = true
  /\ (z <=? boundaryMax) = true
  /\ z = Tween.round6 (constrain (newZPosition (natToFloat n + 1))).
Proof.
  unfold gridCount. intros H.
  do 10 (destruct n as [|n]; [vm_compute; repeat split|]). lia.
Qed.
End Heights.

(** ** The grid *)

Section GridFacts.
Import Js Cube Inv.

Lemma keysOk_spec ks :
  keysOk ks = true ->
  forall a b, In a ks -> In b ks -> (sameKey a b = true <-> a = b).
Proof.
  induction ks as [|k r IH]; simpl; [tauto|].
  rewrite !andb_true_iff, forallb_forall.
  intros [[Hkk Hr] Hok] a b [<- | Ha] [<- | Hb].
  - tauto.
  - specialize (Hr b Hb). apply andb_true_iff in Hr as [H1 _].
    apply negb_true_iff in H1. split; [congruence|].
    intros ->. congruence.
  - specialize (Hr a Ha). apply andb_true_iff in Hr as [_ H2].
    apply negb_true_iff in H2. split; [congruence|].
    intros ->. congruence.
  - now apply IH.
Qed.

Lemma gridKeys_ok : keysOk gridKeys = true.
Proof. vm_compute. reflexivity. Qed.

Lemma sameKey_grid a b :
  In a gridKeys -> In b gridKeys -> (sameKey a b = true <-> a = b).
Proof. apply keysOk_spec, gridKeys_ok. Qed.

(** The columns are the pairs of grid coordinates. *)
Lemma gridKeys_columns :
  gridKeys
  = flat_map (fun a => List.map (fun b => positionKey (coord a) (coord b))
                                (seq 0 gridCount))
             (seq 0 gridCount).
Proof. vm_compute. reflexivity. Qed.

Lemma gridKeys_length : length gridKeys = (gridCount * gridCount)%nat.
Proof. vm_compute. reflexivity. Qed.

Lemma initA_built : gridBuilt (VariantA.world VariantA.init).
Proof. vm_compute. repeat split. Qed.

Lemma initB_built : gridBuilt (VariantB.world VariantB.init).
Proof. vm_compute. repeat split. Qed.

(** The construction registers every cube it creates. *)
Lemma forRange_inv {S : Type} (P : S -> Prop) n (body : float -> S -> S) (s : S) :
  (forall i s, P s -> P (body i s)) -> P s -> P (forRange n body s).
Proof.
  intros Hbody. unfold forRange. generalize (List.map natToFloat (seq 0 n)).
  intros l. revert s. induction l as [|i l IH]; intros s Hs; [exact Hs|].
  cbn [fold_left]. apply IH, Hbody, Hs.
Qed.

Lemma createCube_registered opacityAt x y z (w : World) :
  registered w -> registered (createCube opacityAt x y z w).
Proof.
  intros Hw i c. unfold createCube. cbn [cubes originalPositions].
  destruct (decide (i < length (cubes w))%nat) as [Hlt|Hge].
  - rewrite lookup_app_l by exact Hlt. intros Hc.
    rewrite (Map_get_set_other Nat.eqb (fun _ => True)); auto.
    + intros a b _ _. apply Nat.eqb_eq.
    + apply List.Forall_forall. auto.
    + lia.
  - intros Hc. pose proof (lookup_lt_Some _ _ _ Hc) as Hlt.
    rewrite length_app in Hlt. cbn in Hlt.
    assert (i = length (cubes w)) as -> by lia.
    rewrite list_lookup_middle in Hc by reflexivity. injection Hc as <-.
    apply (Map_get_set_same Nat.eqb (fun _ => True)); auto.
    intros a b _ _. apply Nat.eqb_eq.
Qed.

Lemma buildGrid_registered opacityAt : registered (buildGrid opacityAt).
Proof.
  unfold buildGrid.
  apply (forRange_inv registered); [|intros i c [=]].
  intros x w Hw. apply (forRange_inv registered); [|exact Hw].
  intros y w' Hw'. apply (forRange_inv registered); [|exact Hw'].
  intros z w'' Hw''. exact (createCube_registered opacityAt x y z w'' Hw'').
Qed.

Lemma lights_registered (w : World) :
  registered w ->
  registered (mkWorld (cubes w) (originalPositions w) (cubePositions w)
                      (scene w ++ [DirectionalLight; AmbientLight]) (tweens w)).
Proof. intros H i c Hc. exact (H i c Hc). Qed.

Lemma initA_registered : registered (VariantA.world VariantA.init).
Proof.
  exact (lights_registered (buildGrid (fun _ => 0.1%float))
           (buildGrid_registered (fun _ => 0.1%float))).
Qed.

Lemma grid_column_check :
  forallb (fun k => Nat.eqb
             (cubesIn k (flat_map (fun g => repeat g gridCount) gridKeys)) gridCount)
          gridKeys = true.
Proof. vm_compute. reflexivity. Qed.

Lemma grid_column_size k :
  In k gridKeys ->
  cubesIn k (flat_map (fun g => repeat g gridCount) gridKeys) = gridCount.
Proof.
  intros Hk. apply Nat.eqb_eq.
  exact (proj1 (forallb_forall _ gridKeys) grid_column_check k Hk).
Qed.
End GridFacts.

(** The grid is only ever computed as a whole, never unfolded piecewise. *)
#[global] Opaque Cube.gridKeys Cube.buildGrid VariantA.init VariantB.init.

(** ** Lists of cubes *)

Section CubeLists.
Import Js Cube Inv.

Lemma map_fmap {A B} (f : A -> B) (l : list A) : List.map f l = f <$> l.
Proof. induction l as [|a l IH]; [reflexivity|]. cbn. now f_equal. Qed.

Lemma map_insert_same {A B} (f : A -> B) (l : list A) i x y :
  l !! i = Some x -> f y = f x -> List.map f (<[i:=y]> l) = List.map f l.
Proof.
  intros Hl Hf.
  rewrite (map_fmap f (<[i:=y]> l)), (map_fmap f l), list_fmap_insert, Hf.
  apply list_insert_id. now rewrite list_lookup_fmap, Hl.
Qed.

Lemma lookup_In {A} (l : list A) i x : l !! i = Some x -> In x l.
Proof. intros H. apply list_elem_of_In, list_elem_of_lookup. eauto. Qed.

Lemma columns_cube_keys (w : World) :
  columnsOk w -> Forall (fun c => In (keyOf c) gridKeys) (cubes w).
Proof.
  intros [Hk _]. apply List.Forall_forall. intros c Hc.
  apply (in_map keyOf) in Hc. rewrite Hk in Hc.
  destruct (proj1 (in_flat_map _ _ _) Hc) as (g & Hg & Hr).
  apply repeat_spec in Hr. now subst.
Qed.

Lemma column_of_cube (w : World) i c :
  columnsOk w -> cubes w !! i = Some c -> In (keyOf c) gridKeys.
Proof.
  intros Hcols Hc. pose proof (columns_cube_keys w Hcols) as H.
  rewrite List.Forall_forall in H. eapply H, lookup_In, Hc.
Qed.

Lemma texturedIn_insert k (cs : list Mesh.t) i c c' :
  cs !! i = Some c -> Mesh.textured c = false -> Mesh.textured c' = true ->
  keyOf c' = keyOf c ->
  texturedIn k (<[i:=c']> cs)
  = ((if sameKey (keyOf c) k then 1 else 0) + texturedIn k cs)%nat.
Proof.
  unfold texturedIn. intros Hc Hf Ht Hk. revert i Hc.
  induction cs as [|c0 cs IH]; intros [|i] Hc; try discriminate.
  - injection Hc as ->.
    change (<[0%nat:=c']> (c :: cs)) with (c' :: cs).
    cbn [List.filter]. rewrite Hf, Ht, Hk. simpl.
    destruct (sameKey (keyOf c) k); reflexivity.
  - specialize (IH i Hc).
    change (<[S i:=c']> (c0 :: cs)) with (c0 :: <[i:=c']> cs).
    cbn [List.filter].
    destruct (Mesh.textured c0 && sameKey (keyOf c0) k); cbn [length];
      rewrite IH; destruct (sameKey (keyOf c) k); lia.
Qed.

Lemma texturedIn_le k (cs : list Mesh.t) :
  (texturedIn k cs <= cubesIn k (List.map keyOf cs))%nat.
Proof.
  unfold texturedIn, cubesIn. induction cs as [|c cs IH]; simpl; [lia|].
  destruct (Mesh.textured c), (sameKey (keyOf c) k); simpl; lia.
Qed.

Lemma texturedIn_none k (cs : list Mesh.t) :
  Forall (fun c => Mesh.textured c = false) cs -> texturedIn k cs = 0%nat.
Proof.
  unfold texturedIn. induction 1 as [|c cs Hc _ IH]; simpl; [reflexivity|].
  now rewrite Hc.
Qed.

Lemma texturedIn_bound (w : World) k :
  columnsOk w -> In k gridKeys -> (texturedIn k (cubes w) <= gridCount)%nat.
Proof.
  intros [Hk _] Hin. etransitivity; [apply texturedIn_le|].
  rewrite Hk. now rewrite grid_column_size.
Qed.

Lemma built_lookup_height (w : World) k :
  gridBuilt w -> In k gridKeys ->
  Map_get sameKey (cubePositions w) k = Some 0%float.
Proof.
  intros (_ & _ & Hh & _) Hin.
  apply (in_map (Map_get sameKey (cubePositions w))) in Hin.
  rewrite Hh in Hin. now apply repeat_spec in Hin.
Qed.

Lemma built_untextured (w : World) :
  gridBuilt w -> Forall (fun c => Mesh.textured c = false) (cubes w).
Proof.
  intros (_ & _ & _ & _ & Hu & _). apply List.Forall_forall. intros c Hc.
  rewrite forallb_forall in Hu. apply negb_true_iff, Hu, Hc.
Qed.

End CubeLists.

(** ** The engine's frames only move cubes *)

Section EngineFacts.
Import Js Cube Inv.

Lemma movedFrom_refl keep (c : Mesh.t) : movedFrom keep c c.
Proof. split; [now destruct c|auto]. Qed.

Lemma movedFrom_trans keep (c c' c'' : Mesh.t) :
  movedFrom keep c c' -> movedFrom keep c' c'' -> movedFrom keep c c''.
Proof.
  intros [H1 K1] [H2 K2]. split.
  - rewrite H2 at 1. rewrite H1. now destruct c.
  - intros Hk. destruct (K1 Hk), (K2 Hk). split; congruence.
Qed.

Lemma frameLoop_moved keep dt ratio (runs : list Engine.Run) : forall k cs,
  (keep = true ->
   Forall (fun r => Tween.to_x (Engine.tween r) = None
                    /\ Tween.to_y (Engine.tween r) = None) runs) ->
  length (fst (Engine.frameLoop dt ratio k runs cs)) = length cs
  /\ forall i c, cs !! i = Some c ->
       exists c', fst (Engine.frameLoop dt ratio k runs cs) !! i = Some c'
                  /\ movedFrom keep c c'.
Proof.
  induction runs as [|r runs IH]; intros k cs Hq.
  - split; [reflexivity|]. intros i c Hc. exists c. split; [exact Hc|].
    apply movedFrom_refl.
  - assert (Hq' : keep = true ->
              Forall (fun r => Tween.to_x (Engine.tween r) = None
                               /\ Tween.to_y (Engine.tween r) = None) runs).
    { intros Hk. specialize (Hq Hk). now inversion Hq. }
    assert (Hr : keep = true ->
              Tween.to_x (Engine.tween r) = None /\ Tween.to_y (Engine.tween r) = None).
    { intros Hk. specialize (Hq Hk). now inversion Hq. }
    cbn [Engine.frameLoop].
    destruct (cs !! Tween.target (Engine.tween r)) as [c0|] eqn:E0; [|now apply IH].
    assert (Hins : forall p,
              let cs1 := <[Tween.target (Engine.tween r) := Mesh.set_position p c0]> cs in
              (keep = true ->
                 Vector3.x p = Vector3.x (Mesh.position c0)
                 /\ Vector3.y p = Vector3.y (Mesh.position c0)) ->
              length cs1 = length cs
              /\ forall i c, cs !! i = Some c ->
                   exists c', cs1 !! i = Some c' /\ movedFrom keep c c').
    { intros p cs1 Hp. split; [apply length_insert|].
      intros i c Hc. unfold cs1.
      destruct (decide (i = Tween.target (Engine.tween r))) as [->|Hne].
      - rewrite list_lookup_insert_eq by (eapply lookup_lt_Some, E0).
        rewrite E0 in Hc. injection Hc as <-. eexists. split; [reflexivity|].
        split; [reflexivity|exact Hp].
      - rewrite list_lookup_insert_ne by congruence. exists c.
        split; [exact Hc|apply movedFrom_refl]. }
    assert (Hrender : forall st q, keep = true ->
              Vector3.x (Engine.render (Engine.tween r) st q (Mesh.position c0))
              = Vector3.x (Mesh.position c0)
              /\ Vector3.y (Engine.render (Engine.tween r) st q (Mesh.position c0))
                 = Vector3.y (Mesh.position c0)).
    { intros st q Hk. destruct (Hr Hk) as [Hx Hy]. unfold Engine.render.
      now rewrite Hx, Hy. }
    set (st := default _ (Engine.start r)).
    destruct (Tween.millis (Engine.tween r) <=? Engine.age r + dt)%N.
    + destruct (Hins _ (Hrender st 1%float)) as [L1 M1].
      match goal with
      | |- context [Engine.frameLoop dt ratio (S k) runs ?l] =>
          destruct (IH (S k) l Hq') as [L2 M2]
      end.
      split; [congruence|].
      intros i c Hc. destruct (M1 i c Hc) as (c1 & Hc1 & R1).
      destruct (M2 i c1 Hc1) as (c2 & Hc2 & R2). exists c2.
      split; [exact Hc2|]. eapply movedFrom_trans; eassumption.
    + destruct (Hins _ (Hrender st (ratio k))) as [L1 M1].
      match goal with
      | |- context [Engine.frameLoop dt ratio (S k) runs ?l] =>
          destruct (IH (S k) l Hq') as [L2 M2]
      end.
      destruct (Engine.frameLoop dt ratio (S k) runs _) as [cs' runs'].
      cbn [fst] in *. split; [congruence|].
      intros i c Hc. destruct (M1 i c Hc) as (c1 & Hc1 & R1).
      destruct (M2 i c1 Hc1) as (c2 & Hc2 & R2). exists c2.
      split; [exact Hc2|]. eapply movedFrom_trans; eassumption.
Qed.

(** The tweens in flight after a frame were in flight before it. *)
Lemma frameLoop_runs (Q : Tween.t -> Prop) dt ratio (runs : list Engine.Run) :
  forall k cs,
  Forall (fun r => Q (Engine.tween r)) runs ->
  Forall (fun r => Q (Engine.tween r)) (snd (Engine.frameLoop dt ratio k runs cs)).
Proof.
  induction runs as [|r runs IH]; intros k cs Hq; [constructor|].
  inversion Hq as [|? ? Hr Hq']; subst. cbn [Engine.frameLoop].
  destruct (cs !! Tween.target (Engine.tween r)) as [c0|]; [|now apply IH].
  destruct (Tween.millis (Engine.tween r) <=? Engine.age r + dt)%N; [now apply IH|].
  specialize (IH (S k)
    (<[Tween.target (Engine.tween r) :=
         Mesh.set_position
           (Engine.render (Engine.tween r)
              (default (Engine.startValues (Engine.tween r) (Mesh.position c0))
                       (Engine.start r))
              (ratio k) (Mesh.position c0)) c0]> cs) Hq').
  destruct (Engine.frameLoop dt ratio (S k) runs _) as [cs' runs'].
  cbn [snd] in *. constructor; [exact Hr|exact IH].
Qed.


Lemma movedFrom_keys (cs cs' : list Mesh.t) :
  length cs' = length cs ->
  (forall i c, cs !! i = Some c ->
     exists c', cs' !! i = Some c' /\ movedFrom true c c') ->
  List.map keyOf cs' = List.map keyOf cs
  /\ List.map Mesh.textured cs' = List.map Mesh.textured cs.
Proof.
  intros L M.
  assert (H : forall (A : Type) (f : Mesh.t -> A),
            (forall c c', movedFrom true c c' -> f c' = f c) ->
            List.map f cs' = List.map f cs).
  { intros A f Hf. rewrite (map_fmap f cs'), (map_fmap f cs).
    apply list_eq. intros i. rewrite !list_lookup_fmap.
    destruct (cs !! i) as [c|] eqn:Hc.
    - destruct (M i c Hc) as (c' & -> & R). cbn. f_equal. now apply Hf.
    - apply lookup_ge_None in Hc. rewrite (proj2 (lookup_ge_None cs' i)) by lia.
      reflexivity. }
  split; apply H.
  - intros c c' [_ K]. destruct (K eq_refl) as [Hx Hy]. unfold keyOf. now rewrite Hx, Hy.
  - intros c c' [E _]. rewrite E. reflexivity.
Qed.

End EngineFacts.

(** ** The counter map *)

Section CounterFacts.
Import Js Cube Inv.

Lemma sameKey_refl (k : Key) : sameKey k k = true.
Proof.
  assert (H : forall a, sameNumberString a a = true).
  { intros a. unfold sameNumberString, is_nan. now destruct (a =? a)%float. }
  unfold sameKey. now rewrite !H.
Qed.

Lemma keysDistinct_snoc (ks : list Key) k :
  keysDistinct ks -> Forall (fun k0 => sameKey k0 k = false) ks ->
  keysDistinct (ks ++ [k]).
Proof.
  induction ks as [|k0 ks IH]; cbn [keysDistinct app].
  - intros _ _. split; [constructor|exact I].
  - intros [H0 Hks] Hk. inversion Hk as [|? ? Hk0 Hk']; subst. split.
    + apply Forall_app. split; [exact H0|]. constructor; [exact Hk0|constructor].
    + now apply IH.
Qed.

Lemma Map_set_distinct (m : list (Key * float)) k v :
  keysDistinct (List.map fst m) ->
  keysDistinct (List.map fst (Map_set sameKey m k v)).
Proof.
  intros Hm. destruct (Map_has sameKey m k) eqn:E.
  - now rewrite Map_set_keys.
  - rewrite (Map_set_new sameKey m k v E), map_app.
    apply keysDistinct_snoc; [exact Hm|]. now apply Map_has_false.
Qed.

Lemma keysDistinct_app_l (ks ks' : list Key) k :
  keysDistinct (ks ++ k :: ks') -> Forall (fun k0 => sameKey k0 k = false) ks.
Proof.
  induction ks as [|k0 ks IH]; cbn [keysDistinct app]; [constructor|].
  intros [H0 Hks]. constructor; [|now apply IH].
  apply Forall_app in H0 as [_ H0]. now inversion H0.
Qed.

(** [cubePositions.forEach((_, key) => cubePositions.set(key, 0))] sets
    every entry to 0 and keeps the keys in place. *)
Lemma resetHeights_fold (es : list (Key * float)) : forall pre,
  keysDistinct (List.map fst (pre ++ es)) ->
  fold_left (fun acc e => Map_set sameKey acc (fst e) 0%float) es
            (List.map (fun e => (fst e, 0%float)) pre ++ es)
  = List.map (fun e => (fst e, 0%float)) (pre ++ es).
Proof.
  induction es as [|e es IH]; intros pre Hd; cbn [fold_left].
  - now rewrite !app_nil_r.
  - destruct e as [ke ve]. cbn [fst] in *.
    assert (Hset : Map_set sameKey (List.map (fun e => (fst e, 0%float)) pre ++ (ke, ve) :: es)
                           ke 0%float
                   = List.map (fun e => (fst e, 0%float)) (pre ++ [(ke, ve)]) ++ es).
    { rewrite map_app in Hd. cbn [List.map] in Hd.
      apply keysDistinct_app_l in Hd. clear IH.
      induction pre as [|p pre IHp]; cbn [List.map app Map_set fst].
      - now rewrite sameKey_refl.
      - destruct p as [kp vp]. cbn [fst] in *.
        inversion Hd as [|? ? Hp Hd']; subst. rewrite Hp. f_equal. now apply IHp. }
    rewrite Hset. replace (pre ++ (ke, ve) :: es) with ((pre ++ [(ke, ve)]) ++ es) in *
      by now rewrite <- app_assoc.
    now apply IH.
Qed.

Lemma resetHeights_zero (m : list (Key * float)) :
  keysDistinct (List.map fst m) ->
  resetHeights m = List.map (fun e => (fst e, 0%float)) m.
Proof. intros Hd. exact (resetHeights_fold m [] Hd). Qed.

Lemma zeroed_keys (m : list (Key * float)) :
  List.map fst (List.map (fun e => (fst e, 0%float)) m) = List.map fst m.
Proof. rewrite List.map_map. now apply List.map_ext. Qed.


Lemma zeroed_get (m : list (Key * float)) k :
  Map_has sameKey m k = true ->
  Map_get sameKey (List.map (fun e => (fst e, 0%float)) m) k = Some 0%float.
Proof.
  unfold Map_has. intros H.
  rewrite (Map_get_fmap sameKey (fun _ => 0%float) m k).
  now destruct (Map_get sameKey m k).
Qed.

End CounterFacts.

(** ** The reset loop *)

Section UndoFacts.
Import Js Cube Inv.

(** The reset loop returns normally when every cube is registered: it
    resets the cubes one by one and starts one tween per cube. *)
Lemma undoLoop_ok origs (rest : list Mesh.t) : forall i done tws,
  (forall j c, rest !! j = Some c -> is_Some (Map_get Nat.eqb origs (i + j))) ->
  exists new,
    undoLoop origs i done tws rest
    = Normal (done ++ List.map resetCube rest, tws ++ new)
    /\ length new = length rest
    /\ forall j c, rest !! j = Some c ->
         exists o, Map_get Nat.eqb origs (i + j) = Some o
           /\ new !! j = Some (resetTween (i + j) o).
Proof.
  induction rest as [|c rest IH]; intros i done tws H.
  - exists []. cbn. rewrite !app_nil_r.
    split; [reflexivity|]. split; [reflexivity|]. intros j c Hc. discriminate.
  - destruct (H 0%nat c eq_refl) as [o Ho]. rewrite Nat.add_0_r in Ho.
    destruct (IH (S i) (done ++ [resetCube c]) (tws ++ [resetTween i o]))
      as (new & E & L & Hj).
    { intros j c' Hc'. replace (S i + j)%nat with (i + S j)%nat by lia.
      now apply (H (S j) c'). }
    exists (resetTween i o :: new).
    cbn [undoLoop]. rewrite Ho, E, <- !app_assoc. cbn [app length List.map].
    split; [reflexivity|]. split; [congruence|].
    intros [|j] c' Hc'.
    + injection Hc' as <-. rewrite Nat.add_0_r. now exists o.
    + replace (i + S j)%nat with (S i + j)%nat by lia. exact (Hj j c' Hc').
Qed.

Lemma undoAllCubes_ok (w : World) :
  (forall j c, cubes w !! j = Some c ->
     is_Some (Map_get Nat.eqb (originalPositions w) j)) ->
  exists new,
    undoAllCubes w
    = Normal (mkWorld (List.map resetCube (cubes w)) (originalPositions w)
                      (resetHeights (cubePositions w)) (scene w) (tweens w ++ new))
    /\ length new = length (cubes w)
    /\ forall j c, cubes w !! j = Some c ->
         exists o, Map_get Nat.eqb (originalPositions w) j = Some o
           /\ new !! j = Some (resetTween j o).
Proof.
  intros H.
  destruct (undoLoop_ok (originalPositions w) (cubes w) 0 [] (tweens w) H)
    as (new & E & L & Hj).
  exists new. unfold undoAllCubes. rewrite E. cbn [app]. auto.
Qed.

End UndoFacts.

(** ** Variant A: the handlers *)

Section VariantAHandlers.
Import Js Cube Inv VariantA.

Lemma onCubeClick_untextured (s : State) i cube :
  cubes (world s) !! i = Some cube -> Mesh.textured cube = false ->
  onCubeClick s (Some i)
  = let k := keyOf cube in
    let target := constrain (newZPosition (toNumber (currentHeight s k))) in
    mkState
      (mkWorld (<[i := fst (Engine.launch (dropTween i target) (reveal cube))]>
                  (cubes (world s)))
               (originalPositions (world s))
               (Map_set sameKey (cubePositions (world s)) k
                        (toNumber (currentHeight s k) + 1)%float)
               (scene (world s))
               (tweens (world s) ++ [dropTween i target]))
      (running s ++ [snd (Engine.launch (dropTween i target) (reveal cube))]).
Proof. intros Hc Ht. unfold onCubeClick. now rewrite Hc, Ht. Qed.

Lemma onCubeClick_textured (s : State) i cube :
  cubes (world s) !! i = Some cube -> Mesh.textured cube = true ->
  onCubeClick s (Some i) = s.
Proof. intros Hc Ht. unfold onCubeClick. now rewrite Hc, Ht. Qed.

(** A click changes the state only when it hits a cube that is not
    textured yet. *)
Lemma onCubeClick_cases (s : State) hit :
  onCubeClick s hit = s
  \/ exists i cube, hit = Some i /\ cubes (world s) !! i = Some cube
                    /\ Mesh.textured cube = false.
Proof.
  destruct hit as [i|]; [|now left].
  destruct (cubes (world s) !! i) as [cube|] eqn:Hc;
    [|left; unfold onCubeClick; now rewrite Hc].
  destruct (Mesh.textured cube) eqn:Ht.
  - left. exact (onCubeClick_textured s i cube Hc Ht).
  - right. now exists i, cube.
Qed.

(** The cube a click launches keeps its x and y and carries the flag. *)
Lemma launch_drop (i : nat) target (cube : Mesh.t) :
  let c' := fst (Engine.launch (dropTween i target) (reveal cube)) in
  keyOf c' = keyOf cube
  /\ Mesh.textured c' = true
  /\ Engine.tween (snd (Engine.launch (dropTween i target) (reveal cube)))
     = dropTween i target.
Proof. cbv zeta. repeat split. Qed.

Lemma onFrame_moved keep (s : State) dt ratio :
  (keep = true ->
   Forall (fun r => Tween.to_x (Engine.tween r) = None
                    /\ Tween.to_y (Engine.tween r) = None) (running s)) ->
  originalPositions (world (onFrame s dt ratio)) = originalPositions (world s)
  /\ cubePositions (world (onFrame s dt ratio)) = cubePositions (world s)
  /\ scene (world (onFrame s dt ratio)) = scene (world s)
  /\ tweens (world (onFrame s dt ratio)) = tweens (world s)
  /\ length (cubes (world (onFrame s dt ratio))) = length (cubes (world s))
  /\ forall i c, cubes (world s) !! i = Some c ->
       exists c', cubes (world (onFrame s dt ratio)) !! i = Some c'
                  /\ movedFrom keep c c'.
Proof.
  intros Hq. unfold onFrame.
  destruct (frameLoop_moved keep dt ratio (running s) 0 (cubes (world s)) Hq) as [L M].
  destruct (Engine.frameLoop dt ratio 0 (running s) (cubes (world s))) as [cs runs].
  cbn [fst] in *. cbn [world withCubes cubes originalPositions cubePositions scene tweens].
  repeat split; assumption.
Qed.

Lemma onFrame_running (Q : Tween.t -> Prop) (s : State) dt ratio :
  Forall (fun r => Q (Engine.tween r)) (running s) ->
  Forall (fun r => Q (Engine.tween r)) (running (onFrame s dt ratio)).
Proof.
  intros Hq. unfold onFrame.
  pose proof (frameLoop_runs Q dt ratio (running s) 0 (cubes (world s)) Hq) as H.
  destruct (Engine.frameLoop dt ratio 0 (running s) (cubes (world s))) as [cs runs].
  exact H.
Qed.

(** Every cube of a state with the cubes of startup is registered. *)
Lemma registered_by_length (w : World) :
  length (cubes w) = length (cubes (world init)) ->
  originalPositions w = originalPositions (world init) ->
  forall j c, cubes w !! j = Some c ->
    exists c0, cubes (world init) !! j = Some c0
      /\ Map_get Nat.eqb (originalPositions w) j = Some (Mesh.position c0).
Proof.
  intros L T j c Hc. apply lookup_lt_Some in Hc. rewrite L in Hc.
  destruct (lookup_lt_is_Some_2 _ _ Hc) as [c0 Hc0]. exists c0.
  split; [exact Hc0|]. rewrite T. exact (initA_registered j c0 Hc0).
Qed.

(** The reset returns normally and starts one tween per cube, towards
    the position the cube was created at. *)
Lemma onUndo_ok (s : State) :
  length (cubes (world s)) = length (cubes (world init)) ->
  originalPositions (world s) = originalPositions (world init) ->
  exists new,
    undoAllCubes (world s) = Normal (world (onUndo s))
    /\ onUndo s
       = mkState (mkWorld (List.map resetCube (cubes (world s)))
                          (originalPositions (world s))
                          (resetHeights (cubePositions (world s)))
                          (scene (world s)) (tweens (world s) ++ new))
                 (running s ++ List.map Engine.schedule new)
    /\ length new = length (cubes (world s))
    /\ forall j c0, cubes (world init) !! j = Some c0 ->
         new !! j = Some (resetTween j (Mesh.position c0)).
Proof.
  intros L T.
  destruct (undoAllCubes_ok (world s)) as (new & E & Ln & Hj).
  { intros j c Hc. destruct (registered_by_length _ L T j c Hc) as (c0 & _ & H).
    now exists (Mesh.position c0). }
  exists new.
  assert (Hs : onUndo s
               = mkState (mkWorld (List.map resetCube (cubes (world s)))
                            (originalPositions (world s))
                            (resetHeights (cubePositions (world s)))
                            (scene (world s)) (tweens (world s) ++ new))
                         (running s ++ List.map Engine.schedule new)).
  { unfold onUndo. rewrite E. cbn [stateOf tweens].
    now rewrite drop_app_length. }
  split; [now rewrite Hs|]. split; [exact Hs|]. split; [exact Ln|].
  intros j c0 Hc0.
  destruct (lookup_lt_is_Some_2 (cubes (world s)) j) as [c Hc].
  { rewrite L. eapply lookup_lt_Some, Hc0. }
  destruct (Hj j c Hc) as (o & Ho & Hn). rewrite Hn. do 2 f_equal.
  destruct (registered_by_length _ L T j c Hc) as (c0' & Hc0' & H).
  congruence.
Qed.

End VariantAHandlers.

(** ** Variant A: what holds in every reachable state *)

Section VariantAAll.
Import Js Cube Inv VariantA.

Lemma InvAll_init : InvAll init.
Proof.
  split.
  - reflexivity.
  - reflexivity.
  - reflexivity.
  - rewrite (proj1 (proj2 initA_built)).
    clear. pose proof gridKeys_ok as H. revert H.
    generalize gridKeys. intros ks. induction ks as [|k r IH]; cbn [keysOk keysDistinct].
    + auto.
    + rewrite !andb_true_iff, forallb_forall. intros [[_ Hr] Hok]. split; [|auto].
      apply List.Forall_forall. intros k' Hk'. specialize (Hr k' Hk').
      apply andb_true_iff in Hr as [H1 _]. now apply negb_true_iff in H1.
  - intros k Hk. unfold Map_has. now rewrite (built_lookup_height _ k initA_built Hk).
Qed.

Lemma InvAll_click (s : State) hit : InvAll s -> InvAll (onCubeClick s hit).
Proof.
  intros I. destruct (onCubeClick_cases s hit) as [->|(i & cube & -> & Hc & Ht)];
    [exact I|].
  rewrite (onCubeClick_untextured s i cube Hc Ht). cbv zeta.
  destruct I as [L T Sc D Ck].
  split; cbn [world cubes originalPositions scene cubePositions].
  - now rewrite length_insert.
  - exact T.
  - exact Sc.
  - now apply Map_set_distinct.
  - intros k Hk. apply Map_has_set_mono, Ck, Hk.
Qed.

Lemma InvAll_undo (s : State) : InvAll s -> InvAll (onUndo s).
Proof.
  intros I. destruct I as [L T Sc D Ck].
  destruct (onUndo_ok s L T) as (new & _ & -> & _ & _).
  rewrite (resetHeights_zero _ D).
  split; cbn [world cubes originalPositions scene cubePositions].
  - now rewrite length_map.
  - exact T.
  - exact Sc.
  - now rewrite zeroed_keys.
  - intros k Hk. unfold Map_has. now rewrite (zeroed_get _ k (Ck k Hk)).
Qed.

Lemma InvAll_frame (s : State) dt ratio : InvAll s -> InvAll (onFrame s dt ratio).
Proof.
  intros I. destruct I as [L T Sc D Ck].
  destruct (onFrame_moved false s dt ratio) as (H1 & H2 & H3 & _ & H5 & _);
    [discriminate|].
  split; try congruence.
  intros k Hk. rewrite H2. now apply Ck.
Qed.

Lemma InvAll_step (s : State) e : InvAll s -> InvAll (step s e).
Proof.
  intros I. destruct e as [button hit|dt ratio]; cbn [step].
  - unfold mousedown.
    destruct button as [|[|[|button]]]; auto using InvAll_click, InvAll_undo.
  - now apply InvAll_frame.
Qed.

Lemma reachable_InvAll (s : State) : reachable s -> InvAll s.
Proof. induction 1; auto using InvAll_init, InvAll_step. Qed.

End VariantAAll.

(** ** Variant A before any reset: the counters count the textured cubes *)

Section VariantAFacts.
Import Js Cube Inv VariantA.

Lemma texturedIn_same k (cs cs' : list Mesh.t) :
  List.map keyOf cs' = List.map keyOf cs ->
  List.map Mesh.textured cs' = List.map Mesh.textured cs ->
  texturedIn k cs' = texturedIn k cs.
Proof.
  unfold texturedIn. revert cs. induction cs' as [|c' cs' IH]; intros [|c cs]; try discriminate.
  - reflexivity.
  - cbn [List.map List.filter]. intros H1 H2.
    assert (Hk : keyOf c' = keyOf c) by congruence.
    assert (Hks : List.map keyOf cs' = List.map keyOf cs) by congruence.
    assert (Ht : Mesh.textured c' = Mesh.textured c) by congruence.
    assert (Hts : List.map Mesh.textured cs' = List.map Mesh.textured cs) by congruence.
    rewrite Hk, Ht. specialize (IH cs Hks Hts).
    destruct (Mesh.textured c && sameKey (keyOf c) k); cbn [length]; now rewrite IH.
Qed.

Lemma InvA_init : InvA init.
Proof.
  pose proof initA_built as Hb. split.
  - destruct Hb as (H1 & H2 & _). now split.
  - intros k Hk. rewrite (built_lookup_height _ _ Hb Hk).
    rewrite texturedIn_none; [reflexivity|]. apply built_untextured, Hb.
  - intros i c Hc. exists (Mesh.position c). split; [|reflexivity].
    now apply initA_registered.
  - reflexivity.
  - constructor.
Qed.

Lemma InvA_has_key (s : State) k :
  InvA s -> In k gridKeys -> Map_has sameKey (cubePositions (world s)) k = true.
Proof.
  intros I Hk. unfold Map_has. now rewrite (invA_counts s I k Hk).
Qed.

Lemma InvA_click (s : State) hit : InvA s -> InvA (onCubeClick s hit).
Proof.
  intros I. destruct (onCubeClick_cases s hit) as [->|(i & cube & -> & Hc & Ht)];
    [exact I|].
  rewrite (onCubeClick_untextured s i cube Hc Ht). cbv zeta.
  pose proof (invA_columns s I) as Hcols.
  pose proof (column_of_cube _ i cube Hcols Hc) as Hk.
  unfold currentHeight. rewrite (invA_counts s I _ Hk). cbn [toNumber].
  set (n := texturedIn (keyOf cube) (cubes (world s))).
  set (target := constrain (newZPosition (natToFloat n))).
  destruct (launch_drop i target cube) as (Hkey & Htex & Htw).
  set (cube' := fst (Engine.launch (dropTween i target) (reveal cube))) in *.
  set (r := snd (Engine.launch (dropTween i target) (reveal cube))) in *.
  split; cbn [world cubes cubePositions originalPositions running].
  - destruct Hcols as [H1 H2]. split; cbn [cubes cubePositions].
    + now rewrite (map_insert_same keyOf _ i cube cube' Hc Hkey).
    + rewrite Map_set_keys; [exact H2|]. now apply InvA_has_key.
  - intros k Hin.
    rewrite (texturedIn_insert k _ i cube cube' Hc Ht Htex Hkey).
    destruct (sameKey (keyOf cube) k) eqn:E.
    + apply (sameKey_grid _ _ Hk Hin) in E. subst k.
      rewrite Map_get_set_found by now apply InvA_has_key. reflexivity.
    + rewrite (Map_get_set_other sameKey (fun k => In k gridKeys) sameKey_grid).
      * apply (invA_counts s I k Hin).
      * destruct Hcols as [_ H2]. rewrite H2. now apply List.Forall_forall.
      * exact Hk.
      * exact Hin.
      * intros Heq. rewrite Heq in E.
        rewrite (proj2 (sameKey_grid _ _ Hin Hin) eq_refl) in E. discriminate.
  - intros j c Hj. destruct (decide (j = i)) as [->|Hne].
    + rewrite list_lookup_insert_eq in Hj by (eapply lookup_lt_Some, Hc).
      injection Hj as <-.
      destruct (invA_originals s I i cube Hc) as (o & Ho & Hko).
      exists o. split; [exact Ho|congruence].
    + rewrite list_lookup_insert_ne in Hj by congruence.
      apply (invA_originals s I j c Hj).
  - apply (invA_table s I).
  - apply Forall_app. split; [apply (invA_drops s I)|].
    constructor; [|constructor]. rewrite Htw. split; reflexivity.
Qed.

Lemma InvA_frame (s : State) dt ratio : InvA s -> InvA (onFrame s dt ratio).
Proof.
  intros I.
  destruct (onFrame_moved true s dt ratio (fun _ => invA_drops s I))
    as (H1 & H2 & H3 & H4 & H5 & M).
  destruct (movedFrom_keys _ _ H5 M) as [Hkeys Htex].
  split.
  - destruct (invA_columns s I) as [C1 C2]. split; congruence.
  - intros k Hk. rewrite H2, (texturedIn_same k _ _ Hkeys Htex).
    exact (invA_counts s I k Hk).
  - intros i c' Hc'. pose proof (lookup_lt_Some _ _ _ Hc') as Hlt. rewrite H5 in Hlt.
    destruct (lookup_lt_is_Some_2 _ _ Hlt) as [c Hc].
    destruct (M i c Hc) as (c'' & Hc'' & [_ K]).
    rewrite Hc' in Hc''. injection Hc'' as <-.
    destruct (invA_originals s I i c Hc) as (o & Ho & Hko).
    exists o. rewrite H1. split; [exact Ho|].
    destruct (K eq_refl) as [Hx Hy]. unfold keyOf in *. now rewrite Hx, Hy.
  - rewrite H1. exact (invA_table s I).
  - exact (onFrame_running
             (fun tw => Tween.to_x tw = None /\ Tween.to_y tw = None)
             s dt ratio (invA_drops s I)).
Qed.

Lemma InvA_step (s : State) e : pressesUndo e = false -> InvA s -> InvA (step s e).
Proof.
  intros He I. destruct e as [button hit|dt ratio]; cbn [step].
  - unfold mousedown.
    destruct button as [|[|[|button]]]; try discriminate; auto using InvA_click.
  - now apply InvA_frame.
Qed.

Lemma InvA_run (es : list Event) : forall s,
  forallb (fun e => negb (pressesUndo e)) es = true -> InvA s -> InvA (run s es).
Proof.
  induction es as [|e es IH]; intros s Hes I; [exact I|].
  cbn [forallb] in Hes. apply andb_true_iff in Hes as [He Hes].
  apply negb_true_iff in He. cbn [run fold_left].
  apply (IH (step s e) Hes), InvA_step; assumption.
Qed.

Lemma run_reachable (es : list Event) : forall s, reachable s -> reachable (run s es).
Proof.
  induction es as [|e es IH]; intros s Hr; [exact Hr|].
  cbn [run fold_left]. apply (IH (step s e)). now constructor.
Qed.

End VariantAFacts.

(** ** Variant A: the frames after a reset *)

Section ResetFrames.
Import Js Cube Inv VariantA.






End ResetFrames.

(** ** Variant A: where the cubes rest *)

Section RestFacts.
Import Js Cube Inv VariantA.







(** A reset, a frame, and a click on cube 800, which was created in the
    column of grid indices x = 8, y = 0. *)
Lemma after_reset_frame :
  let s := run init [MouseDown 2 None; Frame 16 (fun _ => 0.5%float)] in
  let s' := step s (MouseDown 0 (Some 800%nat)) in
  let k := positionKey (coord 8) (coord 0) in
  let k' := positionKey (Tween.round6 (coord 8)) (coord 0) in
  keyOf <$> cubes (world init) !! 800%nat = Some k
  /\ Mesh.textured <$> cubes (world s) !! 800%nat = Some false
  /\ keyOf <$> cubes (world s) !! 800%nat = Some k'
  /\ sameKey k' k = false
  /\ currentHeight s k = Some 0%float
  /\ currentHeight s k' = None
  /\ VariantB.currentHeight (world s) k' = 0%float
  /\ Mesh.textured <$> cubes (world s') !! 800%nat = Some true
  /\ currentHeight s' k = Some 0%float
  /\ cubePositions (world s') = cubePositions (world s) ++ [(k', nan)]
  /\ tweens (world s') = tweens (world s) ++ [dropTween 800 nan]
  /\ length (cubePositions (world s)) = 100%nat.
Proof. vm_compute. repeat split. Qed.

End RestFacts.

(** ** Variant B: the counters count the spawned cubes *)

Section VariantBFacts.
Import Js Cube Inv VariantB.

Lemma onCubeClick_place (s : State) i clicked :
  cubes (world s) !! i = Some clicked ->
  (currentHeight (world s) (keyOf clicked) <? maxStackHeight)%float = true ->
  onCubeClick s (Some i)
  = let w := world s in
    let h := currentHeight w (keyOf clicked) in
    let id := length (cubes w) in
    let target := constrain (newZPosition (h + 1)%float) in
    mkState
      (mkWorld (cubes w ++ [Tween.settle (dropTween id target) (spawnedCube clicked)])
               (originalPositions w)
               (Map_set sameKey (cubePositions w) (keyOf clicked) (h + 1)%float)
               (scene w ++ [CubeChild id])
               (tweens w ++ [dropTween id target]))
      (highlightedCubes s) (console s).
Proof.
  intros Hc Hlt. unfold onCubeClick. rewrite Hc.
  change (positionKey _ _) with (keyOf clicked). now rewrite Hlt.
Qed.

Lemma onCubeClick_full (s : State) i clicked :
  cubes (world s) !! i = Some clicked ->
  (currentHeight (world s) (keyOf clicked) <? maxStackHeight)%float = false ->
  onCubeClick s (Some i)
  = mkState (world s) (highlightedCubes s) (console s ++ [stackFullNotice]).
Proof.
  intros Hc Hlt. unfold onCubeClick. rewrite Hc.
  change (positionKey _ _) with (keyOf clicked). now rewrite Hlt.
Qed.

Lemma InvB_init : InvB init.
Proof.
  pose proof initB_built as Hb.
  destruct Hb as (H1 & H2 & H3 & H4 & H5 & H6 & H7).
  assert (Hz : Forall (fun e => snd e = 0%float) (cubePositions (world init))).
  { apply List.Forall_forall. intros e He. apply (in_map snd) in He.
    rewrite H4 in He. now apply repeat_spec in He. }
  split.
  - apply columns_cube_keys. now split.
  - exact H2.
  - eapply Forall_impl; [exact Hz|]. intros e He. exists 0%nat.
    split; [unfold gridCount; lia|exact He].
  - rewrite H6.
    assert (Hs : sumHeights (cubePositions (world init)) = 0%nat); [|lia].
    clear -Hz. unfold sumHeights.
    induction Hz as [|e m He _ IH]; [reflexivity|].
    change (heightNat (snd e) + list_sum (List.map (fun e => heightNat (snd e)) m) = 0)%nat.
    rewrite IH, He. vm_compute. reflexivity.
Qed.

Lemma InvB_height (s : State) k :
  InvB s -> In k gridKeys ->
  exists n, (n <= gridCount)%nat
    /\ Map_get sameKey (cubePositions (world s)) k = Some (natToFloat n).
Proof.
  intros I Hk.
  assert (Hhas : Map_has sameKey (cubePositions (world s)) k = true).
  { apply (Map_has_keys sameKey (fun k => In k gridKeys) sameKey_grid); [exact Hk|].
    now rewrite (invB_keys s I). }
  unfold Map_has in Hhas.
  destruct (Map_get sameKey (cubePositions (world s)) k) as [v|] eqn:E;
    [|discriminate].
  destruct (Map_get_In sameKey _ _ _ E) as [k' Hin].
  pose proof (invB_heights s I) as Hh. rewrite List.Forall_forall in Hh.
  destruct (Hh _ Hin) as (n & Hn & Hv). cbn in Hv. subst v.
  exists n. split; [exact Hn|reflexivity].
Qed.

Lemma InvB_currentHeight (s : State) k n :
  InvB s -> (n <= gridCount)%nat ->
  Map_get sameKey (cubePositions (world s)) k = Some (natToFloat n) ->
  currentHeight (world s) k = natToFloat n.
Proof.
  intros _ Hn E. unfold currentHeight. rewrite E. now apply orZero_natToFloat.
Qed.

Lemma InvB_click (s : State) hit : InvB s -> InvB (onCubeClick s hit).
Proof.
  intros I. destruct hit as [i|]; [|exact I].
  destruct (cubes (world s) !! i) as [clicked|] eqn:Hc;
    [|unfold onCubeClick; now rewrite Hc].
  pose proof (invB_cube_keys s I) as Hkeys.
  assert (Hk : In (keyOf clicked) gridKeys).
  { rewrite List.Forall_forall in Hkeys. eapply Hkeys, lookup_In, Hc. }
  destruct (InvB_height s _ I Hk) as (n & Hn & Hget).
  pose proof (InvB_currentHeight s _ n I Hn Hget) as Hcur.
  destruct ((currentHeight (world s) (keyOf clicked) <? maxStackHeight)%float) eqn:Hlt.
  - rewrite (onCubeClick_place s i clicked Hc Hlt). cbv zeta. rewrite Hcur.
    rewrite Hcur in Hlt. apply (natToFloat_lt_gridSize n Hn) in Hlt.
    split; cbn [world cubes cubePositions].
    + apply Forall_app. split; [exact Hkeys|].
      constructor; [exact Hk|constructor].
    + rewrite Map_set_keys; [apply (invB_keys s I)|].
      unfold Map_has. now rewrite Hget.
    + apply (Map_set_Forall sameKey
               (fun v => exists n, (n <= gridCount)%nat /\ v = natToFloat n));
        [apply (invB_heights s I)|].
      exists (S n). split; [lia|reflexivity].
    + rewrite length_app. cbn [length]. rewrite (invB_count s I).
      pose proof (Map_set_sum sameKey heightNat _ _ (natToFloat n + 1)%float _ Hget) as Hs.
      change (natToFloat n + 1)%float with (natToFloat (S n)) in Hs |- *.
      rewrite (heightNat_natToFloat n), (heightNat_natToFloat (S n)) in Hs by lia.
      unfold sumHeights.
      generalize dependent (gridCount * gridCount * gridCount)%nat. intros; lia.
  - rewrite (onCubeClick_full s i clicked Hc Hlt).
    destruct I. now split.
Qed.

End VariantBFacts.

(** ** Variant B: pointer moves only change tints *)

Section VariantBMoves.
Import Js Cube Inv VariantB.

Lemma clearHighlight_lookup (hs : list nat) : forall (cs : list Mesh.t) j,
  clearHighlight hs cs !! j
  = (if decide (j ∈ hs) then setEmissive 0%N else id) <$> (cs !! j).
Proof.
  unfold clearHighlight.
  induction hs as [|h hs IH]; intros cs j; cbn [fold_left].
  - rewrite decide_False by apply not_elem_of_nil. now destruct (cs !! j).
  - rewrite IH. destruct (decide (j = h)) as [->|Hne].
    + rewrite list_lookup_alter_eq, (decide_True (P := h ∈ h :: hs))
        by (apply elem_of_cons; now left).
      destruct (cs !! h); [|reflexivity]. cbn.
      destruct (decide (h ∈ hs)); reflexivity.
    + rewrite list_lookup_alter_ne by congruence.
      destruct (decide (j ∈ hs)) as [Hin|Hnin].
      * rewrite decide_True by (apply elem_of_cons; now right).
        reflexivity.
      * rewrite decide_False; [reflexivity|].
        intros [?|?]%elem_of_cons; congruence.
Qed.

Lemma clearHighlight_positions (hs : list nat) (cs : list Mesh.t) :
  List.map Mesh.position (clearHighlight hs cs) = List.map Mesh.position cs.
Proof.
  rewrite (map_fmap _ (clearHighlight hs cs)), (map_fmap _ cs).
  apply list_eq. intros j.
  rewrite !list_lookup_fmap, clearHighlight_lookup.
  destruct (cs !! j); [|reflexivity]. cbn.
  destruct (decide (j ∈ hs)); reflexivity.
Qed.

Lemma highlightLoop_cubes tx ty (rest : list Mesh.t) : forall i,
  fst (highlightLoop tx ty i rest)
  = List.map (fun c => if inColumn tx ty c then setEmissive highlightHex c else c) rest.
Proof.
  induction rest as [|c rest IH]; intros i; [reflexivity|].
  cbn [highlightLoop List.map]. specialize (IH (S i)).
  destruct (highlightLoop tx ty (S i) rest) as [cs hs]. cbn [fst] in IH.
  destruct (inColumn tx ty c); cbn [fst]; now rewrite IH.
Qed.

Lemma highlightLoop_indices tx ty (rest : list Mesh.t) : forall i n,
  In n (snd (highlightLoop tx ty i rest))
  <-> exists j c, n = (i + j)%nat /\ rest !! j = Some c /\ inColumn tx ty c = true.
Proof.
  induction rest as [|c rest IH]; intros i n.
  - cbn. split; [tauto|]. intros (j & c & _ & [=] & _).
  - cbn [highlightLoop]. specialize (IH (S i) n).
    destruct (highlightLoop tx ty (S i) rest) as [cs hs]. cbn [snd] in IH.
    assert (Htail : In n hs <->
              exists j c', n = (i + S j)%nat /\ rest !! j = Some c'
                           /\ inColumn tx ty c' = true).
    { rewrite IH. split; intros (j & c' & -> & H1 & H2); exists j, c';
        (split; [lia|now split]). }
    destruct (inColumn tx ty c) eqn:E; cbn [snd In]; rewrite ?Htail; split.
    + intros [<-|(j & c' & -> & H1 & H2)].
      * exists 0%nat, c. split; [lia|now split].
      * exists (S j), c'. now split.
    + intros ([|j] & c' & -> & H1 & H2).
      * left. lia.
      * right. exists j, c'. now split.
    + intros (j & c' & -> & H1 & H2). exists (S j), c'. now split.
    + intros ([|j] & c' & -> & H1 & H2).
      * injection H1 as <-. congruence.
      * exists j, c'. now split.
Qed.

Lemma highlightLoop_positions tx ty i (rest : list Mesh.t) :
  List.map Mesh.position (fst (highlightLoop tx ty i rest))
  = List.map Mesh.position rest.
Proof.
  rewrite highlightLoop_cubes, List.map_map. apply List.map_ext.
  intros c. now destruct (inColumn tx ty c).
Qed.

(** The handler, with the loops named. *)
Lemma onMouseMove_unfold (s : State) hit :
  onMouseMove s hit
  = let cleared := clearHighlight (highlightedCubes s) (cubes (world s)) in
    match hit with
    | None => mkState (setCubes cleared (world s)) [] (console s)
    | Some i =>
        match cleared !! i with
        | None => mkState (setCubes cleared (world s)) [] (console s)
        | Some intersectedCube =>
            let targetX := Vector3.x (Mesh.position intersectedCube) in
            let targetY := Vector3.y (Mesh.position intersectedCube) in
            mkState (setCubes (fst (highlightLoop targetX targetY 0 cleared)) (world s))
                    (snd (highlightLoop targetX targetY 0 cleared)) (console s)
        end
    end.
Proof.
  unfold onMouseMove.
  replace (match highlightedCubes s with
           | [] => cubes (world s)
           | _ :: _ => clearHighlight (highlightedCubes s) (cubes (world s))
           end)
    with (clearHighlight (highlightedCubes s) (cubes (world s)))
    by now destruct (highlightedCubes s).
  cbv zeta. destruct hit as [i|]; [|reflexivity].
  destruct (clearHighlight _ _ !! i) as [ic|]; [|reflexivity].
  now destruct (highlightLoop _ _ 0 _).
Qed.

Lemma onMouseMove_frame (s : State) hit :
  exists cs hs,
    onMouseMove s hit = mkState (setCubes cs (world s)) hs (console s)
    /\ List.map Mesh.position cs = List.map Mesh.position (cubes (world s)).
Proof.
  rewrite onMouseMove_unfold. cbv zeta.
  destruct hit as [i|];
    [destruct (clearHighlight _ _ !! i) as [ic|]|]; eexists _, _;
    (split; [reflexivity|]);
    rewrite ?highlightLoop_positions; apply clearHighlight_positions.
Qed.

Lemma keys_of_positions (cs cs' : list Mesh.t) :
  List.map Mesh.position cs' = List.map Mesh.position cs ->
  List.map keyOf cs' = List.map keyOf cs.
Proof.
  intros H.
  apply (f_equal (List.map (fun p => positionKey (Vector3.x p) (Vector3.y p)))) in H.
  now rewrite !List.map_map in H.
Qed.

Lemma InvB_move (s : State) hit : InvB s -> InvB (onMouseMove s hit).
Proof.
  intros I. destruct (onMouseMove_frame s hit) as (cs & hs & -> & Hpos).
  pose proof (keys_of_positions _ _ Hpos) as Hkeys.
  split; cbn [world setCubes cubes cubePositions].
  - apply List.Forall_forall. intros c Hc.
    apply (in_map keyOf) in Hc. rewrite Hkeys in Hc.
    destruct (proj1 (in_map_iff _ _ _) Hc) as (c0 & Hk0 & Hc0).
    rewrite <- Hk0.
    exact (proj1 (List.Forall_forall _ _) (invB_cube_keys s I) c0 Hc0).
  - exact (invB_keys s I).
  - exact (invB_heights s I).
  - rewrite <- (invB_count s I).
    rewrite <- (length_map Mesh.position cs), Hpos. apply length_map.
Qed.

Lemma InvB_step (s : State) e : InvB s -> InvB (step s e).
Proof.
  intros I. destruct e as [button hit|hit]; cbn [step].
  - unfold mousedown. destruct button as [|[|[|button]]]; auto using InvB_click.
  - now apply InvB_move.
Qed.

Lemma reachable_InvB (s : State) : reachable s -> InvB s.
Proof. induction 1; auto using InvB_init, InvB_step. Qed.

Lemma sumHeights_bound (m : list (Key * float)) :
  Forall (fun e => exists n, (n <= gridCount)%nat /\ snd e = natToFloat n) m ->
  (sumHeights m <= gridCount * length m)%nat.
Proof.
  unfold sumHeights. induction 1 as [|e m (n & Hn & He) _ IH].
  - cbn. lia.
  - change (heightNat (snd e) + list_sum (List.map (fun e => heightNat (snd e)) m)
            <= gridCount * S (length m))%nat.
    rewrite He, (heightNat_natToFloat n Hn). lia.
Qed.

Lemma highlightLoop_NoDup tx ty (rest : list Mesh.t) : forall i,
  List.NoDup (snd (highlightLoop tx ty i rest)).
Proof.
  induction rest as [|c rest IH]; intros i; [constructor|].
  cbn [highlightLoop]. specialize (IH (S i)).
  pose proof (highlightLoop_indices tx ty rest (S i) i) as Hi.
  destruct (highlightLoop tx ty (S i) rest) as [cs hs]. cbn [snd] in *.
  destruct (inColumn tx ty c); cbn [snd]; [|exact IH].
  constructor; [|exact IH].
  intros Hin. apply Hi in Hin as (j & c' & Hj & _). lia.
Qed.

(** A pointer move leaves every tracked cube in place, up to its tint. *)
Lemma onMouseMove_tint_only (s : State) hit j c :
  cubes (world s) !! j = Some c ->
  exists c', cubes (world (onMouseMove s hit)) !! j = Some c'
             /\ setEmissive 0%N c' = setEmissive 0%N c.
Proof.
  intros Hc. rewrite onMouseMove_unfold. cbv zeta.
  assert (Hcl : exists c0,
            clearHighlight (highlightedCubes s) (cubes (world s)) !! j = Some c0
            /\ setEmissive 0%N c0 = setEmissive 0%N c).
  { rewrite clearHighlight_lookup, Hc. cbn.
    destruct (decide (j ∈ highlightedCubes s)); eexists; split; reflexivity. }
  destruct Hcl as (c0 & Hc0 & He0).
  destruct hit as [i|];
    [destruct (clearHighlight _ _ !! i) as [ic|]|];
    cbn [world setCubes cubes]; try (exists c0; split; [exact Hc0|exact He0]).
  rewrite highlightLoop_cubes, map_fmap, list_lookup_fmap, Hc0. cbn.
  eexists. split; [reflexivity|].
  destruct (inColumn _ _ c0); [|exact He0]. rewrite <- He0. reflexivity.
Qed.

Lemma clearHighlight_Some (hs : list nat) (cs : list Mesh.t) j c0 :
  clearHighlight hs cs !! j = Some c0 <->
  exists c, cs !! j = Some c
            /\ Mesh.position c0 = Mesh.position c
            /\ (In j hs -> c0 = setEmissive 0%N c)
            /\ (~ In j hs -> c0 = c).
Proof.
  rewrite clearHighlight_lookup. split.
  - destruct (cs !! j) as [c|]; [|discriminate]. cbn. intros [= <-]. exists c.
    split; [reflexivity|].
    destruct (decide (j ∈ hs)) as [Hin|Hnin]; rewrite list_elem_of_In in *;
      repeat split; tauto.
  - intros (c & -> & _ & H1 & H2). cbn. f_equal.
    destruct (decide (j ∈ hs)) as [Hin|Hnin]; rewrite list_elem_of_In in *;
      symmetry; auto.
Qed.

Lemma inColumn_position tx ty (c c' : Mesh.t) :
  Mesh.position c' = Mesh.position c -> inColumn tx ty c' = inColumn tx ty c.
Proof. unfold inColumn. now intros ->. Qed.
End VariantBMoves.

(** * The claims *)

Section Claims.
Import Js Cube Inv.

(** C9 -- Variant B: a press of the secondary button leaves the whole
    program state as it was: the tracked cubes with their positions and
    materials, the scene, every stack-height counter, the tweens, the
    highlighted set and the console. *)
Theorem C9_secondary_button_changes_nothing :
  forall (s : VariantB.State) (hit : option nat),
    VariantB.step s (VariantB.MouseDown 2 hit) = s.
Proof. reflexivity. Qed.

(** C2 -- Variant B: a primary click on a cube whose column holds
    [gridSize] cubes only logs the notice: the world (cubes, scene,
    counters, tweens) and the highlighted set are unchanged. *)
Theorem C2_full_stack_click_is_noop
    (s : VariantB.State) (i : nat) (clicked : Mesh.t) :
  cubes (VariantB.world s) !! i = Some clicked ->
  VariantB.currentHeight (VariantB.world s) (keyOf clicked) = gridSize ->
  let s' := VariantB.step s (VariantB.MouseDown 0 (Some i)) in
  VariantB.world s' = VariantB.world s
  /\ cubes (VariantB.world s') = cubes (VariantB.world s)
  /\ scene (VariantB.world s') = scene (VariantB.world s)
  /\ cubePositions (VariantB.world s') = cubePositions (VariantB.world s)
  /\ tweens (VariantB.world s') = tweens (VariantB.world s)
  /\ VariantB.highlightedCubes s' = VariantB.highlightedCubes s
  /\ VariantB.console s' = VariantB.console s ++ [VariantB.stackFullNotice].
Proof.
  intros Hc Hh. cbn [VariantB.step VariantB.mousedown].
  rewrite (onCubeClick_full s i clicked Hc); [now repeat split|].
  rewrite Hh. vm_compute. reflexivity.
Qed.

Lemma C2_full_stack_witness :
  let s := VariantB.run VariantB.init (repeat (VariantB.MouseDown 0 (Some 0%nat)) 10) in
  VariantB.world (VariantB.step s (VariantB.MouseDown 0 (Some 0%nat))) = VariantB.world s
  /\ VariantB.console (VariantB.step s (VariantB.MouseDown 0 (Some 0%nat)))
     = [VariantB.stackFullNotice].
Proof.
  intros s.
  assert (H : exists clicked,
             cubes (VariantB.world s) !! 0%nat = Some clicked
             /\ VariantB.currentHeight (VariantB.world s) (keyOf clicked) = gridSize).
  { vm_compute. eexists. split; reflexivity. }
  destruct H as (clicked & Hc & Hh).
  destruct (C2_full_stack_click_is_noop s 0 clicked Hc Hh)
    as (Hw & _ & _ & _ & _ & _ & Hl).
  split; [exact Hw|]. rewrite Hl. vm_compute. reflexivity.
Defined.

(** C3 -- Variant A: a click on a cube whose [textured] flag is set
    changes nothing (material, position, counters, tweens), so clicking
    the same cube a second time is idempotent. *)
Theorem C3_textured_click_idempotent
    (s : VariantA.State) (i : nat) (cube : Mesh.t) :
  cubes (VariantA.world s) !! i = Some cube ->
  (Mesh.textured cube = true ->
     let s' := VariantA.step s (VariantA.MouseDown 0 (Some i)) in
     s' = s
     /\ cubes (VariantA.world s') !! i = Some cube
     /\ cubePositions (VariantA.world s') = cubePositions (VariantA.world s)
     /\ tweens (VariantA.world s') = tweens (VariantA.world s)
     /\ VariantA.running s' = VariantA.running s)
  /\ VariantA.onCubeClick (VariantA.onCubeClick s (Some i)) (Some i)
     = VariantA.onCubeClick s (Some i).
Proof.
  intros Hc.
  assert (H1 : Mesh.textured cube = true -> VariantA.onCubeClick s (Some i) = s)
    by apply (onCubeClick_textured s i cube Hc).
  split.
  - intros Ht. cbn [VariantA.step VariantA.mousedown]. rewrite (H1 Ht).
    now repeat split.
  - destruct (Mesh.textured cube) eqn:Ht; [now rewrite (H1 eq_refl), (H1 eq_refl)|].
    rewrite (onCubeClick_untextured s i cube Hc Ht). cbv zeta.
    eapply onCubeClick_textured; cbn [VariantA.world cubes].
    + apply list_lookup_insert_eq. eapply lookup_lt_Some, Hc.
    + reflexivity.
Qed.

Lemma C3_textured_click_witness :
  let s := VariantA.step VariantA.init (VariantA.MouseDown 0 (Some 0%nat)) in
  VariantA.step s (VariantA.MouseDown 0 (Some 0%nat)) = s.
Proof.
  intros s.
  assert (H : exists cube, cubes (VariantA.world s) !! 0%nat = Some cube
                           /\ Mesh.textured cube = true).
  { vm_compute. eexists. split; reflexivity. }
  destruct H as (cube & Hc & Ht).
  exact (proj1 (proj1 (C3_textured_click_idempotent s 0 cube Hc) Ht)).
Defined.

(** C1 (the code at the failing input) -- Variant A, after a reset and
    one frame of the engine: cube 800 was created in the column of grid
    indices x = 8, y = 0, is not textured, and the counter of its column
    is 0.  A click on it succeeds (the cube is textured and a drop tween
    is started) but the counter of the column is still 0 afterwards: the
    reset tween has rewritten the x of the cube rounded to six decimals,
    so the click reads and writes another key, appended to the map with
    the value NaN.  Both variants start every column at 0. *)
Theorem C1_counter_missed_after_reset :
  let s := VariantA.run VariantA.init
             [VariantA.MouseDown 2 None; VariantA.Frame 16 (fun _ => 0.5%float)] in
  let s' := VariantA.step s (VariantA.MouseDown 0 (Some 800%nat)) in
  let k := positionKey (coord 8) (coord 0) in
  (VariantA.reachable s /\ In k gridKeys)
  /\ (forall k0, In k0 gridKeys ->
        VariantA.currentHeight VariantA.init k0 = Some 0%float
        /\ Map_get sameKey (cubePositions (VariantB.world VariantB.init)) k0
           = Some 0%float)
  /\ keyOf <$> cubes (VariantA.world VariantA.init) !! 800%nat = Some k
  /\ Mesh.textured <$> cubes (VariantA.world s) !! 800%nat = Some false
  /\ VariantA.currentHeight s k = Some 0%float
  /\ Mesh.textured <$> cubes (VariantA.world s') !! 800%nat = Some true
  /\ tweens (VariantA.world s') = tweens (VariantA.world s) ++ [dropTween 800 nan]
  /\ VariantA.currentHeight s' k = Some 0%float
  /\ cubePositions (VariantA.world s')
     = cubePositions (VariantA.world s)
       ++ [(positionKey (Tween.round6 (coord 8)) (coord 0), nan)].
Proof.
  intros s s' k.
  destruct after_reset_frame
    as (H1 & H2 & H3 & H4 & H5 & H6 & H7 & H8 & H9 & H10 & H11 & H12).
  split; [split|].
  - apply run_reachable. constructor.
  - rewrite gridKeys_columns. apply in_flat_map. exists 8%nat.
    split; [apply in_seq; unfold gridCount; lia|].
    apply in_map_iff. exists 0%nat.
    split; [reflexivity|apply in_seq; unfold gridCount; lia].
  - split.
    + intros k0 Hk0. split.
      * exact (built_lookup_height _ k0 initA_built Hk0).
      * exact (built_lookup_height _ k0 initB_built Hk0).
    + exact (conj H1 (conj H2 (conj H5 (conj H8 (conj H11 (conj H9 H10)))))).
Qed.




(** C5 -- Drop target: a placement on a column of height [h] starts one
    drop tween from the top of the grid whose end value is
    [h*(cubeSize+spacing) - (gridSize/2)*(cubeSize+spacing)] in variant A,
    and the same with [h+1] for [h] in variant B, clamped to
    [boundaryMin, boundaryMax], where [boundaryMin] is
    [-(gridSize/2)*(cubeSize+spacing)] and [boundaryMax] is
    [(gridSize/2 - 1)*(cubeSize+spacing)]; with gridSize = 10,
    cubeSize = 0.5, spacing = 0.05 and [h = 0] the variant-A value before
    clamping is -2.75, which is [boundaryMin]. *)
Theorem C5_drop_target :
  let clamp z := Math_min boundaryMax (Math_max boundaryMin z) in
  (forall (s : VariantA.State) i cube h,
      cubes (VariantA.world s) !! i = Some cube -> Mesh.textured cube = false ->
      VariantA.currentHeight s (keyOf cube) = Some h ->
      tweens (VariantA.world (VariantA.onCubeClick s (Some i)))
      = tweens (VariantA.world s)
        ++ [Tween.mk i (Some ((gridSize / 2) * (cubeSize + spacing))) None None
              (Some (clamp (h * (cubeSize + spacing)
                            - (gridSize / 2) * (cubeSize + spacing))))
              1.5 "bounce.out"])%float
  /\ (forall (s : VariantB.State) i clicked h,
        cubes (VariantB.world s) !! i = Some clicked ->
        VariantB.currentHeight (VariantB.world s) (keyOf clicked) = h ->
        (h <? gridSize)%float = true ->
        tweens (VariantB.world (VariantB.onCubeClick s (Some i)))
        = tweens (VariantB.world s)
          ++ [Tween.mk (length (cubes (VariantB.world s)))
                (Some ((gridSize / 2) * (cubeSize + spacing))) None None
                (Some (clamp ((h + 1) * (cubeSize + spacing)
                              - (gridSize / 2) * (cubeSize + spacing))))
                1.5 "bounce.out"])%float
  /\ (boundaryMin = - (gridSize / 2) * (cubeSize + spacing)
      /\ boundaryMax = (gridSize / 2 - 1) * (cubeSize + spacing))%float
  /\ (gridSize = 10 /\ cubeSize = 0.5 /\ spacing = 0.05)%float
  /\ (0 * (cubeSize + spacing) - (gridSize / 2) * (cubeSize + spacing) = -2.75
      /\ boundaryMin = -2.75)%float.
Proof.
  cbv zeta. repeat apply conj; try reflexivity.
  - intros s i cube h Hc Ht Hh.
    rewrite (onCubeClick_untextured s i cube Hc Ht). cbv zeta.
    cbn [VariantA.world tweens]. now rewrite Hh.
  - intros s i clicked h Hc Hh Hlt. subst h.
    now rewrite (onCubeClick_place s i clicked Hc Hlt).
Qed.

Lemma C5_drop_target_witness :
  (tweens (VariantA.world (VariantA.onCubeClick VariantA.init (Some 0%nat)))
   = [Tween.mk 0 (Some 2.75) None None (Some (-2.75)) 1.5 "bounce.out"])%float.
Proof.
  assert (H : exists cube,
             cubes (VariantA.world VariantA.init) !! 0%nat = Some cube
             /\ Mesh.textured cube = false
             /\ VariantA.currentHeight VariantA.init (keyOf cube) = Some 0%float).
  { vm_compute. eexists. repeat split; reflexivity. }
  destruct H as (cube & Hc & Ht & Hh).
  rewrite (proj1 C5_drop_target VariantA.init 0%nat cube 0%float Hc Ht Hh).
  vm_compute. reflexivity.
Defined.

(** C6 -- Variant B: after a pointer move that hits a cube, the
    highlighted set holds exactly (and once each) the tracked cubes whose
    x and y are both within 0.001 of the hit cube's, and each of them is
    tinted with the highlight colour; a cube that was highlighted before
    the move and is not in the new set has its tint reset to 0; and when
    the ray cast hits nothing the highlighted set is empty. *)
Theorem C6_highlight_column (s : VariantB.State) :
  VariantB.highlightedCubes (VariantB.step s (VariantB.MouseMove None)) = []
  /\ (forall i hitCube,
        cubes (VariantB.world s) !! i = Some hitCube ->
        let s' := VariantB.step s (VariantB.MouseMove (Some i)) in
        (forall j,
            In j (VariantB.highlightedCubes s')
            <-> exists c,
                  cubes (VariantB.world s) !! j = Some c
                  /\ ((Math_abs (Vector3.x (Mesh.position c)
                                 - Vector3.x (Mesh.position hitCube)) <? 0.001)
                      && (Math_abs (Vector3.y (Mesh.position c)
                                    - Vector3.y (Mesh.position hitCube)) <? 0.001))%float
                     = true)
        /\ List.NoDup (VariantB.highlightedCubes s')
        /\ (forall j c,
              In j (VariantB.highlightedCubes s') ->
              cubes (VariantB.world s') !! j = Some c ->
              Material.emissive (Mesh.material c) = VariantB.highlightHex))
  /\ (forall hit j c,
        let s' := VariantB.step s (VariantB.MouseMove hit) in
        In j (VariantB.highlightedCubes s) ->
        ~ In j (VariantB.highlightedCubes s') ->
        cubes (VariantB.world s') !! j = Some c ->
        Material.emissive (Mesh.material c) = 0%N).
Proof.
  cbn [VariantB.step]. repeat apply conj.
  - rewrite onMouseMove_unfold. reflexivity.
  - intros i hitCube Hc. rewrite onMouseMove_unfold. cbv zeta.
    set (cleared := VariantB.clearHighlight (VariantB.highlightedCubes s)
                                            (cubes (VariantB.world s))).
    assert (Hi : exists ic, cleared !! i = Some ic
                            /\ Mesh.position ic = Mesh.position hitCube).
    { destruct (cleared !! i) as [ic|] eqn:E.
      - apply clearHighlight_Some in E as (c & Hc' & Hp & _).
        exists ic. split; [reflexivity|congruence].
      - exfalso. apply lookup_ge_None in E.
        apply lookup_lt_Some in Hc. unfold cleared in E.
        rewrite <- (length_map Mesh.position), clearHighlight_positions,
          length_map in E. lia. }
    destruct Hi as (ic & Hi & Hp). rewrite Hi, Hp.
    cbn [VariantB.highlightedCubes VariantB.world VariantB.setCubes cubes].
    set (tx := Vector3.x (Mesh.position hitCube)).
    set (ty := Vector3.y (Mesh.position hitCube)).
    repeat apply conj.
    + intros j. rewrite highlightLoop_indices. split.
      * intros (j' & c0 & -> & Hc0 & Hin). cbn in Hc0.
        apply clearHighlight_Some in Hc0 as (c & Hcj & Hpos & _).
        exists c. split; [exact Hcj|].
        change (VariantB.inColumn tx ty c = true).
        rewrite <- (inColumn_position tx ty c c0 Hpos). exact Hin.
      * intros (c & Hcj & Hin). change (VariantB.inColumn tx ty c = true) in Hin.
        destruct (lookup_lt_is_Some_2 cleared j) as [c0 Hc0].
        { unfold cleared.
          rewrite <- (length_map Mesh.position), clearHighlight_positions, length_map.
          eapply lookup_lt_Some, Hcj. }
        exists j, c0. repeat split; [exact Hc0|].
        apply clearHighlight_Some in Hc0 as (c1 & Hc1 & Hpos & _).
        rewrite Hcj in Hc1. injection Hc1 as <-.
        rewrite (inColumn_position tx ty c c0 Hpos). exact Hin.
    + apply highlightLoop_NoDup.
    + intros j c Hin Hc'. rewrite highlightLoop_cubes, map_fmap, list_lookup_fmap in Hc'.
      apply highlightLoop_indices in Hin as (j' & c0 & -> & Hc0 & Hcol).
      cbn in Hc0, Hc'. rewrite Hc0 in Hc'. cbn in Hc'. rewrite Hcol in Hc'.
      injection Hc' as <-. reflexivity.
  - intros hit j c Hold Hnew Hc'. rewrite onMouseMove_unfold in Hnew, Hc'.
    cbv zeta in Hnew, Hc'.
    set (cleared := VariantB.clearHighlight (VariantB.highlightedCubes s)
                                            (cubes (VariantB.world s))) in *.
    assert (Hz : forall c0, cleared !! j = Some c0 ->
              Material.emissive (Mesh.material c0) = 0%N).
    { intros c0 Hc0. apply clearHighlight_Some in Hc0 as (c1 & _ & _ & H1 & _).
      now rewrite (H1 Hold). }
    destruct hit as [i|]; [destruct (cleared !! i) as [ic|] eqn:Ei|];
      cbn [VariantB.highlightedCubes VariantB.world VariantB.setCubes cubes] in Hnew, Hc';
      try (now apply Hz).
    rewrite highlightLoop_cubes, map_fmap, list_lookup_fmap in Hc'.
    destruct (cleared !! j) as [c0|] eqn:Ej; [|discriminate]. cbn in Hc'.
    destruct (VariantB.inColumn _ _ c0) eqn:Hcol.
    + exfalso. apply Hnew, highlightLoop_indices.
      exists j, c0. repeat split; [exact Ej|exact Hcol].
    + injection Hc' as <-. now apply Hz.
Qed.

(** The highlight on a small scene: a column of three cubes at distinct
    z and one cube elsewhere; hovering the column tints the three only. *)
Example C6_synthetic_column :
  let cube px py pz :=
    Mesh.mk 0 (Material.mk 16777215 0.01 true None 0 false)
            (Vector3.mk px py pz) true true false in
  let w := mkWorld [cube 1 1 0; cube 1 1 1; cube 3 1 0; cube 1 1 2]%float [] [] [] [] in
  let s' := VariantB.step (VariantB.mkState w [] []) (VariantB.MouseMove (Some 1%nat)) in
  VariantB.highlightedCubes s' = [0; 1; 3]%nat
  /\ List.map (fun c => Material.emissive (Mesh.material c)) (cubes (VariantB.world s'))
     = [VariantB.highlightHex; VariantB.highlightHex; 0%N; VariantB.highlightHex].
Proof. vm_compute. split; reflexivity. Qed.

(** C7 (the code at the failing input) -- Variant B reads a column's
    height as the stored height, and as 0 when the key is absent
    ([get(...) || 0]).  Variant A reads the stored height with no default
    ([get(...)]), so an absent key reads as [undefined]; and a key is
    absent in a reachable state: after a reset and one frame of the engine
    the key of cube 800 is not in the map, the read is [undefined] where
    variant B's would be 0, and a click on the cube starts a drop tween
    towards NaN and stores NaN under the key. *)
Theorem C7_lookup_undefined_after_reset :
  (forall (w : World) k,
      Map_get sameKey (cubePositions w) k = None ->
      VariantB.currentHeight w k = 0%float)
  /\ (forall (s : VariantB.State) k h,
        VariantB.reachable s ->
        Map_get sameKey (cubePositions (VariantB.world s)) k = Some h ->
        VariantB.currentHeight (VariantB.world s) k = h)
  /\ (forall (s : VariantA.State) k,
        VariantA.currentHeight s k = Map_get sameKey (cubePositions (VariantA.world s)) k)
  /\ (let s := VariantA.run VariantA.init
                 [VariantA.MouseDown 2 None; VariantA.Frame 16 (fun _ => 0.5%float)] in
      let s' := VariantA.step s (VariantA.MouseDown 0 (Some 800%nat)) in
      let k' := positionKey (Tween.round6 (coord 8)) (coord 0) in
      VariantA.reachable s
      /\ keyOf <$> cubes (VariantA.world s) !! 800%nat = Some k'
      /\ Mesh.textured <$> cubes (VariantA.world s) !! 800%nat = Some false
      /\ VariantA.currentHeight s k' = None
      /\ toNumber (VariantA.currentHeight s k') = nan
      /\ VariantB.currentHeight (VariantA.world s) k' = 0%float
      /\ tweens (VariantA.world s') = tweens (VariantA.world s) ++ [dropTween 800 nan]
      /\ cubePositions (VariantA.world s') = cubePositions (VariantA.world s) ++ [(k', nan)]).
Proof.
  repeat apply conj.
  - intros w k H. unfold VariantB.currentHeight. now rewrite H.
  - intros s k h Hr Hget. pose proof (reachable_InvB s Hr) as I.
    destruct (Map_get_In sameKey _ _ _ Hget) as [k' Hin].
    destruct (proj1 (List.Forall_forall _ _) (invB_heights s I) _ Hin)
      as (n & Hn & Hv).
    cbn in Hv. subst h. exact (InvB_currentHeight s k n I Hn Hget).
  - reflexivity.
  - apply run_reachable. constructor.
  - exact (proj1 (proj2 (proj2 after_reset_frame))).
  - exact (proj1 (proj2 after_reset_frame)).
  - exact (proj1 (proj2 (proj2 (proj2 (proj2 (proj2 after_reset_frame)))))).
  - rewrite (proj1 (proj2 (proj2 (proj2 (proj2 (proj2 after_reset_frame)))))).
    reflexivity.
  - exact (proj1 (proj2 (proj2 (proj2 (proj2 (proj2 (proj2 after_reset_frame))))))).
  - exact (proj1 (proj2 (proj2 (proj2 (proj2 (proj2 (proj2 (proj2 (proj2 (proj2
             (proj2 after_reset_frame))))))))))).
  - exact (proj1 (proj2 (proj2 (proj2 (proj2 (proj2 (proj2 (proj2 (proj2 (proj2
             after_reset_frame)))))))))).
Qed.

(** C8 (as the code has it) -- Variant B: a successful placement appends
    exactly one new cube to the tracked list and to the scene and leaves
    every existing cube, the clicked one included, as it was; no event
    ever removes a cube or moves or retextures one (a pointer move only
    changes tints); and the accumulation is bounded: a column takes at
    most [gridSize] placements, so the list never holds more than
    2 * gridSize^3 = 2000 cubes. *)
Theorem C8_placed_cubes_accumulate (s : VariantB.State) (e : VariantB.Event) :
  VariantB.reachable s ->
  let s' := VariantB.step s e in
  (length (cubes (VariantB.world s)) <= length (cubes (VariantB.world s')))%nat
  /\ (forall j c, cubes (VariantB.world s) !! j = Some c ->
        exists c', cubes (VariantB.world s') !! j = Some c'
                   /\ VariantB.setEmissive 0%N c' = VariantB.setEmissive 0%N c)
  /\ (forall i clicked,
        e = VariantB.MouseDown 0 (Some i) ->
        cubes (VariantB.world s) !! i = Some clicked ->
        (VariantB.currentHeight (VariantB.world s) (keyOf clicked) <? gridSize)%float = true ->
        exists new,
          cubes (VariantB.world s') = cubes (VariantB.world s) ++ [new]
          /\ scene (VariantB.world s')
             = scene (VariantB.world s) ++ [CubeChild (length (cubes (VariantB.world s)))]
          /\ cubes (VariantB.world s') !! i = Some clicked
          /\ Mesh.textured new = true
          /\ Material.map (Mesh.material new) = Some cube_texture)
  /\ (length (cubes (VariantB.world s'))
      <= 2 * (gridCount * gridCount * gridCount))%nat.
Proof.
  intros Hr s'.
  assert (Hbound : forall t, VariantB.reachable t ->
            (length (cubes (VariantB.world t))
             <= 2 * (gridCount * gridCount * gridCount))%nat).
  { intros t Ht. pose proof (reachable_InvB t Ht) as I.
    rewrite (invB_count t I).
    pose proof (sumHeights_bound _ (invB_heights t I)) as Hs.
    rewrite <- (length_map fst), (invB_keys t I), gridKeys_length in Hs.
    unfold gridCount in *. lia. }
  assert (Hclick : forall hit,
            let t := VariantB.onCubeClick s hit in
            (exists extra, cubes (VariantB.world t) = cubes (VariantB.world s) ++ extra)).
  { intros [i|]; [|exists []; now rewrite app_nil_r].
    destruct (cubes (VariantB.world s) !! i) as [clicked|] eqn:Hc.
    - destruct ((VariantB.currentHeight (VariantB.world s) (keyOf clicked) <? VariantB.maxStackHeight)%float) eqn:Hlt.
      + cbv zeta. rewrite (onCubeClick_place s i clicked Hc Hlt). eexists. reflexivity.
      + cbv zeta. rewrite (onCubeClick_full s i clicked Hc Hlt).
        exists []. now rewrite app_nil_r.
    - cbv zeta. unfold VariantB.onCubeClick. rewrite Hc. exists []. now rewrite app_nil_r. }
  assert (Hkeep : forall j c, cubes (VariantB.world s) !! j = Some c ->
            exists c', cubes (VariantB.world s') !! j = Some c'
                       /\ VariantB.setEmissive 0%N c' = VariantB.setEmissive 0%N c).
  { intros j c Hc. unfold s'. destruct e as [button hit|hit]; cbn [VariantB.step].
    - unfold VariantB.mousedown.
      destruct button as [|[|[|button]]]; try (exists c; now split).
      destruct (Hclick hit) as [extra ->]. exists c.
      split; [now apply lookup_app_l_Some|reflexivity].
    - now apply onMouseMove_tint_only. }
  repeat apply conj.
  - apply Nat.nlt_ge. intros Hlt.
    destruct (lookup_lt_is_Some_2 (cubes (VariantB.world s))
                (length (cubes (VariantB.world s'))) Hlt) as [c Hc].
    destruct (Hkeep _ c Hc) as (c' & Hc' & _).
    apply lookup_lt_Some in Hc'. lia.
  - exact Hkeep.
  - intros i clicked -> Hc Hlt. unfold s'. cbn [VariantB.step VariantB.mousedown].
    rewrite (onCubeClick_place s i clicked Hc Hlt). cbv zeta.
    cbn [VariantB.world cubes scene]. eexists. repeat apply conj; try reflexivity.
    now apply lookup_app_l_Some.
  - apply Hbound. now constructor.
Qed.

Lemma C8_placed_cubes_witness :
  VariantB.reachable VariantB.init
  /\ (length (cubes (VariantB.world
                       (VariantB.step VariantB.init (VariantB.MouseDown 0 (Some 0%nat)))))
      <= 2 * (gridCount * gridCount * gridCount))%nat.
Proof.
  split; [exact VariantB.reach_init|].
  exact (proj2 (proj2 (proj2 (C8_placed_cubes_accumulate VariantB.init
           (VariantB.MouseDown 0 (Some 0%nat)) VariantB.reach_init)))).
Defined.

(** C8, as stated, fails: the placed cubes do not accumulate without
    bound, the tracked list never holds more than 2000 cubes. *)
Lemma C8_accumulation_is_bounded :
  exists N, forall s, VariantB.reachable s ->
    (length (cubes (VariantB.world s)) <= N)%nat.
Proof.
  exists (2 * (gridCount * gridCount * gridCount))%nat. intros s Hr.
  pose proof (reachable_InvB s Hr) as I. rewrite (invB_count s I).
  pose proof (sumHeights_bound _ (invB_heights s I)) as Hs.
  rewrite <- (length_map fst), (invB_keys s I), gridKeys_length in Hs.
  unfold gridCount in *. lia.
Qed.

(** C10 -- Variant B: for every stack height [h] a counter holds in a
    reachable state, [h >= 0] and the clamped drop target computed from
    [h + 1] is at least [boundaryMin + (cubeSize + spacing)]; so the cube
    spawned by a placement settles at least one layer above the bottom
    layer of the grid, whose z is [boundaryMin]. *)
Theorem C10_spawn_settles_above_base (s : VariantB.State) :
  VariantB.reachable s ->
  (forall k h,
      Map_get sameKey (cubePositions (VariantB.world s)) k = Some h ->
      (0 <=? h)%float = true
      /\ (boundaryMin + (cubeSize + spacing)
          <=? Math_min boundaryMax
                (Math_max boundaryMin
                   ((h + 1) * (cubeSize + spacing)
                    - (gridSize / 2) * (cubeSize + spacing))))%float = true)
  /\ (forall i clicked,
        cubes (VariantB.world s) !! i = Some clicked ->
        (VariantB.currentHeight (VariantB.world s) (keyOf clicked) <? gridSize)%float = true ->
        exists new,
          cubes (VariantB.world (VariantB.step s (VariantB.MouseDown 0 (Some i))))
            !! length (cubes (VariantB.world s)) = Some new
          /\ (boundaryMin + (cubeSize + spacing) <=? Vector3.z (Mesh.position new))%float
             = true
          /\ (boundaryMin <? Vector3.z (Mesh.position new))%float = true)
  /\ (coord 0 = boundaryMin
      /\ forallb (fun c => (boundaryMin <=? Vector3.z (Mesh.position c))%float)
                 (cubes (VariantB.world VariantB.init)) = true).
Proof.
  intros Hr. pose proof (reachable_InvB s Hr) as I.
  assert (Hh : forall k h,
            Map_get sameKey (cubePositions (VariantB.world s)) k = Some h ->
            exists n, (n <= gridCount)%nat /\ h = natToFloat n).
  { intros k h Hget. destruct (Map_get_In sameKey _ _ _ Hget) as [k' Hin].
    exact (proj1 (List.Forall_forall _ _) (invB_heights s I) _ Hin). }
  repeat apply conj.
  - intros k h Hget. destruct (Hh k h Hget) as (n & Hn & ->).
    split; [now apply natToFloat_nonneg|now apply drop_level_above_base].
  - intros i clicked Hc Hlt. cbn [VariantB.step VariantB.mousedown].
    rewrite (onCubeClick_place s i clicked Hc Hlt). cbv zeta.
    cbn [VariantB.world cubes]. eexists. split; [apply list_lookup_middle; reflexivity|].
    assert (Hk : In (keyOf clicked) gridKeys).
    { exact (proj1 (List.Forall_forall _ _) (invB_cube_keys s I) clicked
                   (lookup_In _ _ _ Hc)). }
    destruct (InvB_height s _ I Hk) as (n & Hn & Hget).
    rewrite (InvB_currentHeight s _ n I Hn Hget) in Hlt |- *.
    apply (natToFloat_lt_gridSize n Hn) in Hlt.
    destruct (drop_rest_bounds n Hlt) as (H1 & H2 & _).
    split; [exact H1|exact H2].
  - vm_compute. reflexivity.
  - vm_compute. reflexivity.
Qed.

Lemma C10_spawn_witness :
  VariantB.reachable VariantB.init
  /\ (boundaryMin + (cubeSize + spacing)
      <=? Math_min boundaryMax
            (Math_max boundaryMin
               ((0 + 1) * (cubeSize + spacing)
                - (gridSize / 2) * (cubeSize + spacing))))%float = true.
Proof.
  split; [exact VariantB.reach_init|].
  assert (H : Map_get sameKey (cubePositions (VariantB.world VariantB.init))
                      (positionKey (coord 0) (coord 0)) = Some 0%float)
    by (vm_compute; reflexivity).
  exact (proj2 (proj1 (C10_spawn_settles_above_base VariantB.init VariantB.reach_init)
                      _ _ H)).
Defined.
End Claims.

(** * Beyond the claims *)

(** ** The clamp, on every number *)

Section Clamp.
Import Js Cube Inv Cover.
#[local] Open Scope float_scope.

Lemma SFcompare_antisym (a b : spec_float) (c : comparison) :
  SFcompare a b = Some c -> SFcompare b a = Some (CompOpp c).
Proof.
  destruct a as [sa|sa| |sa ma ea], b as [sb|sb| |sb mb eb]; cbn;
    try discriminate;
    try (destruct sa; intros [= <-]; reflexivity);
    try (destruct sb; intros [= <-]; reflexivity);
    try (intros [= <-]; reflexivity).
  - destruct sa, sb; intros [= <-]; reflexivity.
  - destruct sa, sb; intros [= <-]; try reflexivity.
    + rewrite (Z.compare_antisym ea eb).
      destruct (Z.compare ea eb); cbn; try reflexivity.
      rewrite (Pos.compare_cont_antisym mb ma Eq). cbn.
      now rewrite CompOpp_involutive.
    + rewrite (Z.compare_antisym ea eb).
      destruct (Z.compare ea eb); cbn; try reflexivity.
      now rewrite (Pos.compare_cont_antisym ma mb Eq).
Qed.

Lemma not_nan_compare (x y : float) :
  is_nan x = false -> is_nan y = false ->
  exists c, SFcompare (Prim2SF x) (Prim2SF y) = Some c.
Proof.
  unfold is_nan. rewrite !FloatAxioms.eqb_spec. unfold SFeqb.
  destruct (Prim2SF x), (Prim2SF y); cbn; try discriminate; eexists; reflexivity.
Qed.

Lemma ltb_leb (x y : float) : (x <? y) = true -> (x <=? y) = true.
Proof.
  rewrite ltb_spec, leb_spec. unfold SFltb, SFleb.
  destruct (SFcompare _ _) as [[]|]; auto.
Qed.

Lemma neither_less (x y : float) :
  is_nan x = false -> is_nan y = false ->
  (x <? y) = false -> (y <? x) = false ->
  (x <=? y) = true /\ (y <=? x) = true.
Proof.
  intros Hx Hy. destruct (not_nan_compare x y Hx Hy) as [c Hc].
  pose proof (SFcompare_antisym _ _ _ Hc) as Hc'.
  rewrite !ltb_spec, !leb_spec. unfold SFltb, SFleb. rewrite Hc, Hc'.
  destruct c; cbn; auto; discriminate.
Qed.

Lemma Math_max_boundaryMin (z : float) :
  is_nan z = false ->
  (Math_max boundaryMin z = z /\ (boundaryMin <=? z) = true)
  \/ (Math_max boundaryMin z = boundaryMin /\ (z <? boundaryMin) = true).
Proof.
  intros Hz. unfold Math_max.
  replace (is_nan boundaryMin) with false by (vm_compute; reflexivity).
  rewrite Hz. cbn [orb].
  destruct (boundaryMin <? z) eqn:H1; [left; split; [reflexivity|now apply ltb_leb]|].
  destruct (z <? boundaryMin) eqn:H2; [right; now split|].
  replace (get_sign boundaryMin) with true by (vm_compute; reflexivity).
  left. split; [reflexivity|].
  apply neither_less; auto; vm_compute; reflexivity.
Qed.

Lemma Math_min_boundaryMax (m : float) :
  is_nan m = false ->
  (Math_min boundaryMax m = m /\ (m <=? boundaryMax) = true)
  \/ (Math_min boundaryMax m = boundaryMax /\ (boundaryMax <? m) = true).
Proof.
  intros Hm. unfold Math_min.
  replace (is_nan boundaryMax) with false by (vm_compute; reflexivity).
  rewrite Hm. cbn [orb].
  destruct (boundaryMax <? m) eqn:H1; [right; now split|].
  destruct (m <? boundaryMax) eqn:H2; [left; split; [reflexivity|now apply ltb_leb]|].
  replace (get_sign boundaryMax) with false by (vm_compute; reflexivity).
  left. split; [reflexivity|].
  apply neither_less; auto; vm_compute; reflexivity.
Qed.

(** X1 -- [Math.min(boundaryMax, Math.max(boundaryMin, z))] on every
    number [z] that is not NaN lies between [boundaryMin] and
    [boundaryMax], and clamping a clamped value changes nothing. *)
Theorem X1_constrain_within_bounds (z : float) :
  is_nan z = false ->
  (boundaryMin <=? constrain z) = true
  /\ (constrain z <=? boundaryMax) = true
  /\ constrain (constrain z) = constrain z.
Proof.
  intros Hz.
  assert (Hc : (constrain z = z /\ (boundaryMin <=? z) = true
                /\ (z <=? boundaryMax) = true)
               \/ constrain z = boundaryMax \/ constrain z = boundaryMin).
  { unfold constrain.
    destruct (Math_max_boundaryMin z Hz) as [[-> Hlo]|[-> _]].
    - destruct (Math_min_boundaryMax z Hz) as [[E Hhi]|[E _]]; rewrite E; auto.
    - right. right. vm_compute. reflexivity. }
  destruct Hc as [(E & Hlo & Hhi)|[E|E]]; rewrite !E.
  - auto.
  - repeat split; vm_compute; reflexivity.
  - repeat split; vm_compute; reflexivity.
Qed.

Lemma X1_constrain_witness :
  is_nan 0 = false /\ (boundaryMin <=? constrain 0) = true.
Proof.
  assert (H : is_nan 0 = false) by (vm_compute; reflexivity).
  split; [exact H|]. exact (proj1 (X1_constrain_within_bounds 0 H)).
Defined.

(** X2 -- When the computed target is NaN the clamp does not repair it:
    the value handed to the tween is NaN. *)
Theorem X2_constrain_nan (z : float) :
  is_nan z = true -> constrain z = nan.
Proof.
  intros Hz. unfold constrain, Math_max. rewrite Hz, orb_true_r.
  vm_compute. reflexivity.
Qed.

Lemma X2_constrain_nan_witness : is_nan nan = true /\ constrain nan = nan.
Proof.
  assert (H : is_nan nan = true) by (vm_compute; reflexivity).
  split; [exact H|]. exact (X2_constrain_nan nan H).
Defined.
End Clamp.

(** ** The grid construction *)

Section GridCover.
Import Js Cube Inv Cover.

Lemma createCube_table opacityAt x y z (w : World) :
  (forall i, Map_get Nat.eqb (originalPositions w) i = Mesh.position <$> cubes w !! i) ->
  forall i, Map_get Nat.eqb (originalPositions (createCube opacityAt x y z w)) i
            = Mesh.position <$> cubes (createCube opacityAt x y z w) !! i.
Proof.
  intros Hw i. unfold createCube. cbn [cubes originalPositions].
  assert (Heq : forall a b : nat, True -> True -> (Nat.eqb a b = true <-> a = b))
    by (intros a b _ _; apply Nat.eqb_eq).
  destruct (decide (i = length (cubes w))) as [->|Hne].
  - rewrite list_lookup_middle by reflexivity. cbn.
    now apply (Map_get_set_same Nat.eqb (fun _ => True) Heq).
  - rewrite (Map_get_set_other Nat.eqb (fun _ => True) Heq); auto.
    + rewrite Hw. destruct (decide (i < length (cubes w))%nat) as [Hlt|Hge].
      * now rewrite lookup_app_l.
      * rewrite !(proj2 (lookup_ge_None _ _)); [reflexivity| |lia].
        rewrite length_app. cbn. lia.
    + apply List.Forall_forall. auto.
Qed.

Lemma buildGrid_table (opacityAt : float -> float) (i : nat) :
  Map_get Nat.eqb (originalPositions (buildGrid opacityAt)) i
  = Mesh.position <$> cubes (buildGrid opacityAt) !! i.
Proof.
  revert i. with_strategy transparent [buildGrid] unfold buildGrid.
  apply (forRange_inv (fun w => forall i,
           Map_get Nat.eqb (originalPositions w) i = Mesh.position <$> cubes w !! i));
    [|reflexivity].
  intros x w Hw. apply (forRange_inv (fun w => forall i,
           Map_get Nat.eqb (originalPositions w) i = Mesh.position <$> cubes w !! i));
    [|exact Hw].
  intros y w' Hw'. apply (forRange_inv (fun w => forall i,
           Map_get Nat.eqb (originalPositions w) i = Mesh.position <$> cubes w !! i));
    [|exact Hw'].
  intros z w'' Hw''. exact (createCube_table opacityAt x y z w'' Hw'').
Qed.

Lemma lights_table (w : World) (i : nat) :
  Map_get Nat.eqb (originalPositions w) i = Mesh.position <$> cubes w !! i ->
  Map_get Nat.eqb
    (originalPositions
       (mkWorld (cubes w) (originalPositions w) (cubePositions w)
                (scene w ++ [DirectionalLight; AmbientLight]) (tweens w))) i
  = Mesh.position
      <$> cubes (mkWorld (cubes w) (originalPositions w) (cubePositions w)
                         (scene w ++ [DirectionalLight; AmbientLight]) (tweens w)) !! i.
Proof. intros H. exact H. Qed.

(** X3 -- The original-position table built at startup maps exactly the
    cubes created, each to the position it was created at: a lookup for
    any other object finds nothing.  This holds whatever the initial
    opacity, so for both variants. *)
Theorem X3_original_positions_table (opacityAt : float -> float) (i : nat) :
  Map_get Nat.eqb (originalPositions (startup opacityAt)) i
  = Mesh.position <$> cubes (startup opacityAt) !! i.
Proof.
  exact (lights_table (buildGrid opacityAt) i (buildGrid_table opacityAt i)).
Qed.

Lemma grid_positions_A :
  List.map Mesh.position (cubes (VariantA.world VariantA.init))
  = List.map (fun i => gridPosition (i / (gridCount * gridCount))
                                    ((i / gridCount) mod gridCount)
                                    (i mod gridCount))
             (seq 0 gridCubes).
Proof. vm_compute. reflexivity. Qed.

Lemma grid_positions_B :
  List.map Mesh.position (cubes (VariantB.world VariantB.init))
  = List.map (fun i => gridPosition (i / (gridCount * gridCount))
                                    ((i / gridCount) mod gridCount)
                                    (i mod gridCount))
             (seq 0 gridCubes).
Proof. vm_compute. reflexivity. Qed.

Lemma coord_distinct_check :
  forallb (fun a => forallb (fun b =>
             Bool.eqb (sameNumberString (coord a) (coord b)) (Nat.eqb a b))
             (seq 0 gridCount)) (seq 0 gridCount) = true.
Proof. vm_compute. reflexivity. Qed.

Lemma coord_same (a b : nat) :
  (a < gridCount)%nat -> (b < gridCount)%nat ->
  sameNumberString (coord a) (coord b) = Nat.eqb a b.
Proof.
  intros Ha Hb.
  pose proof (proj1 (forallb_forall _ _) coord_distinct_check a) as H.
  cbv beta in H.
  assert (Hina : In a (seq 0 gridCount)) by (apply in_seq; lia).
  assert (Hinb : In b (seq 0 gridCount)) by (apply in_seq; lia).
  pose proof (proj1 (forallb_forall _ _) (H Hina) b Hinb) as H'.
  cbv beta in H'. now apply Bool.eqb_prop in H'.
Qed.

Lemma coord_inj (a b : nat) :
  (a < gridCount)%nat -> (b < gridCount)%nat -> coord a = coord b -> a = b.
Proof.
  intros Ha Hb E. apply Nat.eqb_eq. rewrite <- (coord_same a b Ha Hb), E.
  rewrite (coord_same b b Hb Hb). apply Nat.eqb_refl.
Qed.

Lemma grid_index_parts (i j : nat) :
  (i < gridCubes)%nat -> (j < gridCubes)%nat ->
  (i / (gridCount * gridCount) < gridCount
   /\ (i / gridCount) mod gridCount < gridCount
   /\ i mod gridCount < gridCount)%nat
  /\ (i / (gridCount * gridCount) = j / (gridCount * gridCount) ->
      (i / gridCount) mod gridCount = (j / gridCount) mod gridCount ->
      i mod gridCount = j mod gridCount -> i = j).
Proof.
  unfold gridCubes, gridCount. intros Hi Hj.
  change (10 * 10)%nat with 100%nat.
  pose proof (Nat.div_mod_eq i 10). pose proof (Nat.div_mod_eq j 10).
  pose proof (Nat.div_mod_eq (i / 10) 10). pose proof (Nat.div_mod_eq (j / 10) 10).
  pose proof (Nat.Div0.div_div i 10 10) as Di.
  pose proof (Nat.Div0.div_div j 10 10) as Dj.
  change (10 * 10)%nat with 100%nat in Di, Dj.
  pose proof (Nat.mod_upper_bound i 10). pose proof (Nat.mod_upper_bound (i / 10) 10).
  assert (i / 100 < 10)%nat by (apply Nat.Div0.div_lt_upper_bound; lia).
  split; [lia|]. intros E1 E2 E3. rewrite <- Di, <- Dj in E1. lia.
Qed.

(** X4 -- Grid construction: the cube created in iteration (x, y, z) is
    cube number (x * gridSize + y) * gridSize + z of the tracked list and
    sits at ((x - gridSize/2) * (cubeSize + spacing), (y - ...), (z - ...)),
    in both variants; no two cubes are created at the same position. *)
Theorem X4_grid_positions (i : nat) :
  (i < gridCubes)%nat ->
  let p := gridPosition (i / (gridCount * gridCount))
                        ((i / gridCount) mod gridCount) (i mod gridCount) in
  Mesh.position <$> cubes (VariantA.world VariantA.init) !! i = Some p
  /\ Mesh.position <$> cubes (VariantB.world VariantB.init) !! i = Some p
  /\ p = Vector3.mk
           ((natToFloat (i / (gridCount * gridCount)) - gridSize / 2) * (cubeSize + spacing))
           ((natToFloat ((i / gridCount) mod gridCount) - gridSize / 2) * (cubeSize + spacing))
           ((natToFloat (i mod gridCount) - gridSize / 2) * (cubeSize + spacing))%float
  /\ forall j, (j < gridCubes)%nat -> j <> i ->
       Mesh.position <$> cubes (VariantA.world VariantA.init) !! j <> Some p
       /\ Mesh.position <$> cubes (VariantB.world VariantB.init) !! j <> Some p.
Proof.
  intros Hi p.
  assert (HA : forall j, (j < gridCubes)%nat ->
            Mesh.position <$> cubes (VariantA.world VariantA.init) !! j
            = Some (gridPosition (j / (gridCount * gridCount))
                                 ((j / gridCount) mod gridCount) (j mod gridCount))).
  { intros j Hj. pose proof grid_positions_A as E.
    rewrite (map_fmap _ (cubes (VariantA.world VariantA.init))), (map_fmap _ (seq 0 gridCubes)) in E.
    rewrite <- list_lookup_fmap, E, list_lookup_fmap, lookup_seq_lt by exact Hj.
    reflexivity. }
  assert (HB : forall j, (j < gridCubes)%nat ->
            Mesh.position <$> cubes (VariantB.world VariantB.init) !! j
            = Some (gridPosition (j / (gridCount * gridCount))
                                 ((j / gridCount) mod gridCount) (j mod gridCount))).
  { intros j Hj. pose proof grid_positions_B as E.
    rewrite (map_fmap _ (cubes _)), (map_fmap _ (seq 0 gridCubes)) in E.
    rewrite <- list_lookup_fmap, E, list_lookup_fmap, lookup_seq_lt by exact Hj.
    reflexivity. }
  repeat apply conj; [exact (HA i Hi)|exact (HB i Hi)|reflexivity|].
  intros j Hj Hne.
  assert (Hdiff : gridPosition (j / (gridCount * gridCount))
                    ((j / gridCount) mod gridCount) (j mod gridCount) <> p).
  { unfold p, gridPosition. intros [= E1 E2 E3].
    destruct (grid_index_parts i j Hi Hj) as [(B1 & B2 & B3) Hinj].
    destruct (grid_index_parts j i Hj Hi) as [(C1 & C2 & C3) _].
    apply Hne. symmetry. apply Hinj; symmetry; now apply coord_inj. }
  rewrite (HA j Hj), (HB j Hj). split; intros E; apply Hdiff; congruence.
Qed.

Lemma X4_grid_positions_witness :
  (123 < gridCubes)%nat
  /\ Mesh.position <$> cubes (VariantA.world VariantA.init) !! 123%nat = Some (gridPosition 1 2 3).
Proof.
  assert (H : (123 < gridCubes)%nat) by (vm_compute; lia).
  split; [exact H|]. exact (proj1 (X4_grid_positions 123 H)).
Defined.

(** X5 -- [positionKey] tells the columns of the grid apart: the keys of
    two grid columns are the same string exactly when the columns are the
    same, and the columns registered at startup are the gridSize^2 pairs
    of grid coordinates. *)
Theorem X5_position_keys_of_columns (a b a' b' : nat) :
  (a < gridCount)%nat -> (b < gridCount)%nat ->
  (a' < gridCount)%nat -> (b' < gridCount)%nat ->
  sameKey (positionKey (coord a) (coord b)) (positionKey (coord a') (coord b'))
  = (Nat.eqb a a' && Nat.eqb b b')
  /\ In (positionKey (coord a) (coord b)) gridKeys
  /\ List.map fst (cubePositions (VariantA.world VariantA.init)) = gridKeys
  /\ List.map fst (cubePositions (VariantB.world VariantB.init)) = gridKeys
  /\ length gridKeys = (gridCount * gridCount)%nat.
Proof.
  intros Ha Hb Ha' Hb'. split; [|split; [|split; [|split]]].
  - unfold sameKey, positionKey. cbn [fst snd].
    now rewrite (coord_same a a'), (coord_same b b').
  - rewrite gridKeys_columns. apply in_flat_map. exists a.
    split; [apply in_seq; lia|].
    apply (in_map (fun b => positionKey (coord a) (coord b))). apply in_seq. lia.
  - exact (proj1 (proj2 initA_built)).
  - exact (proj1 (proj2 initB_built)).
  - exact gridKeys_length.
Qed.

Lemma X5_position_keys_witness :
  (1 < gridCount)%nat /\ (2 < gridCount)%nat
  /\ sameKey (positionKey (coord 1) (coord 2)) (positionKey (coord 2) (coord 1)) = false.
Proof.
  assert (H1 : (1 < gridCount)%nat) by (vm_compute; lia).
  assert (H2 : (2 < gridCount)%nat) by (vm_compute; lia).
  split; [exact H1|split; [exact H2|]].
  exact (proj1 (X5_position_keys_of_columns 1 2 2 1 H1 H2 H2 H1)).
Defined.
End GridCover.

(** ** Variant A, beyond the claims *)

Section VariantACover.
Import Js Cube Inv Cover.

(** X6 -- Variant A, as long as the reset has not been used: after any
    run of clicks and frames from startup the counter of a column is the
    number of textured cubes of that column, which is at most the gridSize
    cubes the column has. *)
Theorem X6_counter_counts_textured (es : list VariantA.Event) (k : Key) :
  forallb (fun e => negb (pressesUndo e)) es = true -> In k gridKeys ->
  let s := VariantA.run VariantA.init es in
  VariantA.currentHeight s k
  = Some (natToFloat (texturedIn k (cubes (VariantA.world s))))
  /\ (texturedIn k (cubes (VariantA.world s))
      <= cubesIn k (List.map keyOf (cubes (VariantA.world s))))%nat
  /\ cubesIn k (List.map keyOf (cubes (VariantA.world s))) = gridCount.
Proof.
  intros Hes Hk s. pose proof (InvA_run es VariantA.init Hes InvA_init) as I.
  fold s in I.
  split; [exact (invA_counts s I k Hk)|].
  split; [apply texturedIn_le|].
  rewrite (proj1 (invA_columns s I)). exact (grid_column_size k Hk).
Qed.

Lemma X6_counter_witness :
  let es := [VariantA.MouseDown 0 (Some 0%nat);
             VariantA.Frame 16 (fun _ => 0.5%float);
             VariantA.MouseDown 0 (Some 3%nat)] in
  let k := positionKey (coord 0) (coord 0) in
  let s := VariantA.run VariantA.init es in
  In k gridKeys
  /\ VariantA.currentHeight s k
     = Some (natToFloat (texturedIn k (cubes (VariantA.world s)))).
Proof.
  intros es k s.
  assert (Hes : forallb (fun e => negb (pressesUndo e)) es = true) by reflexivity.
  assert (Hk : In k gridKeys) by (vm_compute; left; reflexivity).
  split; [exact Hk|].
  exact (proj1 (X6_counter_counts_textured es k Hes Hk)).
Defined.

Lemma initA_materials :
  List.map (fun c => (Mesh.textured c, Material.map (Mesh.material c),
                      Material.opacity (Mesh.material c)))
           (cubes (VariantA.world VariantA.init))
  = repeat (false, None, 0.1%float) gridCubes.
Proof. vm_compute. reflexivity. Qed.

Lemma flagAgrees_init : Forall flagAgrees (cubes (VariantA.world VariantA.init)).
Proof.
  apply List.Forall_forall. intros c Hc.
  apply (in_map (fun c => (Mesh.textured c, Material.map (Mesh.material c),
                           Material.opacity (Mesh.material c)))) in Hc.
  rewrite initA_materials in Hc. apply repeat_spec in Hc.
  injection Hc as Ht Hm Ho. unfold flagAgrees. rewrite Ht. now split.
Qed.

(** A property of a cube that a move does not change is kept by a frame. *)
Lemma onFrame_Forall (P : Mesh.t -> Prop) (s : VariantA.State) dt ratio :
  (forall c p, P c -> P (Mesh.set_position p c)) ->
  Forall P (cubes (VariantA.world s)) ->
  Forall P (cubes (VariantA.world (VariantA.onFrame s dt ratio))).
Proof.
  intros HP H.
  destruct (onFrame_moved false s dt ratio) as (_ & _ & _ & _ & L & M);
    [discriminate|].
  apply Forall_lookup. intros j c' Hc'.
  pose proof (lookup_lt_Some _ _ _ Hc') as Hlt. rewrite L in Hlt.
  destruct (lookup_lt_is_Some_2 _ _ Hlt) as [c Hc].
  destruct (M j c Hc) as (c'' & Hc'' & [E _]).
  rewrite Hc' in Hc''. injection Hc'' as <-. rewrite E.
  apply HP. exact (proj1 (Forall_lookup _ _) H j c Hc).
Qed.

Lemma flagAgrees_step (s : VariantA.State) e :
  InvAll s -> Forall flagAgrees (cubes (VariantA.world s)) ->
  Forall flagAgrees (cubes (VariantA.world (VariantA.step s e))).
Proof.
  intros I H. destruct e as [button hit|dt ratio]; cbn [VariantA.step].
  - unfold VariantA.mousedown.
    destruct button as [|[|[|button]]]; try exact H.
    + destruct (onCubeClick_cases s hit) as [->|(i & cube & -> & Hc & Ht)];
        [exact H|].
      rewrite (onCubeClick_untextured s i cube Hc Ht). cbv zeta.
      cbn [VariantA.world cubes].
      apply Forall_insert; [exact H|]. unfold flagAgrees. cbn. now split.
    + destruct (onUndo_ok s (all_length s I) (all_table s I)) as (new & _ & -> & _).
      cbn [VariantA.world cubes]. apply List.Forall_forall. intros c Hc.
      apply in_map_iff in Hc as (c1 & <- & _). unfold flagAgrees. cbn. now split.
  - apply onFrame_Forall; [|exact H]. intros c p Hc. exact Hc.
Qed.

(** X7 -- Variant A: in every reachable state the [textured] flag of a
    cube and its material agree: a textured cube carries the texture map
    at opacity 1, any other cube has no map and opacity 0.1. *)
Theorem X7_flag_agrees_with_material (s : VariantA.State) (i : nat) (c : Mesh.t) :
  VariantA.reachable s -> cubes (VariantA.world s) !! i = Some c ->
  (Mesh.textured c = true ->
     Material.map (Mesh.material c) = Some cube_texture
     /\ Material.opacity (Mesh.material c) = 1%float)
  /\ (Mesh.textured c = false ->
       Material.map (Mesh.material c) = None
       /\ Material.opacity (Mesh.material c) = 0.1%float).
Proof.
  intros Hr Hc.
  assert (H : Forall flagAgrees (cubes (VariantA.world s))).
  { clear Hc. induction Hr as [|s e Hr IH]; [exact flagAgrees_init|].
    apply flagAgrees_step; [now apply reachable_InvAll|exact IH]. }
  pose proof (proj1 (Forall_lookup _ _) H i c Hc) as Hf. unfold flagAgrees in Hf.
  destruct (Mesh.textured c); split; intros; try discriminate; exact Hf.
Qed.

Lemma X7_flag_witness :
  let s := VariantA.step VariantA.init (VariantA.MouseDown 0 (Some 0%nat)) in
  exists c, cubes (VariantA.world s) !! 0%nat = Some c
            /\ Material.opacity (Mesh.material c) = 1%float.
Proof.
  intros s.
  assert (Hr : VariantA.reachable s) by exact (VariantA.reach_step _ _ VariantA.reach_init).
  assert (H : exists c, cubes (VariantA.world s) !! 0%nat = Some c
                        /\ Mesh.textured c = true).
  { vm_compute. eexists. split; reflexivity. }
  destruct H as (c & Hc & Ht). exists c. split; [exact Hc|].
  exact (proj2 (proj1 (X7_flag_agrees_with_material s 0 c Hr Hc) Ht)).
Defined.

Lemma sameShell_step (s : VariantA.State) e :
  InvAll s ->
  (forall i c c0, cubes (VariantA.world s) !! i = Some c ->
                  cubes (VariantA.world VariantA.init) !! i = Some c0 ->
                  sameShell c0 c) ->
  forall i c c0, cubes (VariantA.world (VariantA.step s e)) !! i = Some c ->
                 cubes (VariantA.world VariantA.init) !! i = Some c0 -> sameShell c0 c.
Proof.
  intros I H. destruct e as [button hit|dt ratio]; cbn [VariantA.step].
  - unfold VariantA.mousedown.
    destruct button as [|[|[|button]]]; try exact H.
    + destruct (onCubeClick_cases s hit) as [->|(i & cube & -> & Hc & Ht)];
        [exact H|].
      rewrite (onCubeClick_untextured s i cube Hc Ht). cbv zeta.
      cbn [VariantA.world cubes].
      intros j c c0 Hj Hc0. destruct (decide (j = i)) as [->|Hne].
      * rewrite list_lookup_insert_eq in Hj by (eapply lookup_lt_Some, Hc).
        injection Hj as <-. exact (H i cube c0 Hc Hc0).
      * rewrite list_lookup_insert_ne in Hj by congruence. exact (H j c c0 Hj Hc0).
    + destruct (onUndo_ok s (all_length s I) (all_table s I)) as (new & _ & -> & _).
      cbn [VariantA.world cubes]. intros j c' c0 Hc' Hc0.
      rewrite map_fmap, list_lookup_fmap in Hc'.
      destruct (cubes (VariantA.world s) !! j) as [c|] eqn:Hc; [|discriminate].
      cbn in Hc'. injection Hc' as <-. exact (H j c c0 Hc Hc0).
  - destruct (onFrame_moved false s dt ratio) as (_ & _ & _ & _ & L & M);
      [discriminate|].
    intros j c' c0 Hc' Hc0.
    pose proof (lookup_lt_Some _ _ _ Hc') as Hlt. rewrite L in Hlt.
    destruct (lookup_lt_is_Some_2 _ _ Hlt) as [c Hc].
    destruct (M j c Hc) as (c'' & Hc'' & [E _]).
    rewrite Hc' in Hc''. injection Hc'' as <-. rewrite E.
    pose proof (H j c c0 Hc Hc0) as Hs. unfold sameShell in *. exact Hs.
Qed.

(** X8 -- Variant A never creates or removes a cube: in every reachable
    state the tracked list has the gridSize^3 cubes of startup, the scene
    and the original-position table are those of startup, the columns of
    the grid are still keys of the counter map, and each cube differs from
    what it was at startup at most in its position, texture map, opacity,
    [needsUpdate] and flag. *)
Theorem X8_variantA_frame (s : VariantA.State) :
  VariantA.reachable s ->
  length (cubes (VariantA.world s)) = gridCubes
  /\ scene (VariantA.world s) = scene (VariantA.world VariantA.init)
  /\ originalPositions (VariantA.world s)
     = originalPositions (VariantA.world VariantA.init)
  /\ (forall k, In k gridKeys ->
        Map_has sameKey (cubePositions (VariantA.world s)) k = true)
  /\ forall i c c0, cubes (VariantA.world s) !! i = Some c ->
       cubes (VariantA.world VariantA.init) !! i = Some c0 ->
       sameShell c0 c.
Proof.
  intros Hr. pose proof (reachable_InvAll s Hr) as I.
  split; [|split; [exact (all_scene s I)|split; [exact (all_table s I)|split;
    [exact (all_columns s I)|]]]].
  - rewrite (all_length s I).
    exact (proj1 (proj2 (proj2 (proj2 (proj2 (proj2 initA_built)))))).
  - clear I. induction Hr as [|s e Hr IH].
    + intros i c c0 Hc Hc0. rewrite Hc in Hc0. injection Hc0 as <-.
      repeat split.
    + apply sameShell_step; [now apply reachable_InvAll|exact IH].
Qed.

Lemma X8_frame_witness :
  let s := VariantA.run VariantA.init
             [VariantA.MouseDown 0 (Some 5%nat); VariantA.MouseDown 2 None;
              VariantA.Frame 16 (fun _ => 0.5%float)] in
  VariantA.reachable s /\ length (cubes (VariantA.world s)) = gridCubes.
Proof.
  intros s.
  assert (Hr : VariantA.reachable s) by (apply run_reachable; constructor).
  split; [exact Hr|]. exact (proj1 (X8_variantA_frame s Hr)).
Defined.

Lemma Map_get_app_has {V : Type} (m : list (Key * V)) k k' (v : V) :
  Map_has sameKey m k = true ->
  Map_get sameKey (m ++ [(k', v)]) k = Map_get sameKey m k.
Proof.
  unfold Map_has. induction m as [|[k0 v0] m IH]; cbn [app Map_get]; [discriminate|].
  destruct (sameKey k0 k); [reflexivity|exact IH].
Qed.

Lemma Map_get_app_new {V : Type} (m : list (Key * V)) k (v : V) :
  Map_has sameKey m k = false ->
  Map_get sameKey (m ++ [(k, v)]) k = Some v.
Proof.
  unfold Map_has. induction m as [|[k0 v0] m IH]; cbn [app Map_get].
  - now rewrite sameKey_refl.
  - destruct (sameKey k0 k); [discriminate|exact IH].
Qed.

(** X9 -- Variant A: a click on a cube that is not textured yet and whose
    key is not in the counter map reads [undefined]: it starts a drop
    tween towards NaN, appends the key to the map with the value NaN, and
    leaves every counter that was in the map as it was. *)
Theorem X9_click_on_unregistered_key (s : VariantA.State) (i : nat) (cube : Mesh.t) :
  cubes (VariantA.world s) !! i = Some cube -> Mesh.textured cube = false ->
  VariantA.currentHeight s (keyOf cube) = None ->
  let s' := VariantA.step s (VariantA.MouseDown 0 (Some i)) in
  tweens (VariantA.world s') = tweens (VariantA.world s) ++ [dropTween i nan]
  /\ cubePositions (VariantA.world s')
     = cubePositions (VariantA.world s) ++ [(keyOf cube, nan)]
  /\ VariantA.currentHeight s' (keyOf cube) = Some nan
  /\ (forall k, Map_has sameKey (cubePositions (VariantA.world s)) k = true ->
        VariantA.currentHeight s' k = VariantA.currentHeight s k)
  /\ Mesh.textured <$> cubes (VariantA.world s') !! i = Some true.
Proof.
  intros Hc Ht Hnone s'. unfold s'. cbn [VariantA.step VariantA.mousedown].
  rewrite (onCubeClick_untextured s i cube Hc Ht). cbv zeta. rewrite Hnone.
  unfold VariantA.currentHeight in *. cbn [VariantA.world tweens cubePositions cubes].
  assert (Hhas : Map_has sameKey (cubePositions (VariantA.world s)) (keyOf cube) = false)
    by (unfold Map_has; now rewrite Hnone).
  rewrite (Map_set_new sameKey _ (keyOf cube) _ Hhas).
  split; [reflexivity|]. split; [reflexivity|]. split.
  { now apply Map_get_app_new. }
  split; [intros k Hk; now apply Map_get_app_has|].
  rewrite list_lookup_insert_eq by (eapply lookup_lt_Some, Hc). reflexivity.
Qed.

Lemma X9_unregistered_key_witness :
  let s := VariantA.run VariantA.init
             [VariantA.MouseDown 2 None; VariantA.Frame 16 (fun _ => 0.5%float)] in
  let s' := VariantA.step s (VariantA.MouseDown 0 (Some 800%nat)) in
  tweens (VariantA.world s') = tweens (VariantA.world s) ++ [dropTween 800 nan].
Proof.
  intros s s'.
  assert (H : exists cube, cubes (VariantA.world s) !! 800%nat = Some cube
                           /\ Mesh.textured cube = false
                           /\ VariantA.currentHeight s (keyOf cube) = None).
  { vm_compute. eexists. repeat split. }
  destruct H as (cube & Hc & Ht & Hn).
  exact (proj1 (X9_click_on_unregistered_key s 800 cube Hc Ht Hn)).
Defined.

End VariantACover.

(** ** Variant A: where the drops end *)

Section VariantADrops.
Import Js Cube Inv Cover.

Lemma frameLoop_untouched dt ratio (runs : list Engine.Run) : forall k cs i,
  ~ In i (targets runs) ->
  fst (Engine.frameLoop dt ratio k runs cs) !! i = cs !! i.
Proof.
  induction runs as [|r runs IH]; intros k cs i Hi; [reflexivity|].
  cbn [targets List.map In] in Hi. cbn [Engine.frameLoop].
  assert (Hne : Tween.target (Engine.tween r) <> i) by tauto.
  assert (Hrest : ~ In i (targets runs)) by tauto.
  destruct (cs !! Tween.target (Engine.tween r)) as [c0|]; [|now apply IH].
  destruct (Tween.millis (Engine.tween r) <=? Engine.age r + dt)%N.
  - rewrite IH by exact Hrest. now apply list_lookup_insert_ne.
  - specialize (IH (S k)
      (<[Tween.target (Engine.tween r) :=
           Mesh.set_position
             (Engine.render (Engine.tween r)
                (default (Engine.startValues (Engine.tween r) (Mesh.position c0))
                         (Engine.start r))
                (ratio k) (Mesh.position c0)) c0]> cs) i Hrest).
    destruct (Engine.frameLoop dt ratio (S k) runs _) as [cs' runs'].
    cbn [fst] in *. rewrite IH. now apply list_lookup_insert_ne.
Qed.

(** The tweens in flight after a frame are some of those in flight before
    it, in the same order. *)
Lemma frameLoop_sublist dt ratio (runs : list Engine.Run) : forall k cs,
  sublist (targets (snd (Engine.frameLoop dt ratio k runs cs))) (targets runs).
Proof.
  induction runs as [|r runs IH]; intros k cs; [constructor|].
  cbn [Engine.frameLoop targets List.map].
  destruct (cs !! Tween.target (Engine.tween r)) as [c0|];
    [|apply sublist_cons, IH].
  destruct (Tween.millis (Engine.tween r) <=? Engine.age r + dt)%N;
    [apply sublist_cons, IH|].
  specialize (IH (S k)
    (<[Tween.target (Engine.tween r) :=
         Mesh.set_position
           (Engine.render (Engine.tween r)
              (default (Engine.startValues (Engine.tween r) (Mesh.position c0))
                       (Engine.start r))
              (ratio k) (Mesh.position c0)) c0]> cs)).
  destruct (Engine.frameLoop dt ratio (S k) runs _) as [cs' runs'].
  cbn [snd targets List.map] in *. now apply sublist_skip.
Qed.

Lemma frameLoop_dropRun dt ratio (runs : list Engine.Run) : forall k cs,
  Forall dropRun runs -> Forall dropRun (snd (Engine.frameLoop dt ratio k runs cs)).
Proof.
  induction runs as [|r runs IH]; intros k cs Hq; [constructor|].
  inversion Hq as [|? ? Hr Hq']; subst. cbn [Engine.frameLoop].
  destruct (cs !! Tween.target (Engine.tween r)) as [c0|]; [|now apply IH].
  destruct (Tween.millis (Engine.tween r) <=? Engine.age r + dt)%N; [now apply IH|].
  specialize (IH (S k)
    (<[Tween.target (Engine.tween r) :=
         Mesh.set_position
           (Engine.render (Engine.tween r)
              (default (Engine.startValues (Engine.tween r) (Mesh.position c0))
                       (Engine.start r))
              (ratio k) (Mesh.position c0)) c0]> cs) Hq').
  destruct (Engine.frameLoop dt ratio (S k) runs _) as [cs' runs'].
  cbn [snd] in *. constructor; [|exact IH].
  destruct Hr as (m & st & Hm & Htw & Hst & Hz). exists m, st.
  cbn [Engine.tween Engine.start]. rewrite Hst. now repeat split.
Qed.

(** The one tween in flight on cube [i] decides where the cube is after a
    frame: at the end of the tween if the tween has ended, and then no
    tween on the cube is left in flight. *)
Lemma frameLoop_tracked dt ratio (runs : list Engine.Run) : forall k cs r i c,
  NoDup (targets runs) -> In r runs -> Tween.target (Engine.tween r) = i ->
  cs !! i = Some c ->
  let st := default (Engine.startValues (Engine.tween r) (Mesh.position c))
                    (Engine.start r) in
  exists q,
    fst (Engine.frameLoop dt ratio k runs cs) !! i
    = Some (Mesh.set_position (Engine.render (Engine.tween r) st q (Mesh.position c)) c)
    /\ (if (Tween.millis (Engine.tween r) <=? Engine.age r + dt)%N
        then q = 1%float
             /\ ~ In i (targets (snd (Engine.frameLoop dt ratio k runs cs)))
        else In i (targets (snd (Engine.frameLoop dt ratio k runs cs)))).
Proof.
  induction runs as [|r0 runs IH]; intros k cs r i c Hnd Hin Hi Hc; [destruct Hin|].
  cbn [targets List.map] in Hnd. apply NoDup_cons in Hnd as [Hr0 Hnd].
  rewrite list_elem_of_In in Hr0. fold (targets runs) in Hr0, Hnd.
  cbv zeta. cbn [Engine.frameLoop].
  destruct Hin as [->|Hin].
  - rewrite Hi in *. rewrite Hc.
    set (st := default (Engine.startValues (Engine.tween r) (Mesh.position c))
                       (Engine.start r)).
    destruct (Tween.millis (Engine.tween r) <=? Engine.age r + dt)%N.
    + exists 1%float. split.
      * rewrite frameLoop_untouched by exact Hr0.
        apply list_lookup_insert_eq. eapply lookup_lt_Some, Hc.
      * split; [reflexivity|]. intros H. apply Hr0.
        pose proof (frameLoop_sublist dt ratio runs (S k)
          (<[i:=Mesh.set_position (Engine.render (Engine.tween r) st 1 (Mesh.position c)) c]>
             cs)) as Hs.
        rewrite <- list_elem_of_In in *. exact (elem_of_sublist _ _ _ H Hs).
    + exists (ratio k).
      pose proof (frameLoop_untouched dt ratio runs (S k)
        (<[i:=Mesh.set_position
               (Engine.render (Engine.tween r) st (ratio k) (Mesh.position c)) c]> cs)
        i Hr0) as Hu.
      destruct (Engine.frameLoop dt ratio (S k) runs _) as [cs' runs'].
      cbn [fst snd targets List.map Engine.tween] in *. split.
      * rewrite Hu. apply list_lookup_insert_eq. eapply lookup_lt_Some, Hc.
      * left. exact Hi.
  - assert (Hne : Tween.target (Engine.tween r0) <> i).
    { intros E. apply Hr0. rewrite E, <- Hi. unfold targets.
      exact (in_map (fun r => Tween.target (Engine.tween r)) runs r Hin). }
    assert (Hstep : forall cs1, cs1 !! i = Some c ->
      exists q,
        fst (Engine.frameLoop dt ratio (S k) runs cs1) !! i
        = Some (Mesh.set_position
                  (Engine.render (Engine.tween r)
                     (default (Engine.startValues (Engine.tween r) (Mesh.position c))
                              (Engine.start r)) q (Mesh.position c)) c)
        /\ (if (Tween.millis (Engine.tween r) <=? Engine.age r + dt)%N
            then q = 1%float
                 /\ ~ In i (targets (snd (Engine.frameLoop dt ratio (S k) runs cs1)))
            else In i (targets (snd (Engine.frameLoop dt ratio (S k) runs cs1))))).
    { intros cs1 Hc1. exact (IH (S k) cs1 r i c Hnd Hin Hi Hc1). }
    destruct (cs !! Tween.target (Engine.tween r0)) as [c0|] eqn:E0;
      [|exact (Hstep cs Hc)].
    destruct (Tween.millis (Engine.tween r0) <=? Engine.age r0 + dt)%N.
    + apply Hstep. rewrite list_lookup_insert_ne by exact Hne. exact Hc.
    + match goal with
      | |- context [Engine.frameLoop dt ratio (S k) runs ?l] =>
          destruct (Hstep l) as (q & Hq1 & Hq2);
            [rewrite list_lookup_insert_ne by exact Hne; exact Hc|]
      end.
      destruct (Engine.frameLoop dt ratio (S k) runs _) as [cs' runs'].
      cbn [fst snd targets List.map Engine.tween] in *.
      exists q. split; [exact Hq1|].
      destruct (Tween.millis (Engine.tween r) <=? Engine.age r + dt)%N.
      * destruct Hq2 as [-> Hq2]. split; [reflexivity|]. intros [H|H]; tauto.
      * now right.
Qed.

Lemma dropRest_levels m :
  (m < gridCount)%nat ->
  constrain (newZPosition (natToFloat m)) = newZPosition (natToFloat m)
  /\ (boundaryMin <=? newZPosition (natToFloat m))%float = true
  /\ (newZPosition (natToFloat m) <=? boundaryMax)%float = true
  /\ dropRest m = Tween.round6 (newZPosition (natToFloat m))
  /\ Tween.write topOfGrid (newZPosition (natToFloat m)) 0 = topOfGrid.
Proof.
  unfold gridCount. intros H.
  do 10 (destruct m as [|m]; [vm_compute; repeat split|]). lia.
Qed.

Lemma restOk_init : restOk VariantA.init.
Proof.
  split; [constructor|]. split; [constructor|].
  intros i c c0 Hc Hc0. rewrite Hc in Hc0. injection Hc0 as <-.
  split; [reflexivity|]. split; [reflexivity|]. split.
  - intros _. split; [reflexivity|]. intros [].
  - intros Ht. pose proof (built_untextured _ initA_built) as Hu.
    pose proof (proj1 (Forall_lookup _ _) Hu i c Hc) as Hf. cbn in Hf. congruence.
Qed.

(** In a column with [n] textured cubes, a cube that is not textured
    leaves room: [n < gridSize]. *)
Lemma InvA_room (s : VariantA.State) i cube :
  InvA s -> cubes (VariantA.world s) !! i = Some cube -> Mesh.textured cube = false ->
  (texturedIn (keyOf cube) (cubes (VariantA.world s)) < gridCount)%nat.
Proof.
  intros I Hc Ht.
  pose proof (column_of_cube _ i cube (invA_columns s I) Hc) as Hk.
  pose proof (InvA_click s (Some i) I) as I'.
  pose proof (texturedIn_bound _ (keyOf cube) (invA_columns _ I') Hk) as Hb.
  rewrite (onCubeClick_untextured s i cube Hc Ht) in Hb. cbv zeta in Hb.
  cbn [VariantA.world cubes] in Hb.
  erewrite texturedIn_insert in Hb; [|exact Hc|exact Ht|reflexivity|reflexivity].
  rewrite sameKey_refl in Hb. lia.
Qed.

Lemma restOk_click (s : VariantA.State) hit :
  InvA s -> restOk s -> restOk (VariantA.onCubeClick s hit).
Proof.
  intros I R. destruct (onCubeClick_cases s hit) as [->|(i & cube & -> & Hc & Ht)];
    [exact R|].
  destruct R as (Hnd & Hdrops & Hcubes).
  pose proof (InvA_room s i cube I Hc Ht) as Hn.
  pose proof (column_of_cube _ i cube (invA_columns s I) Hc) as Hk.
  assert (Hci : exists c0, cubes (VariantA.world VariantA.init) !! i = Some c0).
  { apply lookup_lt_is_Some_2.
    rewrite <- (length_map keyOf), (proj1 (invA_columns _ InvA_init)).
    rewrite <- (proj1 (invA_columns s I)), length_map. eapply lookup_lt_Some, Hc. }
  destruct Hci as [ci Hci].
  destruct (Hcubes i cube ci Hc Hci) as (Hx & Hy & Hu & _).
  destruct (Hu Ht) as [Hpos Hfree].
  rewrite (onCubeClick_untextured s i cube Hc Ht). cbv zeta.
  unfold VariantA.currentHeight. rewrite (invA_counts s I _ Hk). cbn [toNumber].
  set (n := texturedIn (keyOf cube) (cubes (VariantA.world s))) in *.
  split; [|split]; cbn [VariantA.running VariantA.world cubes].
  - unfold targets. rewrite map_app. cbn [List.map Engine.launch snd Engine.tween
      dropTween Tween.target]. apply NoDup_app. split; [exact Hnd|].
    split; [|apply NoDup_singleton].
    intros j Hj Hj'. apply list_elem_of_In in Hj.
    apply list_elem_of_singleton in Hj'. subst j. exact (Hfree Hj).
  - apply Forall_app. split; [exact Hdrops|]. constructor; [|constructor].
    exists n. eexists. split; [exact Hn|]. split; [reflexivity|].
    split; reflexivity.
  - intros j c c0 Hj Hc0. unfold targets. rewrite map_app.
    cbn [List.map Engine.launch snd Engine.tween dropTween Tween.target].
    destruct (decide (j = i)) as [->|Hne].
    + rewrite list_lookup_insert_eq in Hj by (eapply lookup_lt_Some, Hc).
      injection Hj as <-. rewrite Hci in Hc0. injection Hc0 as <-.
      cbn. split; [exact Hx|]. split; [exact Hy|]. split; [discriminate|].
      intros _. left. apply in_or_app. right. now left.
    + rewrite list_lookup_insert_ne in Hj by congruence.
      destruct (Hcubes j c c0 Hj Hc0) as (Gx & Gy & Gu & Gt).
      split; [exact Gx|]. split; [exact Gy|]. split.
      * intros Hf. destruct (Gu Hf) as [G1 G2]. split; [exact G1|].
        intros H. apply in_app_or in H as [H|[H|[]]]; [now apply G2|congruence].
      * intros Hf. destruct (Gt Hf) as [G|G]; [|now right].
        left. apply in_or_app. now left.
Qed.

Lemma restOk_frame (s : VariantA.State) dt ratio :
  restOk s -> restOk (VariantA.onFrame s dt ratio).
Proof.
  intros (Hnd & Hdrops & Hcubes). unfold VariantA.onFrame.
  pose proof (frameLoop_sublist dt ratio (VariantA.running s) 0
                (cubes (VariantA.world s))) as Hsub.
  pose proof (frameLoop_dropRun dt ratio (VariantA.running s) 0
                (cubes (VariantA.world s)) Hdrops) as Hdr.
  pose proof (fun i => frameLoop_untouched dt ratio (VariantA.running s) 0
                (cubes (VariantA.world s)) i) as Hun.
  pose proof (fun r i c => frameLoop_tracked dt ratio (VariantA.running s) 0
                (cubes (VariantA.world s)) r i c Hnd) as Htr.
  pose proof (proj1 (frameLoop_moved false dt ratio (VariantA.running s) 0
                (cubes (VariantA.world s)) (fun H => False_ind _ (Bool.diff_false_true H))))
    as Hlen.
  destruct (Engine.frameLoop dt ratio 0 (VariantA.running s) (cubes (VariantA.world s)))
    as [cs runs].
  cbn [fst snd VariantA.running VariantA.world withCubes cubes] in *.
  split; [exact (sublist_NoDup _ _ Hnd Hsub)|]. split; [exact Hdr|].
  assert (Hin : forall j, In j (targets runs) -> In j (targets (VariantA.running s))).
  { intros j Hj. rewrite <- list_elem_of_In in *. exact (elem_of_sublist _ _ _ Hj Hsub). }
  intros i c' c0 Hc' Hc0. cbn [VariantA.world withCubes cubes] in Hc'.
  destruct (lookup_lt_is_Some_2 (cubes (VariantA.world s)) i) as [c Hc].
  { rewrite <- Hlen. eapply lookup_lt_Some, Hc'. }
  destruct (Hcubes i c c0 Hc Hc0) as (Hx & Hy & Hu & Ht).
  destruct (in_dec Nat.eq_dec i (targets (VariantA.running s))) as [Hi|Hi].
  - unfold targets in Hi. apply in_map_iff in Hi as (r & Hri & Hr).
    destruct (Htr r i c Hr Hri Hc) as (q & Hq1 & Hq2).
    rewrite Hc' in Hq1. injection Hq1 as ->.
    destruct (proj1 (List.Forall_forall _ _) Hdrops r Hr) as (m & st & Hm & Htw & Hst & Hz).
    assert (Hrender : forall p,
              Engine.render (Engine.tween r) st q p
              = Vector3.mk (Vector3.x p) (Vector3.y p)
                  (Tween.write (Vector3.z st)
                     (constrain (newZPosition (natToFloat m))) q)).
    { intros p. rewrite Htw. reflexivity. }
    rewrite Hst. cbn [default]. rewrite Hrender.
    cbn [Mesh.position Mesh.set_position Mesh.textured Vector3.x Vector3.y Vector3.z].
    split; [exact Hx|]. split; [exact Hy|]. split.
    + intros Hf. exfalso. destruct (Hu Hf) as [_ Hfree]. apply Hfree.
      unfold targets. apply in_map_iff. exists r. now split.
    + intros _.
      destruct (Tween.millis (Engine.tween r) <=? Engine.age r + dt)%N.
      * destruct Hq2 as [-> _]. right. exists m. split; [exact Hm|].
        rewrite Hz. reflexivity.
      * now left.
  - rewrite (Hun i Hi), Hc in Hc'. injection Hc' as <-.
    split; [exact Hx|]. split; [exact Hy|]. split.
    + intros Hf. split; [exact (proj1 (Hu Hf))|]. intros H. exact (Hi (Hin i H)).
    + intros Hf. destruct (Ht Hf) as [G|G]; [contradiction|now right].
Qed.

Lemma restOk_run (es : list VariantA.Event) : forall s,
  forallb (fun e => negb (pressesUndo e)) es = true ->
  InvA s -> restOk s -> restOk (VariantA.run s es).
Proof.
  induction es as [|e es IH]; intros s Hes I R; [exact R|].
  cbn [forallb] in Hes. apply andb_true_iff in Hes as [He Hes].
  apply negb_true_iff in He. cbn [VariantA.run fold_left].
  apply (IH (VariantA.step s e) Hes); [now apply InvA_step|].
  destruct e as [button hit|dt ratio]; cbn [VariantA.step].
  - unfold VariantA.mousedown.
    destruct button as [|[|[|button]]]; try discriminate; try exact R.
    now apply restOk_click.
  - now apply restOk_frame.
Qed.

(** X10 -- Variant A, as long as the reset has not been used: a click on
    a cube that is not textured yet, in a column with [n] textured cubes,
    has [n < gridSize]; the target of its drop is
    n*(cubeSize+spacing) - (gridSize/2)*(cubeSize+spacing), which the
    clamp leaves as it is; the cube is moved to the top of the grid at
    once, with its x and y as they were, and its tween is in flight. *)
Theorem X10_reveal_level (es : list VariantA.Event) (i : nat) (cube : Mesh.t) :
  forallb (fun e => negb (pressesUndo e)) es = true ->
  let s := VariantA.run VariantA.init es in
  cubes (VariantA.world s) !! i = Some cube -> Mesh.textured cube = false ->
  let n := texturedIn (keyOf cube) (cubes (VariantA.world s)) in
  let target := (natToFloat n * (cubeSize + spacing)
                 - (gridSize / 2) * (cubeSize + spacing))%float in
  let s' := VariantA.step s (VariantA.MouseDown 0 (Some i)) in
  (n < gridCount)%nat
  /\ constrain target = target
  /\ (boundaryMin <=? target)%float = true /\ (target <=? boundaryMax)%float = true
  /\ tweens (VariantA.world s') = tweens (VariantA.world s) ++ [dropTween i target]
  /\ (exists r, VariantA.running s' = VariantA.running s ++ [r]
                /\ Engine.tween r = dropTween i target /\ Engine.age r = 0%N)
  /\ exists c', cubes (VariantA.world s') !! i = Some c'
       /\ Mesh.position c'
          = Vector3.mk (Vector3.x (Mesh.position cube)) (Vector3.y (Mesh.position cube))
                       topOfGrid
       /\ Mesh.textured c' = true.
Proof.
  intros Hes s Hc Ht n target s'.
  pose proof (InvA_run es VariantA.init Hes InvA_init) as I. fold s in I.
  pose proof (column_of_cube _ i cube (invA_columns s I) Hc) as Hk.
  pose proof (InvA_room s i cube I Hc Ht) as Hn. fold n in Hn.
  destruct (dropRest_levels n Hn) as (H1 & H2 & H3 & _ & H5).
  change (newZPosition (natToFloat n)) with target in H1, H2, H3, H5.
  split; [exact Hn|]. split; [exact H1|]. split; [exact H2|]. split; [exact H3|].
  unfold s'. cbn [VariantA.step VariantA.mousedown].
  rewrite (onCubeClick_untextured s i cube Hc Ht). cbv zeta.
  unfold VariantA.currentHeight. rewrite (invA_counts s I _ Hk). cbn [toNumber].
  fold n. change (newZPosition (natToFloat n)) with target. rewrite H1.
  cbn [VariantA.world VariantA.running tweens cubes].
  split; [reflexivity|]. split.
  { eexists. split; [reflexivity|]. split; reflexivity. }
  eexists. split; [apply list_lookup_insert_eq; eapply lookup_lt_Some, Hc|].
  split; [|reflexivity].
  cbn [Engine.launch fst Mesh.position Mesh.set_position VariantA.reveal
         Mesh.set_textured Mesh.set_material].
  unfold Engine.render, Engine.startValues, dropTween.
  cbn [Tween.to_x Tween.to_y Tween.to_z Tween.from_z default
         Vector3.x Vector3.y Vector3.z].
  unfold id. now rewrite H5.
Qed.

Lemma X10_reveal_witness :
  exists c', cubes (VariantA.world
                      (VariantA.step (VariantA.run VariantA.init [])
                                     (VariantA.MouseDown 0 (Some 5%nat)))) !! 5%nat
             = Some c' /\ Mesh.textured c' = true.
Proof.
  assert (H : exists cube, cubes (VariantA.world (VariantA.run VariantA.init [])) !! 5%nat
                           = Some cube /\ Mesh.textured cube = false).
  { vm_compute. eexists. split; reflexivity. }
  destruct H as (cube & Hc & Ht).
  destruct (X10_reveal_level [] 5 cube eq_refl Hc Ht)
    as (_ & _ & _ & _ & _ & _ & c' & Hc' & _ & Ht').
  exists c'. split; [exact Hc'|exact Ht'].
Defined.

(** X18 -- Variant A, as long as the reset has not been used: every cube
    keeps the x and y it was created with; a cube that is not textured is
    where it was created; and a textured cube either has its drop tween in
    flight or rests at one of the gridSize stack levels, rounded to six
    decimals: z = round6(m*(cubeSize+spacing) - (gridSize/2)*(cubeSize+spacing))
    for some m below gridSize. *)
Theorem X18_drops_end_on_levels (es : list VariantA.Event) (i : nat) (c c0 : Mesh.t) :
  forallb (fun e => negb (pressesUndo e)) es = true ->
  let s := VariantA.run VariantA.init es in
  cubes (VariantA.world s) !! i = Some c ->
  cubes (VariantA.world VariantA.init) !! i = Some c0 ->
  Vector3.x (Mesh.position c) = Vector3.x (Mesh.position c0)
  /\ Vector3.y (Mesh.position c) = Vector3.y (Mesh.position c0)
  /\ (Mesh.textured c = false -> Mesh.position c = Mesh.position c0)
  /\ (Mesh.textured c = true ->
      (exists r, In r (VariantA.running s) /\ Tween.target (Engine.tween r) = i)
      \/ exists m, (m < gridCount)%nat
           /\ Vector3.z (Mesh.position c)
              = Tween.round6 (natToFloat m * (cubeSize + spacing)
                              - (gridSize / 2) * (cubeSize + spacing))%float).
Proof.
  intros Hes s Hc Hc0.
  destruct (restOk_run es VariantA.init Hes InvA_init restOk_init) as (_ & _ & H).
  fold s in H. destruct (H i c c0 Hc Hc0) as (Hx & Hy & Hu & Ht).
  split; [exact Hx|]. split; [exact Hy|]. split; [intros Hf; exact (proj1 (Hu Hf))|].
  intros Hf. destruct (Ht Hf) as [Hin|(m & Hm & Hz)].
  - left. unfold targets in Hin. apply in_map_iff in Hin as (r & Hr & Hin).
    now exists r.
  - right. exists m. split; [exact Hm|]. rewrite Hz.
    exact (proj1 (proj2 (proj2 (proj2 (dropRest_levels m Hm))))).
Qed.

Lemma X18_drops_witness :
  let s := VariantA.run VariantA.init
             [VariantA.MouseDown 0 (Some 5%nat); VariantA.Frame 1500 (fun _ => 0.5%float)] in
  exists c c0,
    cubes (VariantA.world s) !! 5%nat = Some c
    /\ cubes (VariantA.world VariantA.init) !! 5%nat = Some c0
    /\ Vector3.x (Mesh.position c) = Vector3.x (Mesh.position c0).
Proof.
  intros s.
  assert (H : exists c c0, cubes (VariantA.world s) !! 5%nat = Some c
                           /\ cubes (VariantA.world VariantA.init) !! 5%nat = Some c0).
  { vm_compute. eexists _, _. split; reflexivity. }
  destruct H as (c & c0 & Hc & Hc0). exists c, c0.
  split; [exact Hc|]. split; [exact Hc0|].
  exact (proj1 (X18_drops_end_on_levels
                  [VariantA.MouseDown 0 (Some 5%nat);
                   VariantA.Frame 1500 (fun _ => 0.5%float)] 5 c c0 eq_refl Hc Hc0)).
Defined.

End VariantADrops.

(** ** Variant B, beyond the claims *)

Section VariantBCover.
Import Js Cube Inv Cover.

(** The three outcomes of a click in variant B. *)
Lemma onCubeClickB_cases (s : VariantB.State) hit :
  VariantB.onCubeClick s hit = s
  \/ exists i clicked,
       hit = Some i /\ cubes (VariantB.world s) !! i = Some clicked
       /\ (((VariantB.currentHeight (VariantB.world s) (keyOf clicked)
              <? VariantB.maxStackHeight)%float = true
            /\ VariantB.onCubeClick s hit
               = let w := VariantB.world s in
                 let h := VariantB.currentHeight w (keyOf clicked) in
                 let id := length (cubes w) in
                 let target := constrain (newZPosition (h + 1)%float) in
                 VariantB.mkState
                   (mkWorld (cubes w ++ [Tween.settle (dropTween id target)
                                                      (VariantB.spawnedCube clicked)])
                            (originalPositions w)
                            (Map_set sameKey (cubePositions w) (keyOf clicked) (h + 1)%float)
                            (scene w ++ [CubeChild id])
                            (tweens w ++ [dropTween id target]))
                   (VariantB.highlightedCubes s) (VariantB.console s))
           \/ VariantB.onCubeClick s hit
              = VariantB.mkState (VariantB.world s) (VariantB.highlightedCubes s)
                                 (VariantB.console s ++ [VariantB.stackFullNotice])).
Proof.
  destruct hit as [i|]; [|now left].
  destruct (cubes (VariantB.world s) !! i) as [clicked|] eqn:Hc;
    [|left; unfold VariantB.onCubeClick; now rewrite Hc].
  right. exists i, clicked. split; [reflexivity|]. split; [exact Hc|].
  destruct ((VariantB.currentHeight (VariantB.world s) (keyOf clicked)
             <? VariantB.maxStackHeight)%float) eqn:Hlt.
  - left. split; [reflexivity|]. exact (onCubeClick_place s i clicked Hc Hlt).
  - right. exact (onCubeClick_full s i clicked Hc Hlt).
Qed.

(** X11 -- Variant B: a pointer move changes nothing but tints and the
    highlighted set: the counters, the scene, the tweens, the
    original-position table and the console are untouched, the tracked
    list keeps its length, and every cube is the same up to its tint. *)
Theorem X11_pointer_move_frame (s : VariantB.State) (hit : option nat) :
  let s' := VariantB.step s (VariantB.MouseMove hit) in
  cubePositions (VariantB.world s') = cubePositions (VariantB.world s)
  /\ scene (VariantB.world s') = scene (VariantB.world s)
  /\ tweens (VariantB.world s') = tweens (VariantB.world s)
  /\ originalPositions (VariantB.world s') = originalPositions (VariantB.world s)
  /\ VariantB.console s' = VariantB.console s
  /\ length (cubes (VariantB.world s')) = length (cubes (VariantB.world s))
  /\ forall j c, cubes (VariantB.world s) !! j = Some c ->
       exists c', cubes (VariantB.world s') !! j = Some c'
                  /\ VariantB.setEmissive 0%N c' = VariantB.setEmissive 0%N c.
Proof.
  cbn [VariantB.step]. cbv zeta.
  destruct (onMouseMove_frame s hit) as (cs & hs & E & Hpos).
  repeat split; try (rewrite E; reflexivity).
  - rewrite E. cbn [VariantB.world VariantB.setCubes cubes].
    rewrite <- (length_map Mesh.position cs), Hpos. apply length_map.
  - intros j c Hc. now apply onMouseMove_tint_only.
Qed.

Lemma cubesIn_snoc (k kc : Key) (keys : list Key) :
  cubesIn k (keys ++ [kc]) = (cubesIn k keys + (if sameKey kc k then 1 else 0))%nat.
Proof.
  unfold cubesIn. rewrite List.filter_app, length_app. cbn [List.filter].
  now destruct (sameKey kc k).
Qed.


Lemma columnCount_init : columnCount VariantB.init.
Proof.
  intros k Hk. exists 0%nat. split; [unfold gridCount; lia|].
  split; [exact (built_lookup_height _ k initB_built Hk)|].
  rewrite (proj1 initB_built), Nat.add_0_r. exact (grid_column_size k Hk).
Qed.

Lemma columnCount_click (s : VariantB.State) hit :
  InvB s -> columnCount s -> columnCount (VariantB.onCubeClick s hit).
Proof.
  intros I H.
  destruct (onCubeClickB_cases s hit)
    as [->|(i & clicked & -> & Hc & [[Hlt ->]| ->])]; [exact H| |exact H].
  cbv zeta. intros k Hk. cbn [VariantB.world cubes cubePositions].
  assert (Hkc : In (keyOf clicked) gridKeys).
  { exact (proj1 (List.Forall_forall _ _) (invB_cube_keys s I) clicked
                 (lookup_In _ _ _ Hc)). }
  destruct (H k Hk) as (n & Hn & Hget & Hcnt).
  rewrite List.map_app. cbn [List.map].
  change (keyOf (Tween.settle _ (VariantB.spawnedCube clicked))) with (keyOf clicked).
  rewrite cubesIn_snoc, Hcnt.
  destruct (sameKey (keyOf clicked) k) eqn:E.
  - apply (sameKey_grid _ _ Hkc Hk) in E. rewrite E in *.
    rewrite (InvB_currentHeight s k n I Hn Hget) in *.
    apply (natToFloat_lt_gridSize n Hn) in Hlt.
    exists (S n). split; [lia|]. split; [|lia].
    rewrite Map_get_set_found; [reflexivity|]. unfold Map_has. now rewrite Hget.
  - exists n. split; [exact Hn|]. split; [|lia].
    rewrite (Map_get_set_other sameKey (fun k => In k gridKeys) sameKey_grid);
      [exact Hget| |exact Hkc|exact Hk|].
    + rewrite (invB_keys s I). apply List.Forall_forall. intros x Hx. exact Hx.
    + intros Heq. rewrite Heq in E.
      rewrite (proj2 (sameKey_grid _ _ Hk Hk) eq_refl) in E. discriminate.
Qed.

Lemma columnCount_step (s : VariantB.State) e :
  InvB s -> columnCount s -> columnCount (VariantB.step s e).
Proof.
  intros I H. destruct e as [button hit|hit]; cbn [VariantB.step].
  - unfold VariantB.mousedown.
    destruct button as [|[|[|button]]]; try exact H. now apply columnCount_click.
  - destruct (onMouseMove_frame s hit) as (cs & hs & -> & Hpos).
    intros k Hk. cbn [VariantB.world VariantB.setCubes cubes cubePositions].
    rewrite (keys_of_positions _ _ Hpos). exact (H k Hk).
Qed.

(** X12 -- Variant B: in every reachable state the counter of a column
    holds an integer [n] between 0 and gridSize, and the column consists
    of exactly gridSize + n tracked cubes: the gridSize cubes of the grid
    and one cube per successful placement. *)
Theorem X12_counter_counts_spawned (s : VariantB.State) (k : Key) :
  VariantB.reachable s -> In k gridKeys ->
  exists n, (n <= gridCount)%nat
    /\ Map_get sameKey (cubePositions (VariantB.world s)) k = Some (natToFloat n)
    /\ cubesIn k (List.map keyOf (cubes (VariantB.world s))) = (gridCount + n)%nat.
Proof.
  intros Hr. revert k. change (columnCount s).
  induction Hr as [|s e Hr IH]; [exact columnCount_init|].
  apply columnCount_step; [now apply reachable_InvB|exact IH].
Qed.

Lemma X12_counter_witness :
  let s := VariantB.run VariantB.init
             [VariantB.MouseDown 0 (Some 0%nat); VariantB.MouseDown 0 (Some 1000%nat)] in
  let k := positionKey (coord 0) (coord 0) in
  VariantB.reachable s /\ In k gridKeys
  /\ exists n, cubesIn k (List.map keyOf (cubes (VariantB.world s))) = (gridCount + n)%nat.
Proof.
  intros s k.
  assert (Hr : VariantB.reachable s)
    by exact (VariantB.reach_step _ _ (VariantB.reach_step _ _ VariantB.reach_init)).
  assert (Hk : In k gridKeys) by (vm_compute; left; reflexivity).
  split; [exact Hr|]. split; [exact Hk|].
  destruct (X12_counter_counts_spawned s k Hr Hk) as (n & _ & _ & Hn).
  exists n. exact Hn.
Defined.

Lemma cubeChildren_snoc (sc : list SceneChild) (i : nat) :
  cubeChildren (sc ++ [CubeChild i]) = cubeChildren sc ++ [i]
  /\ otherChildren (sc ++ [CubeChild i]) = otherChildren sc.
Proof.
  induction sc as [|[j| |] sc [IH1 IH2]]; cbn; [now split|..];
    rewrite ?IH1, ?IH2; now split.
Qed.

Lemma initB_scene :
  cubeChildren (scene (VariantB.world VariantB.init)) = seq 0 gridCubes
  /\ otherChildren (scene (VariantB.world VariantB.init))
     = [DirectionalLight; AmbientLight].
Proof. vm_compute. split; reflexivity. Qed.

Lemma sceneB_step (s : VariantB.State) e :
  cubeChildren (scene (VariantB.world s)) = seq 0 (length (cubes (VariantB.world s))) ->
  otherChildren (scene (VariantB.world s)) = [DirectionalLight; AmbientLight] ->
  let s' := VariantB.step s e in
  cubeChildren (scene (VariantB.world s')) = seq 0 (length (cubes (VariantB.world s')))
  /\ otherChildren (scene (VariantB.world s')) = [DirectionalLight; AmbientLight].
Proof.
  intros H1 H2. cbv zeta. destruct e as [button hit|hit]; cbn [VariantB.step].
  - unfold VariantB.mousedown.
    destruct button as [|[|[|button]]]; try (split; assumption).
    destruct (onCubeClickB_cases s hit)
      as [->|(i & clicked & -> & Hc & [[Hlt ->]| ->])]; try (split; assumption).
    cbv zeta. cbn [VariantB.world cubes scene].
    destruct (cubeChildren_snoc (scene (VariantB.world s))
                (length (cubes (VariantB.world s)))) as [-> ->].
    rewrite length_app. cbn [length]. rewrite Nat.add_1_r, seq_S, H1. now split.
  - destruct (onMouseMove_frame s hit) as (cs & hs & -> & Hpos).
    cbn [VariantB.world VariantB.setCubes cubes scene].
    rewrite <- (length_map Mesh.position cs), Hpos, length_map. now split.
Qed.

(** X13 -- Variant B: in every reachable state each tracked cube is a
    child of the scene exactly once, in creation order, and the only other
    children of the scene are the two lights. *)
Theorem X13_scene_holds_every_cube (s : VariantB.State) :
  VariantB.reachable s ->
  cubeChildren (scene (VariantB.world s)) = seq 0 (length (cubes (VariantB.world s)))
  /\ otherChildren (scene (VariantB.world s)) = [DirectionalLight; AmbientLight].
Proof.
  induction 1 as [|s e Hr [IH1 IH2]].
  - destruct initB_scene as [H1 H2]. split; [|exact H2].
    rewrite H1, (proj1 (proj2 (proj2 (proj2 (proj2 (proj2 initB_built)))))).
    reflexivity.
  - exact (sceneB_step s e IH1 IH2).
Qed.

Lemma X13_scene_witness :
  let s := VariantB.step VariantB.init (VariantB.MouseDown 0 (Some 0%nat)) in
  VariantB.reachable s
  /\ otherChildren (scene (VariantB.world s)) = [DirectionalLight; AmbientLight].
Proof.
  intros s.
  assert (Hr : VariantB.reachable s) by exact (VariantB.reach_step _ _ VariantB.reach_init).
  split; [exact Hr|]. exact (proj2 (X13_scene_holds_every_cube s Hr)).
Defined.

Lemma initB_tints :
  List.map (fun c => Material.emissive (Mesh.material c))
           (cubes (VariantB.world VariantB.init))
  = repeat 0%N gridCubes.
Proof. vm_compute. reflexivity. Qed.

Lemma tintsOk_init : tintsOk VariantB.init.
Proof.
  split; [|intros j []].
  intros j c Hc. split; [intros []|]. intros _.
  apply lookup_In in Hc.
  apply (in_map (fun c => Material.emissive (Mesh.material c))) in Hc.
  rewrite initB_tints in Hc. now apply repeat_spec in Hc.
Qed.

Lemma tintsOk_click (s : VariantB.State) hit :
  tintsOk s -> tintsOk (VariantB.onCubeClick s hit).
Proof.
  intros [H1 H2].
  destruct (onCubeClickB_cases s hit)
    as [->|(i & clicked & -> & Hc & [[Hlt ->]| ->])]; [now split| |now split].
  cbv zeta. split; cbn [VariantB.world VariantB.highlightedCubes cubes].
  - intros j c Hj.
    destruct (decide (j < length (cubes (VariantB.world s)))%nat) as [Hlt'|Hge].
    + rewrite lookup_app_l in Hj by exact Hlt'. exact (H1 j c Hj).
    + pose proof (lookup_lt_Some _ _ _ Hj) as Hb. rewrite length_app in Hb.
      cbn [length] in Hb.
      assert (j = length (cubes (VariantB.world s))) as -> by lia.
      rewrite list_lookup_middle in Hj by reflexivity. injection Hj as <-.
      split; [|reflexivity]. intros Hin. apply H2 in Hin. lia.
  - intros j Hin. apply H2 in Hin. rewrite length_app. lia.
Qed.

Lemma tintsOk_move (s : VariantB.State) hit :
  tintsOk s -> tintsOk (VariantB.onMouseMove s hit).
Proof.
  intros [H1 H2]. rewrite onMouseMove_unfold. cbv zeta.
  set (cleared := VariantB.clearHighlight (VariantB.highlightedCubes s)
                                          (cubes (VariantB.world s))).
  assert (Hz : forall j c0, cleared !! j = Some c0 ->
            Material.emissive (Mesh.material c0) = 0%N).
  { intros j c0 Hc0. apply clearHighlight_Some in Hc0 as (c & Hc & _ & Ha & Hb).
    destruct (in_dec Nat.eq_dec j (VariantB.highlightedCubes s)) as [Hin|Hnin].
    - now rewrite (Ha Hin).
    - rewrite (Hb Hnin). exact (proj2 (H1 j c Hc) Hnin). }
  assert (Hnone : tintsOk (VariantB.mkState (VariantB.setCubes cleared (VariantB.world s))
                                            [] (VariantB.console s))).
  { split; [|intros j []]. intros j c Hc. split; [intros []|].
    intros _. exact (Hz j c Hc). }
  destruct hit as [i|]; [|exact Hnone].
  destruct (cleared !! i) as [ic|]; [|exact Hnone].
  set (tx := Vector3.x (Mesh.position ic)). set (ty := Vector3.y (Mesh.position ic)).
  split; cbn [VariantB.world VariantB.highlightedCubes VariantB.setCubes cubes].
  - intros j c Hc.
    rewrite highlightLoop_cubes, map_fmap, list_lookup_fmap in Hc.
    destruct (cleared !! j) as [c0|] eqn:Hc0; [|discriminate]. cbn in Hc.
    injection Hc as <-.
    destruct (VariantB.inColumn tx ty c0) eqn:Hcol.
    + split; [reflexivity|]. intros Hnin. exfalso. apply Hnin.
      apply highlightLoop_indices. exists j, c0. now repeat split.
    + split; [|intros _; exact (Hz j c0 Hc0)].
      intros Hin. apply highlightLoop_indices in Hin as (j' & c1 & Hj' & Hc1 & Hcol1).
      cbn in Hj'. subst j'. rewrite Hc0 in Hc1. injection Hc1 as <-. congruence.
  - intros j Hin. apply highlightLoop_indices in Hin as (j' & c1 & Hj' & Hc1 & _).
    cbn in Hj'. subst j'. apply lookup_lt_Some in Hc1.
    now rewrite highlightLoop_cubes, length_map.
Qed.

(** X14 -- Variant B: in every reachable state a tracked cube is tinted
    with the highlight colour exactly when it is in the highlighted set,
    and has tint 0 otherwise, also a cube spawned from a highlighted one;
    and the highlighted set only holds tracked cubes. *)
Theorem X14_tint_marks_highlighted (s : VariantB.State) (j : nat) (c : Mesh.t) :
  VariantB.reachable s -> cubes (VariantB.world s) !! j = Some c ->
  (In j (VariantB.highlightedCubes s) ->
     Material.emissive (Mesh.material c) = VariantB.highlightHex)
  /\ (~ In j (VariantB.highlightedCubes s) ->
       Material.emissive (Mesh.material c) = 0%N)
  /\ forall i, In i (VariantB.highlightedCubes s) ->
       (i < length (cubes (VariantB.world s)))%nat.
Proof.
  intros Hr Hc.
  assert (H : tintsOk s).
  { clear Hc. induction Hr as [|s e Hr IH]; [exact tintsOk_init|].
    destruct e as [button hit|hit]; cbn [VariantB.step].
    - unfold VariantB.mousedown.
      destruct button as [|[|[|button]]]; try exact IH. now apply tintsOk_click.
    - now apply tintsOk_move. }
  destruct H as [H1 H2]. destruct (H1 j c Hc) as [Ha Hb]. auto.
Qed.

Lemma X14_tint_witness :
  let s := VariantB.run VariantB.init
             [VariantB.MouseMove (Some 3%nat); VariantB.MouseDown 0 (Some 3%nat)] in
  exists c, cubes (VariantB.world s) !! 1000%nat = Some c
            /\ Material.emissive (Mesh.material c) = 0%N.
Proof.
  intros s.
  assert (Hr : VariantB.reachable s)
    by exact (VariantB.reach_step _ _ (VariantB.reach_step _ _ VariantB.reach_init)).
  assert (H : exists c, cubes (VariantB.world s) !! 1000%nat = Some c
                        /\ ~ In 1000%nat (VariantB.highlightedCubes s)).
  { vm_compute. eexists. split; [reflexivity|]. intros H.
    repeat (destruct H as [H|H]; [discriminate|]). exact H. }
  destruct H as (c & Hc & Hn). exists c. split; [exact Hc|].
  exact (proj1 (proj2 (X14_tint_marks_highlighted s 1000 c Hr Hc)) Hn).
Defined.

(** *** [undoAllCubes] as main.js has it *)

Lemma undoLoop_prefix origs : forall n (rest : list Mesh.t) i done tws,
  (n <= length rest)%nat ->
  (forall j, (j < n)%nat -> is_Some (Map_get Nat.eqb origs (i + j))) ->
  exists cs' new,
    length cs' = n /\ length new = n
    /\ Forall (fun c' => Mesh.textured c' = false
                         /\ Material.map (Mesh.material c') = None
                         /\ Material.opacity (Mesh.material c') = 0.1%float) cs'
    /\ undoLoop origs i done tws rest
       = undoLoop origs (i + n) (done ++ cs') (tws ++ new) (drop n rest).
Proof.
  induction n as [|n IH]; intros rest i done tws Hn H.
  - exists [], []. rewrite !app_nil_r, Nat.add_0_r, drop_0. repeat split. constructor.
  - destruct rest as [|c rest]; [cbn in Hn; lia|]. cbn [length] in Hn.
    destruct (H 0%nat) as [o Ho]; [lia|]. rewrite Nat.add_0_r in Ho.
    destruct (IH rest (S i) (done ++ [resetCube c])
                 (tws ++ [resetTween i o])) as (cs' & new & L1 & L2 & Hf & E).
    { lia. }
    { intros j Hj. replace (S i + j)%nat with (i + S j)%nat by lia. apply H. lia. }
    exists (resetCube c :: cs'), (resetTween i o :: new).
    cbn [length undoLoop drop]. rewrite Ho, E, <- !app_assoc. cbn [app].
    replace (i + S n)%nat with (S i + n)%nat by lia.
    repeat split; try congruence. constructor; [repeat split|exact Hf].
Qed.

Lemma tableB_step (s : VariantB.State) e :
  originalPositions (VariantB.world (VariantB.step s e))
  = originalPositions (VariantB.world s).
Proof.
  destruct e as [button hit|hit]; cbn [VariantB.step].
  - unfold VariantB.mousedown. destruct button as [|[|[|button]]]; try reflexivity.
    destruct (onCubeClickB_cases s hit)
      as [->|(i & clicked & -> & Hc & [[Hlt ->]| ->])]; reflexivity.
  - destruct (onMouseMove_frame s hit) as (cs & hs & -> & _). reflexivity.
Qed.

Lemma tableB_reachable (s : VariantB.State) :
  VariantB.reachable s ->
  originalPositions (VariantB.world s) = originalPositions (startup VariantB.opacityAt).
Proof.
  induction 1 as [|s e Hr IH]; [reflexivity|]. now rewrite tableB_step.
Qed.

Lemma startup_table (opacityAt : float -> float) (i : nat) :
  Map_get Nat.eqb (originalPositions (startup opacityAt)) i
  = Mesh.position <$> cubes (startup opacityAt) !! i.
Proof.
  exact (lights_table (buildGrid opacityAt) i (buildGrid_table opacityAt i)).
Qed.

Lemma initB_length : length (cubes (startup VariantB.opacityAt)) = gridCubes.
Proof. exact (proj1 (proj2 (proj2 (proj2 (proj2 (proj2 initB_built)))))). Qed.

(** X15 -- [undoAllCubes] of main.js (never called there): in a reachable
    state of variant B with at least one spawned cube it throws at the
    first spawned cube, which has no entry in the original-position table;
    by then the gridSize^3 cubes of the grid are reset and have their
    tweens, the spawned cubes are untouched and the counters are not
    reset.  With no spawned cube it returns normally. *)
Theorem X15_undo_throws_on_spawned_cube (s : VariantB.State) :
  VariantB.reachable s ->
  let w := VariantB.world s in
  ((gridCubes < length (cubes w))%nat ->
     exists cs' new,
       undoAllCubes w
       = Throw (mkWorld (cs' ++ drop gridCubes (cubes w)) (originalPositions w)
                        (cubePositions w) (scene w) (tweens w ++ new))
       /\ length cs' = gridCubes /\ length new = gridCubes
       /\ Forall (fun c' => Mesh.textured c' = false
                            /\ Material.map (Mesh.material c') = None
                            /\ Material.opacity (Mesh.material c') = 0.1%float) cs')
  /\ (length (cubes w) = gridCubes -> exists w', undoAllCubes w = Normal w').
Proof.
  intros Hr w.
  assert (Htab : forall i, Map_get Nat.eqb (originalPositions w) i
                           = Mesh.position <$> cubes (startup VariantB.opacityAt) !! i).
  { intros i. unfold w. rewrite (tableB_reachable s Hr). apply startup_table. }
  assert (Hsome : forall j, (j < gridCubes)%nat ->
            is_Some (Map_get Nat.eqb (originalPositions w) (0 + j))).
  { intros j Hj. cbn [Nat.add]. rewrite Htab.
    destruct (lookup_lt_is_Some_2 (cubes (startup VariantB.opacityAt)) j) as [c Hc];
      [now rewrite initB_length|].
    rewrite Hc. now eexists. }
  split.
  - intros Hlen.
    destruct (undoLoop_prefix (originalPositions w) gridCubes (cubes w) 0 [] (tweens w))
      as (cs' & new & L1 & L2 & Hf & E); [lia|exact Hsome|].
    exists cs', new. unfold undoAllCubes. rewrite E. cbn [Nat.add app].
    destruct (drop gridCubes (cubes w)) as [|c rest] eqn:Hd.
    { apply (f_equal length) in Hd. rewrite length_drop in Hd. cbn [length] in Hd. lia. }
    cbn [undoLoop].
    replace (Map_get Nat.eqb (originalPositions w) gridCubes) with (@None Vector3.t).
    + repeat split; assumption.
    + rewrite Htab, (proj2 (lookup_ge_None _ _)); [reflexivity|].
      now rewrite initB_length.
  - intros Hlen.
    destruct (undoLoop_prefix (originalPositions w) gridCubes (cubes w) 0 [] (tweens w))
      as (cs' & new & L1 & L2 & Hf & E); [lia|exact Hsome|].
    unfold undoAllCubes. rewrite E, drop_ge by lia. cbn [undoLoop]. now eexists.
Qed.

Lemma X15_undo_throws_witness :
  let s := VariantB.step VariantB.init (VariantB.MouseDown 0 (Some 0%nat)) in
  VariantB.reachable s
  /\ (gridCubes < length (cubes (VariantB.world s)))%nat
  /\ exists w', undoAllCubes (VariantB.world s) = Throw w'.
Proof.
  intros s.
  assert (Hr : VariantB.reachable s) by exact (VariantB.reach_step _ _ VariantB.reach_init).
  assert (Hl : (gridCubes < length (cubes (VariantB.world s)))%nat)
    by (vm_compute; lia).
  split; [exact Hr|]. split; [exact Hl|].
  destruct (proj1 (X15_undo_throws_on_spawned_cube s Hr) Hl) as (cs' & new & E & _).
  eexists. exact E.
Defined.

(** X16 -- Variant B: a successful placement on a column of height [n]
    (so [n < gridSize]) spawns a cube with the x and y of the clicked one,
    whose drop ends at the clamped level of [n + 1] rounded to six
    decimals (-1.1 where the level is -1.0999999999999999).  For [n < 8]
    the level is not clamped and the cube rests strictly below the cube of
    the next placement; the placements at heights 8 and 9 both end at
    [boundaryMax]. *)
Theorem X16_spawn_levels (s : VariantB.State) (i : nat) (clicked : Mesh.t) :
  VariantB.reachable s -> cubes (VariantB.world s) !! i = Some clicked ->
  (VariantB.currentHeight (VariantB.world s) (keyOf clicked) <? gridSize)%float = true ->
  let level m := constrain (newZPosition (natToFloat (S m))) in
  let rest m := Tween.round6 (level m) in
  exists n new,
    (n < gridCount)%nat
    /\ VariantB.currentHeight (VariantB.world s) (keyOf clicked) = natToFloat n
    /\ cubes (VariantB.world (VariantB.step s (VariantB.MouseDown 0 (Some i))))
         !! length (cubes (VariantB.world s)) = Some new
    /\ Mesh.position new
       = Vector3.mk (Vector3.x (Mesh.position clicked))
                    (Vector3.y (Mesh.position clicked)) (rest n)
    /\ ((n < 8)%nat ->
          level n = newZPosition (natToFloat (S n))
          /\ (rest n <? rest (S n))%float = true)
    /\ ((8 <= n)%nat -> level n = boundaryMax /\ rest n = boundaryMax)
    /\ (level 2%nat = (-1.0999999999999999)%float /\ rest 2%nat = (-1.1)%float
        /\ (rest 2%nat =? level 2%nat)%float = false).
Proof.
  intros Hr Hc Hlt level rest. pose proof (reachable_InvB s Hr) as I.
  assert (Hk : In (keyOf clicked) gridKeys).
  { exact (proj1 (List.Forall_forall _ _) (invB_cube_keys s I) clicked
                 (lookup_In _ _ _ Hc)). }
  destruct (InvB_height s _ I Hk) as (n & Hn & Hget).
  pose proof (InvB_currentHeight s _ n I Hn Hget) as Hcur.
  assert (Hn' : (n < gridCount)%nat).
  { rewrite Hcur in Hlt. exact (natToFloat_lt_gridSize n Hn Hlt). }
  exists n. eexists. split; [exact Hn'|]. split; [exact Hcur|].
  cbn [VariantB.step VariantB.mousedown].
  rewrite (onCubeClick_place s i clicked Hc Hlt). cbv zeta.
  cbn [VariantB.world cubes]. split; [apply list_lookup_middle; reflexivity|].
  split.
  { rewrite Hcur. unfold rest, level.
    pose proof (proj2 (proj2 (proj2 (drop_rest_bounds n Hn')))) as Hz.
    cbv zeta in Hz. change (natToFloat n + 1)%float with (natToFloat (S n)) in Hz.
    rewrite <- Hz. reflexivity. }
  split; [|split; [|vm_compute; repeat split]];
    clear -Hn'; unfold gridCount in Hn'; unfold rest, level;
    do 10 (destruct n as [|n]; [intros H; try lia; vm_compute; repeat split|]);
    lia.
Qed.

Lemma X16_spawn_levels_witness :
  exists new,
    cubes (VariantB.world (VariantB.step VariantB.init (VariantB.MouseDown 0 (Some 0%nat))))
      !! gridCubes = Some new.
Proof.
  assert (H : exists clicked,
             cubes (VariantB.world VariantB.init) !! 0%nat = Some clicked
             /\ (VariantB.currentHeight (VariantB.world VariantB.init) (keyOf clicked)
                 <? gridSize)%float = true).
  { vm_compute. eexists. split; reflexivity. }
  destruct H as (clicked & Hc & Hlt).
  destruct (X16_spawn_levels VariantB.init 0 clicked VariantB.reach_init Hc Hlt)
    as (n & new & _ & _ & Hnew & _).
  exists new. rewrite <- initB_length. exact Hnew.
Defined.

(** *** Grid cubes and spawned cubes *)

Lemma spawnedOk_tint (c c' : Mesh.t) :
  VariantB.setEmissive 0%N c' = VariantB.setEmissive 0%N c -> spawnedOk c -> spawnedOk c'.
Proof.
  destruct c as [g [co op tr mp em nu] po cs rs tx],
           c' as [g' [co' op' tr' mp' em' nu'] po' cs' rs' tx'].
  unfold VariantB.setEmissive, spawnedOk. cbn. intros E H.
  inversion E; subst. exact H.
Qed.

(** X17 -- Variant B: in every reachable state the gridSize^3 cubes of the
    grid are as they were at startup, up to their tint; and every other
    tracked cube is a spawned one: textured, with the texture map at
    opacity 1, casting and receiving no shadow, settled between one layer
    above [boundaryMin] and [boundaryMax]. *)
Theorem X17_grid_cubes_untouched (s : VariantB.State) :
  VariantB.reachable s ->
  (forall i c0, cubes (VariantB.world VariantB.init) !! i = Some c0 ->
     exists c, cubes (VariantB.world s) !! i = Some c
               /\ VariantB.setEmissive 0%N c = VariantB.setEmissive 0%N c0)
  /\ (forall i c, (gridCubes <= i)%nat -> cubes (VariantB.world s) !! i = Some c ->
        spawnedOk c).
Proof.
  intros Hr. induction Hr as [|s e Hr [IH1 IH2]].
  - split; [intros i c0 Hc0; now exists c0|].
    intros i c Hi Hc. apply lookup_lt_Some in Hc.
    change (VariantB.world VariantB.init) with (startup VariantB.opacityAt) in Hc.
    rewrite initB_length in Hc. lia.
  - pose proof (reachable_InvB s Hr) as I.
    assert (Hlen : (gridCubes <= length (cubes (VariantB.world s)))%nat).
    { rewrite (invB_count s I). unfold gridCubes. lia. }
    destruct e as [button hit|hit]; cbn [VariantB.step].
    + unfold VariantB.mousedown.
      destruct button as [|[|[|button]]]; try (split; assumption).
      destruct (onCubeClickB_cases s hit)
        as [->|(i & clicked & -> & Hc & [[Hlt ->]| ->])]; try (split; assumption).
      cbv zeta. cbn [VariantB.world cubes]. split.
      * intros j c0 Hc0. destruct (IH1 j c0 Hc0) as (c & Hcj & Hs).
        exists c. split; [now apply lookup_app_l_Some|exact Hs].
      * intros j c Hj Hcj.
        destruct (decide (j < length (cubes (VariantB.world s)))%nat) as [Hlt'|Hge].
        { rewrite lookup_app_l in Hcj by exact Hlt'. exact (IH2 j c Hj Hcj). }
        pose proof (lookup_lt_Some _ _ _ Hcj) as Hb. rewrite length_app in Hb.
        cbn [length] in Hb.
        assert (j = length (cubes (VariantB.world s))) as -> by lia.
        rewrite list_lookup_middle in Hcj by reflexivity. injection Hcj as <-.
        assert (Hk : In (keyOf clicked) gridKeys).
        { exact (proj1 (List.Forall_forall _ _) (invB_cube_keys s I) clicked
                       (lookup_In _ _ _ Hc)). }
        destruct (InvB_height s _ I Hk) as (n & Hn & Hget).
        pose proof (InvB_currentHeight s _ n I Hn Hget) as Hcur.
        rewrite Hcur in Hlt. apply (natToFloat_lt_gridSize n Hn) in Hlt.
        destruct (drop_rest_bounds n Hlt) as (Hlo & _ & Hhi & _).
        unfold spawnedOk. rewrite Hcur.
        split; [reflexivity|]. split; [reflexivity|]. split; [reflexivity|].
        split; [reflexivity|]. split; [reflexivity|]. split; [exact Hlo|exact Hhi].
    + split.
      * intros j c0 Hc0. destruct (IH1 j c0 Hc0) as (c & Hcj & Hs).
        destruct (onMouseMove_tint_only s hit j c Hcj) as (c' & Hc' & Hs').
        exists c'. split; [exact Hc'|congruence].
      * intros j c' Hj Hc'.
        destruct (onMouseMove_frame s hit) as (cs & hs & E & Hpos).
        assert (Hlt' : (j < length (cubes (VariantB.world s)))%nat).
        { apply lookup_lt_Some in Hc'. rewrite E in Hc'.
          cbn [VariantB.world VariantB.setCubes cubes] in Hc'.
          now rewrite <- (length_map Mesh.position cs), Hpos, length_map in Hc'. }
        destruct (lookup_lt_is_Some_2 _ _ Hlt') as [c Hc].
        destruct (onMouseMove_tint_only s hit j c Hc) as (c'' & Hc'' & Hs').
        rewrite Hc' in Hc''. injection Hc'' as <-.
        exact (spawnedOk_tint c c' Hs' (IH2 j c Hj Hc)).
Qed.

Lemma X17_grid_cubes_witness :
  let s := VariantB.run VariantB.init
             [VariantB.MouseMove (Some 3%nat); VariantB.MouseDown 0 (Some 3%nat)] in
  exists c, cubes (VariantB.world s) !! 1000%nat = Some c /\ Mesh.textured c = true.
Proof.
  intros s.
  assert (Hr : VariantB.reachable s)
    by exact (VariantB.reach_step _ _ (VariantB.reach_step _ _ VariantB.reach_init)).
  assert (H : exists c, cubes (VariantB.world s) !! 1000%nat = Some c).
  { vm_compute. eexists. reflexivity. }
  destruct H as (c & Hc). exists c. split; [exact Hc|].
  assert (Hi : (gridCubes <= 1000)%nat) by (vm_compute; lia).
  exact (proj1 (proj2 (X17_grid_cubes_untouched s Hr) 1000%nat c Hi Hc)).
Defined.
End VariantBCover.
